(** * Ponder core: the versioned indexing store and the RPC request queue

    A shallow embedding of
    - [packages/core/src/indexing-store/postgres/store.ts]
      (class [PostgresIndexingStore]),
    - the request queue ([createRequestQueue]), and
    - the cached transport ([ponderTransport]),
    with the properties of the versioned (bitemporal) row store, of the
    queue and of the cache proved over the embedding.

    Rows are untyped dictionaries keyed by column name, as in the source;
    the SQL statements the store issues through the query builder are given
    a small relational semantics (a relation is a list of rows with column
    constraints and a primary key). *)

From Stdlib Require Import ZArith QArith Qround Qminmax String Ascii List Lia Lqa.
From Stdlib Require Import Sorted.
From stdpp Require Import base option gmap list strings pretty.

Local Open Scope string_scope.

(** ** Values and rows *)

(** A column value, as JavaScript sees it and as the driver passes it to the
    database.  A JS array is represented by its JSON text ([VList]): list
    columns are stored as that text and parsed back on read. *)
Inductive Value : Type :=
  | VNull
  | VBool (b : bool)
  | VNum (n : Z)
  | VText (s : string)
  | VList (json : string).

#[global] Instance Value_eq_dec : EqDecision Value.
Proof. solve_decision. Defined.

(** [Row = Record<string, Value>]. *)
Abbreviation Row := (gmap string Value).

(** The [id] argument of the store methods: [string | number | bigint]. *)
Inductive Id : Type :=
  | IdText (s : string)
  | IdNum (n : Z).

Definition id_value (id : Id) : Value :=
  match id with
  | IdText s => VText s
  | IdNum n => VNum n
  end.

(** ** String helpers: case folding and SQL [LIKE] *)

Definition lower_ascii (c : ascii) : ascii :=
  let n := nat_of_ascii c in
  if (65 <=? n)%nat && (n <=? 90)%nat then ascii_of_nat (n + 32) else c.

Fixpoint lower (s : string) : string :=
  match s with
  | EmptyString => EmptyString
  | String c s' => String (lower_ascii c) (lower s')
  end.

Definition is_empty_string (s : string) : bool :=
  match s with EmptyString => true | String _ _ => false end.

(** SQL [LIKE] with the default escape character: [%] matches any sequence,
    [_] any single character, a backslash quotes the next character.  (A
    pattern that ends in a lone backslash is an error in Postgres; it
    matches nothing here.) *)
Fixpoint like (p s : string) {struct p} : bool :=
  match p with
  | EmptyString => is_empty_string s
  | String c p' =>
      if Ascii.eqb c "%" then
        (fix any (t : string) : bool :=
           like p' t || match t with
                        | EmptyString => false
                        | String _ t' => any t'
                        end) s
      else if Ascii.eqb c "_" then
        match s with String _ s' => like p' s' | EmptyString => false end
      else if Ascii.eqb c "\" then
        match p' with
        | String e p'' =>
            match s with
            | String d s' => Ascii.eqb e d && like p'' s'
            | EmptyString => false
            end
        | EmptyString => false
        end
      else
        match s with
        | String d s' => Ascii.eqb c d && like p' s'
        | EmptyString => false
        end
  end.

(** [ILIKE]: [LIKE] after case folding of pattern and subject. *)
Definition ilike (p s : string) : bool := like (lower p) (lower s).

(** The characters [LIKE] gives a meaning to. *)
Definition like_meta (c : ascii) : bool :=
  Ascii.eqb c "%" || Ascii.eqb c "_" || Ascii.eqb c "\".

Fixpoint like_plain (p : string) : bool :=
  match p with
  | EmptyString => true
  | String c p' => negb (like_meta c) && like_plain p'
  end.

Definition is_hex_digit (c : ascii) : bool :=
  let n := nat_of_ascii c in
  ((48 <=? n) && (n <=? 57) || (65 <=? n) && (n <=? 70)
   || (97 <=? n) && (n <=? 102))%nat.

Fixpoint all_hex (s : string) : bool :=
  match s with
  | EmptyString => true
  | String c s' => is_hex_digit c && all_hex s'
  end.

(** The [Hex] values of a [bytes] column: ["0x"] and hexadecimal digits. *)
Definition is_hex (s : string) : bool :=
  match s with
  | String "0" (String "x" s') => all_hex s'
  | _ => false
  end.

(** ** SQL conditions *)

Inductive Operator : Type := OpEq | OpIlike | OpGe | OpGt | OpLe | OpLt.

(** One [.where(column, operator, value)] call, or an [or([...])] of them. *)
Inductive Condition : Type :=
  | Where (column : string) (op : Operator) (v : Value)
  | WhereOr (alternatives : list (string * Operator * Value)).

(** Strings are compared by character code, as JavaScript does and as the
    database does on the digits of encoded checkpoints and on ["latest"]. *)
Definition string_le (a b : string) : bool :=
  match String.compare a b with Gt => false | _ => true end.
Definition string_lt (a b : string) : bool :=
  match String.compare a b with Lt => true | _ => false end.

(** [x op v] for a stored value [x]; a NULL or a value of another kind
    never satisfies a comparison. *)
Definition compare_values (op : Operator) (x v : Value) : bool :=
  match x, v with
  | VText a, VText b =>
      match op with
      | OpEq => String.eqb a b
      | OpIlike => ilike b a
      | OpGe => string_le b a
      | OpGt => string_lt b a
      | OpLe => string_le a b
      | OpLt => string_lt a b
      end
  | VNum a, VNum b =>
      match op with
      | OpEq => (a =? b)%Z
      | OpIlike => false
      | OpGe => (b <=? a)%Z
      | OpGt => (b <? a)%Z
      | OpLe => (a <=? b)%Z
      | OpLt => (a <? b)%Z
      end
  | _, _ => false
  end.

(** The value of a column in a row; NULL when the row does not have it. *)
Definition cell (r : Row) (k : string) : Value := default VNull (r !! k).

Definition eval_atom (r : Row) (a : string * Operator * Value) : bool :=
  let '(column, op, v) := a in compare_values op (cell r column) v.

Definition eval_condition (r : Row) (c : Condition) : bool :=
  match c with
  | Where column op v => eval_atom r (column, op, v)
  | WhereOr alternatives => existsb (eval_atom r) alternatives
  end.

(** Successive [.where] calls are a conjunction. *)
Definition matches (conds : list Condition) (r : Row) : bool :=
  forallb (eval_condition r) conds.

(** ** Schema (the user's declaration of tables and columns) *)

Inductive Scalar : Type := TBoolean | TInt | TFloat | TString | TBigint | TBytes.

#[global] Instance Scalar_eq_dec : EqDecision Scalar.
Proof. solve_decision. Defined.

(** Modelled from the spec: the column descriptors of [@/schema/types.js],
    which the sources do not include (spec 3.2): a scalar with its flags, a
    reference to the id of another table, an enum by its name, and the two
    virtual relation columns. *)
Inductive Column : Type :=
  | ScalarColumn (type : Scalar) (optional : bool) (list : bool)
  | ReferenceColumn (type : Scalar) (references : string) (optional : bool)
  | EnumColumn (type : string) (optional : bool)
  | OneColumn (referenceColumn : string)
  | ManyColumn (referenceTable referenceColumn : string).

(** A table: the required [id] column, which is neither optional nor a list
    and so is given by its scalar type, and the other columns. *)
Record Table : Type := {
  id_type : Scalar;
  columns : gmap string Column
}.

Record Schema : Type := {
  tables : gmap string Table;
  enums : gmap string (list string)
}.

(** [Object.entries(columns)] of a table, the [id] column included. *)
Definition table_columns (t : Table) : gmap string Column :=
  <["id" := ScalarColumn (id_type t) false false]> (columns t).

(** The predicates of [@/schema/utils.js], on these descriptors. *)
Definition isOneColumn (c : Column) : bool :=
  match c with OneColumn _ => true | _ => false end.
Definition isManyColumn (c : Column) : bool :=
  match c with ManyColumn _ _ => true | _ => false end.
Definition isEnumColumn (c : Column) : bool :=
  match c with EnumColumn _ _ => true | _ => false end.
Definition isReferenceColumn (c : Column) : bool :=
  match c with ReferenceColumn _ _ _ => true | _ => false end.

(** ** Relations (physical tables) *)

Inductive SqlType : Type :=
  | SqlInteger
  | SqlText
  | SqlNumeric (precision : nat)
  | SqlVarchar (n : nat).

Definition scalarToSqlType (t : Scalar) : SqlType :=
  match t with
  | TBoolean => SqlInteger
  | TInt => SqlInteger
  | TFloat => SqlText
  | TString => SqlText
  | TBigint => SqlNumeric 78
  | TBytes => SqlText
  end.

Record ColumnDef : Type := {
  col_type : SqlType;
  col_not_null : bool;
  (** [CHECK (column IN (...))] *)
  col_check : option (list string)
}.

Record Relation : Type := {
  rel_columns : gmap string ColumnDef;
  rel_primary_key : list string;
  rel_rows : list Row
}.

Definition with_rows (rel : Relation) (rows : list Row) : Relation :=
  {| rel_columns := rel_columns rel;
     rel_primary_key := rel_primary_key rel;
     rel_rows := rows |}.

Inductive PgError : Type :=
  | undefined_table
  | undefined_column
  | duplicate_column
  | constraint_violation   (* NOT NULL, CHECK, or a value the column type refuses *)
  | unique_violation
  | syntax_error.

Inductive Error : Type :=
  | NoResultError                 (* [executeTakeFirstOrThrow] on no row *)
  | JsError (message : string)    (* [new Error(message)] *)
  | TypeError                     (* property access on [undefined] *)
  | DatabaseError (e : PgError).

(** Does a non-NULL value fit a column of this type?  The driver's implicit
    casts are not modelled: text columns take strings, numeric columns take
    numbers. *)
Definition value_fits (t : SqlType) (v : Value) : bool :=
  match t, v with
  | SqlInteger, VNum n => ((-2147483648 <=? n) && (n <=? 2147483647))%Z
  | SqlNumeric p, VNum n => (Z.abs n <? 10 ^ Z.of_nat p)%Z
  | SqlText, VText _ => true
  | SqlVarchar n, VText s => (String.length s <=? n)%nat
  | _, _ => false
  end.

Definition column_accepts (d : ColumnDef) (v : Value) : bool :=
  match v with
  | VNull => negb (col_not_null d)
  | _ =>
      value_fits (col_type d) v
      && match col_check d, v with
         | Some allowed, VText s => existsb (String.eqb s) allowed
         | Some _, _ => false
         | None, _ => true
         end
  end.

(** The checks one new row version goes through (all but uniqueness). *)
Definition check_row (cols : gmap string ColumnDef) (r : Row) : option PgError :=
  if negb (forallb (fun kv => bool_decide (is_Some (cols !! kv.1))) (map_to_list r))
  then Some undefined_column
  else if forallb (fun kd => column_accepts kd.2 (cell r kd.1)) (map_to_list cols)
  then None
  else Some constraint_violation.

Definition check_rows (cols : gmap string ColumnDef) (rs : list Row) : option PgError :=
  list_find (fun o : option PgError => is_Some o) (check_row cols <$> rs)
    ≫= fun p => p.2.

(** A stored row has every column of the relation; the ones an INSERT does
    not mention are NULL. *)
Definition fill (cols : gmap string ColumnDef) (r : Row) : Row :=
  r ∪ ((fun _ => VNull) <$> cols).

Definition pk_of (pk : list string) (r : Row) : list Value :=
  cell r <$> pk.

Definition pk_unique (pk : list string) (rows : list Row) : bool :=
  bool_decide (NoDup (pk_of pk <$> rows)).

(** [selectFrom(t).selectAll().where(...)].  Rows come back in the order of
    the list, so [executeTakeFirst] takes the first row of the list that
    matches. *)
Definition select_rows (conds : list Condition) (rel : Relation) : list Row :=
  List.filter (matches conds) (rel_rows rel).

(** [insertInto(t).values(rows).returningAll()]: all rows or none. *)
Definition insert_rows (vals : list Row) (rel : Relation)
  : Error + (Relation * list Row) :=
  match check_rows (rel_columns rel) vals with
  | Some e => inl (DatabaseError e)
  | None =>
      let new := fill (rel_columns rel) <$> vals in
      let rows := (rel_rows rel ++ new)%list in
      if pk_unique (rel_primary_key rel) rows
      then inr (with_rows rel rows, new)
      else inl (DatabaseError unique_violation)
  end.

(** [updateTable(t).set(values).where(...).returningAll()]: every matching
    row takes the new values; all rows or none.  An empty [set] is not a
    statement. *)
Definition update_rows (conds : list Condition) (values : Row) (rel : Relation)
  : Error + (Relation * list Row) :=
  if bool_decide (values = ∅) then inl (DatabaseError syntax_error)
  else
    let updated := (fun r => values ∪ r) <$> List.filter (matches conds) (rel_rows rel) in
    let rows := (fun r => if matches conds r then values ∪ r else r) <$> rel_rows rel in
    match check_rows (rel_columns rel) updated with
    | Some e => inl (DatabaseError e)
    | None =>
        if pk_unique (rel_primary_key rel) rows
        then inr (with_rows rel rows, updated)
        else inl (DatabaseError unique_violation)
    end.

(** [deleteFrom(t).where(...).returning(...)]. *)
Definition delete_rows (conds : list Condition) (rel : Relation)
  : Relation * list Row :=
  (with_rows rel (List.filter (fun r => negb (matches conds r)) (rel_rows rel)),
   List.filter (matches conds) (rel_rows rel)).

(** ** The store object: [this.schema] and the private namespace *)

Record Store : Type := {
  this_schema : option Schema;
  database : gmap string Relation
}.

Definition with_database (st : Store) (db : gmap string Relation) : Store :=
  {| this_schema := this_schema st; database := db |}.

(** A store method: it runs on the store and either returns or throws. *)
Definition M (A : Type) : Type := Store -> Store * (Error + A).

Definition ret {A} (a : A) : M A := fun st => (st, inr a).
Definition throw {A} (e : Error) : M A := fun st => (st, inl e).
Definition bind {A B} (m : M A) (k : A -> M B) : M B :=
  fun st =>
    match m st with
    | (st', inr a) => k a st'
    | (st', inl e) => (st', inl e)
    end.

Notation "'do' x <- m ; k" := (bind m (fun x => k))
  (at level 10, x name, m at level 100, k at level 200).

(** [db.transaction().execute(body)]: when [body] throws, the writes it made
    are rolled back and the error is rethrown. *)
Definition transaction {A} (body : M A) : M A :=
  fun st =>
    match body st with
    | (st', inr a) => (st', inr a)
    | (st', inl e) => (with_database st' (database st), inl e)
    end.

(** One statement on a table of the namespace; a failing statement changes
    nothing. *)
Definition statement {A} (table : string)
    (f : Relation -> Error + (Relation * A)) : M A :=
  fun st =>
    match database st !! table with
    | None => (st, inl (DatabaseError undefined_table))
    | Some rel =>
        match f rel with
        | inl e => (st, inl e)
        | inr (rel', a) => (with_database st (<[table := rel']> (database st)), inr a)
        end
    end.

Definition selectFrom (table : string) (conds : list Condition) : M (list Row) :=
  statement table (fun rel => inr (rel, select_rows conds rel)).
Definition insertInto (table : string) (vals : list Row) : M (list Row) :=
  statement table (insert_rows vals).
Definition updateTable (table : string) (values : Row) (conds : list Condition)
  : M (list Row) :=
  statement table (update_rows conds values).
Definition deleteFrom (table : string) (conds : list Condition) : M (list Row) :=
  statement table (fun rel => inr (delete_rows conds rel)).

Definition executeTakeFirst (q : M (list Row)) : M (option Row) :=
  do rows <- q; ret (head rows).
Definition executeTakeFirstOrThrow (q : M (list Row)) : M Row :=
  do rows <- q;
  match rows with
  | r :: _ => ret r
  | [] => throw NoResultError
  end.

Definition get_schema : M (option Schema) := fun st => (st, inr (this_schema st)).

(** ** Row formatting *)

(** Modelled from the spec: [formatColumnValue] and [formatRow] of
    [../utils/format.js], which the sources do not include, with
    [encodeBigInts = false] as every call of the store passes it: a boolean
    is stored as 0/1, a list as its JSON text, anything else unchanged. *)
Definition formatColumnValue (value : Value) : Value :=
  match value with
  | VBool b => VNum (if b then 1 else 0)
  | VList json => VText json
  | v => v
  end.

Definition formatRow (data : Row) : Row := formatColumnValue <$> data.

(** The [type] property of a column descriptor, as the string it is. *)
Definition scalar_name (t : Scalar) : string :=
  match t with
  | TBoolean => "boolean"
  | TInt => "int"
  | TFloat => "float"
  | TString => "string"
  | TBigint => "bigint"
  | TBytes => "bytes"
  end.

Definition column_type (c : Column) : option string :=
  match c with
  | ScalarColumn t _ _ => Some (scalar_name t)
  | ReferenceColumn t _ _ => Some (scalar_name t)
  | EnumColumn name _ => Some name
  | OneColumn _ | ManyColumn _ _ => None
  end.

Definition column_list (c : Column) : bool :=
  match c with ScalarColumn _ _ l => l | _ => false end.

(** One iteration of the loop of [deserializeRow]; [None] when the loop
    leaves the key unset. *)
Definition deserialize_value (column : Column) (value : Value) : option Value :=
  match value with
  | VNull => Some VNull
  | _ =>
      if isOneColumn column then None
      else if isManyColumn column then None
      else if negb (isEnumColumn column) && negb (isReferenceColumn column)
              && column_list column
      then Some (match value with VText json => VList json | v => v end)
      else if bool_decide (column_type column = Some "boolean")
      then Some (VBool (bool_decide (value = VNum 1)))
      else Some value
  end.

(** [deserializeRow]; [None] is the [TypeError] of looking a table up in a
    schema that does not have it. *)
Definition deserializeRow (schema : option Schema) (tableName : string) (row : Row)
  : option Row :=
  match schema with
  | None => None
  | Some s =>
      match tables s !! tableName with
      | None => None
      | Some t =>
          Some (map_imap (fun columnName column =>
                            deserialize_value column (cell row columnName))
                         (table_columns t))
      end
  end.

Definition deserializeRowM (tableName : string) (row : Row) : M Row :=
  do schema <- get_schema;
  match deserializeRow schema tableName row with
  | Some r => ret r
  | None => throw TypeError
  end.

(** [idColumnComparator]: ["ilike"] for a [bytes] id, ["="] otherwise. *)
Definition idColumnComparator (tableName : string) (schema : option Schema)
  : Operator :=
  match schema ≫= fun s => tables s !! tableName with
  | Some t => if bool_decide (id_type t = TBytes) then OpIlike else OpEq
  | None => OpEq
  end.

Definition versioned (tableName : string) : string := tableName ++ "_versioned".

Definition MAX_BATCH_SIZE : nat := 1000.

(** JavaScript [>] and [===] on the values a row holds. *)
Definition js_gt (a b : Value) : bool :=
  match a, b with
  | VText x, VText y => string_lt y x
  | VNum x, VNum y => (y <? x)%Z
  | _, _ => false
  end.

Definition js_eq (a b : Value) : bool := bool_decide (a = b).

(** The [data] argument of [update]: a patch object, or a function of the
    current row. *)
Inductive UpdateData : Type :=
  | Patch (data : Row)
  | PatchFn (fn : Row -> Row).

(** [slice]s of [size] rows; [fuel] bounds the number of slices. *)
Fixpoint chunks (fuel size : nat) (rows : list Row) : list (list Row) :=
  match fuel with
  | O => []
  | S fuel' =>
      match rows with
      | [] => []
      | _ => take size rows :: chunks fuel' size (drop size rows)
      end
  end.

(** ** DDL: [reload] *)

(** The column a table gets for a schema column: [inr None] for a virtual
    column, [inl TypeError] when the enum is looked up in a schema argument
    that is absent or does not declare it. *)
Definition build_column (schema_arg : option Schema) (column : Column)
  : Error + option ColumnDef :=
  match column with
  | OneColumn _ | ManyColumn _ _ => inr None
  | EnumColumn type optional =>
      match schema_arg ≫= fun s => enums s !! type with
      | Some values =>
          inr (Some {| col_type := SqlText; col_not_null := negb optional;
                       col_check := Some values |})
      | None => inl TypeError
      end
  | ScalarColumn type optional true =>
      inr (Some {| col_type := SqlText; col_not_null := negb optional;
                   col_check := None |})
  | ScalarColumn type optional false =>
      inr (Some {| col_type := scalarToSqlType type; col_not_null := negb optional;
                   col_check := None |})
  | ReferenceColumn type _ optional =>
      inr (Some {| col_type := scalarToSqlType type; col_not_null := negb optional;
                   col_check := None |})
  end.

Definition checkpoint_column : ColumnDef :=
  {| col_type := SqlVarchar 58; col_not_null := true; col_check := None |}.

Definition is_inl {A B} (x : A + B) : bool :=
  match x with inl _ => true | inr _ => false end.

(** [createTable(`${tableName}_versioned`)] with its columns, the two
    checkpoint columns and the primary key. *)
Definition build_table (schema_arg : option Schema) (t : Table)
  : Error + Relation :=
  let cols := table_columns t in
  if existsb (fun kc => is_inl (build_column schema_arg kc.2)) (map_to_list cols)
  then inl TypeError
  else if bool_decide (is_Some (cols !! "effectiveFromCheckpoint"))
          || bool_decide (is_Some (cols !! "effectiveToCheckpoint"))
  then inl (DatabaseError duplicate_column)
  else
    inr {| rel_columns :=
             <["effectiveToCheckpoint" := checkpoint_column]>
               (<["effectiveFromCheckpoint" := checkpoint_column]>
                  (omap (fun c => match build_column schema_arg c with
                                  | inr d => d
                                  | inl _ => None
                                  end) cols));
           rel_primary_key := ["id"; "effectiveToCheckpoint"];
           rel_rows := [] |}.

(** Drop and create the table of every schema table, in turn. *)
Fixpoint create_tables (schema_arg : option Schema)
    (ts : list (string * Table)) : M unit :=
  match ts with
  | [] => ret tt
  | (tableName, t) :: ts' =>
      do _ <- (fun st =>
                 match build_table schema_arg t with
                 | inl e => (st, inl e)
                 | inr rel =>
                     (with_database st (<[versioned tableName := rel]> (database st)),
                      inr tt)
                 end);
      create_tables schema_arg ts'
  end.

(** [reload({ schema })].  The namespace registry ([ponder_metadata]) and its
    trigger are outside this development. *)
Definition reload (schema : option Schema) : M unit :=
  fun st =>
    match this_schema st, schema with
    | None, None => (st, inr tt)
    | _, _ =>
        let st1 := match schema with
                   | Some s => {| this_schema := Some s; database := database st |}
                   | None => st
                   end in
        transaction
          (create_tables schema
             (map_to_list (default ∅ (tables <$> this_schema st1)))) st1
    end.

(** ** The store methods *)

Definition latest : Value := VText "latest".

Definition PAST_UPDATE : Error := JsError "Cannot update a record in the past".

Section Methods.

(** [encodeCheckpoint] of [@/utils/checkpoint.js] is not part of the
    sources: the methods are parametric in it. *)
Context {Checkpoint : Type}.
Variable encodeCheckpoint : Checkpoint -> string.

(** The row [create] and the insert branch of [upsert] write. *)
Definition new_version (encodedCheckpoint : string) (row : Row) : Row :=
  <["effectiveToCheckpoint" := latest]>
    (<["effectiveFromCheckpoint" := VText encodedCheckpoint]> row).

Definition create (tableName : string) (checkpoint : Checkpoint)
    (id : Id) (data : Row) : M Row :=
  let table := versioned tableName in
  let createRow := formatRow (data ∪ {["id" := id_value id]}) in
  let encodedCheckpoint := encodeCheckpoint checkpoint in
  do row <- executeTakeFirstOrThrow
              (insertInto table [new_version encodedCheckpoint createRow]);
  deserializeRowM tableName row.

(** The statements of the chunks all run; the call throws the first error
    if one of them failed. *)
Fixpoint insert_chunks (table : string) (cs : list (list Row))
  : M (list Row) :=
  match cs with
  | [] => ret []
  | c :: cs' =>
      fun st =>
        match insertInto table c st with
        | (st1, inl e) => (fst (insert_chunks table cs' st1), inl e)
        | (st1, inr rows) =>
            match insert_chunks table cs' st1 with
            | (st2, inl e) => (st2, inl e)
            | (st2, inr rest) => (st2, inr (rows ++ rest)%list)
            end
        end
  end.

Fixpoint deserializeRows (tableName : string) (rows : list Row) : M (list Row) :=
  match rows with
  | [] => ret []
  | row :: rows' =>
      do r <- deserializeRowM tableName row;
      do rs <- deserializeRows tableName rows';
      ret (r :: rs)
  end.

Definition createMany (tableName : string) (checkpoint : Checkpoint)
    (data : list Row) : M (list Row) :=
  let table := versioned tableName in
  let encodedCheckpoint := encodeCheckpoint checkpoint in
  let createRows := (fun d => new_version encodedCheckpoint (formatRow d)) <$> data in
  let chunkedRows := chunks (length createRows) MAX_BATCH_SIZE createRows in
  do rows <- insert_chunks table chunkedRows;
  deserializeRows tableName rows.

(** The common tail of [update], [updateMany] and [upsert], from the
    past-write test on: the in-place update when the latest version
    starts at this checkpoint, otherwise close it and insert a version. *)
Definition write_version (tableName : string) (encodedCheckpoint : string)
    (formattedId : Value) (latestRow updateRow : Row) : M Row :=
  let table := versioned tableName in
  if js_gt (cell latestRow "effectiveFromCheckpoint") (VText encodedCheckpoint)
  then throw PAST_UPDATE
  else if js_eq (cell latestRow "effectiveFromCheckpoint") (VText encodedCheckpoint)
  then
    do schema <- get_schema;
    executeTakeFirstOrThrow
      (updateTable table updateRow
         [Where "id" (idColumnComparator tableName schema) formattedId;
          Where "effectiveFromCheckpoint" OpEq (VText encodedCheckpoint)])
  else
    do schema <- get_schema;
    do _ <- updateTable table {["effectiveToCheckpoint" := VText encodedCheckpoint]}
              [Where "id" (idColumnComparator tableName schema) formattedId;
               Where "effectiveToCheckpoint" OpEq latest];
    executeTakeFirstOrThrow
      (insertInto table [new_version encodedCheckpoint (updateRow ∪ latestRow)]).

(** [updateRow] of [update] and [upsert]: [formatRow({ id, ...patch })]. *)
Definition update_row (tableName : string) (id : Id) (data : UpdateData)
    (latestRow : Row) : M Row :=
  match data with
  | PatchFn fn =>
      do current <- deserializeRowM tableName latestRow;
      ret (formatRow (fn current ∪ {["id" := id_value id]}))
  | Patch d => ret (formatRow (d ∪ {["id" := id_value id]}))
  end.

Definition update (tableName : string) (checkpoint : Checkpoint)
    (id : Id) (data : UpdateData) : M Row :=
  let table := versioned tableName in
  let formattedId := formatColumnValue (id_value id) in
  let encodedCheckpoint := encodeCheckpoint checkpoint in
  do row <- transaction
    (do schema <- get_schema;
     do latestRow <- executeTakeFirstOrThrow
          (selectFrom table
             [Where "id" (idColumnComparator tableName schema) formattedId;
              Where "effectiveToCheckpoint" OpEq latest]);
     do updateRow <- update_row tableName id data latestRow;
     write_version tableName encodedCheckpoint formattedId latestRow updateRow);
  deserializeRowM tableName row.

(** The loop of [updateMany] over the selected rows, in their order. *)
Fixpoint update_each (tableName : string) (encodedCheckpoint : string)
    (data : UpdateData) (latestRows : list Row) : M (list Row) :=
  match latestRows with
  | [] => ret []
  | latestRow :: rest =>
      let formattedId := cell latestRow "id" in
      do updateRow <-
        match data with
        | PatchFn fn =>
            do current <- deserializeRowM tableName latestRow;
            ret (formatRow (fn current))
        | Patch d => ret (formatRow d)
        end;
      do row <- write_version tableName encodedCheckpoint formattedId
                  latestRow updateRow;
      do rows <- update_each tableName encodedCheckpoint data rest;
      ret (row :: rows)
  end.

(** [where] is given as the conditions [buildSqlWhereConditions] makes of
    it. *)
Definition updateMany (tableName : string) (checkpoint : Checkpoint)
    (where_ : list Condition) (data : UpdateData) : M (list Row) :=
  let table := versioned tableName in
  let encodedCheckpoint := encodeCheckpoint checkpoint in
  do rows <- transaction
    (do latestRows <- selectFrom table
          (Where "effectiveToCheckpoint" OpEq latest :: where_);
     update_each tableName encodedCheckpoint data latestRows);
  deserializeRows tableName rows.

Definition upsert (tableName : string) (checkpoint : Checkpoint)
    (id : Id) (create_ : Row) (update_ : UpdateData) : M Row :=
  let table := versioned tableName in
  let formattedId := formatColumnValue (id_value id) in
  let createRow := formatRow (create_ ∪ {["id" := id_value id]}) in
  let encodedCheckpoint := encodeCheckpoint checkpoint in
  do row <- transaction
    (do schema <- get_schema;
     do latestRow <- executeTakeFirst
          (selectFrom table
             [Where "id" (idColumnComparator tableName schema) formattedId;
              Where "effectiveToCheckpoint" OpEq latest]);
     match latestRow with
     | None =>
         executeTakeFirstOrThrow
           (insertInto table [new_version encodedCheckpoint createRow])
     | Some latestRow =>
         do updateRow <- update_row tableName id update_ latestRow;
         write_version tableName encodedCheckpoint formattedId latestRow updateRow
     end);
  deserializeRowM tableName row.

Definition delete (tableName : string) (checkpoint : Checkpoint) (id : Id)
  : M bool :=
  let table := versioned tableName in
  let formattedId := formatColumnValue (id_value id) in
  let encodedCheckpoint := encodeCheckpoint checkpoint in
  transaction
    (do schema <- get_schema;
     do deletedRow <- executeTakeFirst
          (deleteFrom table
             [Where "id" (idColumnComparator tableName schema) formattedId;
              Where "effectiveFromCheckpoint" OpEq (VText encodedCheckpoint);
              Where "effectiveToCheckpoint" OpEq latest]);
     match deletedRow with
     | Some _ => ret true
     | None =>
         do deletedRow <- executeTakeFirst
              (updateTable table
                 {["effectiveToCheckpoint" := VText encodedCheckpoint]}
                 [Where "id" (idColumnComparator tableName schema) formattedId;
                  Where "effectiveToCheckpoint" OpEq latest]);
         ret (bool_decide (is_Some deletedRow))
     end).

(** The two statements [revert] runs on one table. *)
Definition revert_table (encodedCheckpoint : string) (tableName : string)
  : M unit :=
  let table := versioned tableName in
  do _ <- deleteFrom table
            [Where "effectiveFromCheckpoint" OpGe (VText encodedCheckpoint)];
  do _ <- updateTable table {["effectiveToCheckpoint" := latest]}
            [Where "effectiveToCheckpoint" OpGe (VText encodedCheckpoint)];
  ret tt.

Fixpoint revert_tables (encodedCheckpoint : string) (tableNames : list string)
  : M unit :=
  match tableNames with
  | [] => ret tt
  | tableName :: rest =>
      do _ <- revert_table encodedCheckpoint tableName;
      revert_tables encodedCheckpoint rest
  end.

Definition revert (checkpoint : Checkpoint) : M unit :=
  transaction
    (do schema <- get_schema;
     revert_tables (encodeCheckpoint checkpoint)
       (map_to_list (default ∅ (tables <$> schema))).*1).

(** [internalFindUnique] on the private namespace, as [findUnique] calls
    it; [checkpoint = None] is ["latest"]. *)
Definition internalFindUnique (tableName : string)
    (checkpoint : option Checkpoint) (id : Id) : M (option Row) :=
  let table := versioned tableName in
  let formattedId := formatColumnValue (id_value id) in
  do schema <- get_schema;
  let query := [Where "id" (idColumnComparator tableName schema) formattedId] in
  let query :=
    match checkpoint with
    | None => (query ++ [Where "effectiveToCheckpoint" OpEq latest])%list
    | Some checkpoint =>
        let encodedCheckpoint := encodeCheckpoint checkpoint in
        (query ++
          [Where "effectiveFromCheckpoint" OpLe (VText encodedCheckpoint);
           WhereOr [("effectiveToCheckpoint", OpGt, VText encodedCheckpoint);
                    ("effectiveToCheckpoint", OpEq, latest)]])%list
    end in
  do row <- executeTakeFirst (selectFrom table query);
  match row with
  | None => ret None
  | Some row =>
      do r <- deserializeRowM tableName row;
      ret (Some r)
  end.

Definition findUnique := internalFindUnique.

End Methods.

(** ** Vocabulary of the statements *)

(** The state of one table of a store that [reload] has set up: the schema
    declares it, the namespace holds its relation as [build_table] makes it,
    and the rows satisfy the constraints of the relation. *)
Record TableState (st : Store) (tableName : string) (t : Table)
    (rel : Relation) : Prop := {
  ts_schema : this_schema st ≫= (fun s => tables s !! tableName) = Some t;
  ts_relation : database st !! versioned tableName = Some rel;
  ts_built : exists schema_arg rel0,
      build_table schema_arg t = inr rel0
      /\ rel_columns rel = rel_columns rel0
      /\ rel_primary_key rel = rel_primary_key rel0;
  ts_unique : pk_unique (rel_primary_key rel) (rel_rows rel) = true;
  ts_rows : forallb (fun r => bool_decide (check_row (rel_columns rel) r = None))
              (rel_rows rel) = true
}.

(** The relation takes the row: it has no unknown column and every column
    accepts its value. *)
Definition accepts (rel : Relation) (r : Row) : Prop :=
  check_row (rel_columns rel) r = None.

(** The id can be compared by the comparator of its table: under ["ilike"]
    it is a string without [LIKE] metacharacters, as [Hex] values are. *)
Definition id_wf (op : Operator) (id : Id) : bool :=
  match op with
  | OpIlike => match id with IdText s => like_plain s | IdNum _ => false end
  | _ => true
  end.

(** The condition on [id] that every row-matching WHERE clause starts with. *)
Definition id_condition (st : Store) (tableName : string) (id : Id) : Condition :=
  Where "id" (idColumnComparator tableName (this_schema st))
    (formatColumnValue (id_value id)).

(** The versions of [id] a relation holds, under the comparator of the
    table. *)
Definition versions_of (st : Store) (tableName : string) (id : Id)
    (rel : Relation) : list Row :=
  select_rows [id_condition st tableName id] rel.

(** The current versions among them. *)
Definition current_of (st : Store) (tableName : string) (id : Id)
    (rel : Relation) : list Row :=
  select_rows [id_condition st tableName id;
               Where "effectiveToCheckpoint" OpEq latest] rel.

(** Replace the relation of a table. *)
Definition set_relation (st : Store) (tableName : string) (rel : Relation) : Store :=
  with_database st (<[versioned tableName := rel]> (database st)).

(** The patch an [update] applies, given the current row (the argument of
    an update function). *)
Definition the_patch (data : UpdateData) (current : Row) : Row :=
  match data with
  | Patch d => d
  | PatchFn fn => fn current
  end.

(** The data of a write names user columns only: not the id, which is an
    argument of its own, and not the two checkpoint columns. *)
Definition user_data (d : Row) : Prop :=
  d !! "id" = None
  /\ d !! "effectiveFromCheckpoint" = None
  /\ d !! "effectiveToCheckpoint" = None.

(** The row [delete] (and the branch case of [update]) closes at [e]. *)
Definition close_at (e : string) (r : Row) : Row :=
  {["effectiveToCheckpoint" := VText e]} ∪ r.

(** What the two statements of [revert] make of one relation. *)
Definition revert_rel (e : string) (rel : Relation) : Error + Relation :=
  match update_rows [Where "effectiveToCheckpoint" OpGe (VText e)]
          {["effectiveToCheckpoint" := latest]}
          (delete_rows [Where "effectiveFromCheckpoint" OpGe (VText e)] rel).1 with
  | inl err => inl err
  | inr (rel2, _) => inr rel2
  end.

(** The table is at a fixed point of the revert to [e]. *)
Definition reverted (e : string) (st : Store) (tableName : string) : Prop :=
  exists rel, database st !! versioned tableName = Some rel
              /\ revert_rel e rel = inr rel.

(** The tables [revert] goes through. *)
Definition schema_tables (st : Store) : list string :=
  (map_to_list (default ∅ (tables <$> this_schema st))).*1.

Section Vocabulary.

Context {Checkpoint : Type}.
Variable encodeCheckpoint : Checkpoint -> string.

(** The query of [findUnique], after the condition on the id. *)
Definition checkpoint_conditions (checkpoint : option Checkpoint) : list Condition :=
  match checkpoint with
  | None => [Where "effectiveToCheckpoint" OpEq latest]
  | Some c =>
      [Where "effectiveFromCheckpoint" OpLe (VText (encodeCheckpoint c));
       WhereOr [("effectiveToCheckpoint", OpGt, VText (encodeCheckpoint c));
                ("effectiveToCheckpoint", OpEq, latest)]]
  end.

End Vocabulary.

(** ** Sequences of operations *)

(** The relation has the primary key [reload] gives every table, and its
    rows respect it. *)
Definition relation_ok (rel : Relation) : Prop :=
  rel_primary_key rel = ["id"; "effectiveToCheckpoint"]
  /\ pk_unique (rel_primary_key rel) (rel_rows rel) = true.

Definition keys_ok (st : Store) : Prop :=
  forall table rel, database st !! table = Some rel -> relation_ok rel.

(** The state [m] leaves satisfies [P] whenever the state it starts in
    does. *)
Definition preserves {A} (P : Store -> Prop) (m : M A) : Prop :=
  forall st, P st -> P (m st).1.

(** A call of a store method that writes. *)
Inductive Operation (Checkpoint : Type) : Type :=
  | DoCreate (tableName : string) (checkpoint : Checkpoint) (id : Id) (data : Row)
  | DoCreateMany (tableName : string) (checkpoint : Checkpoint) (data : list Row)
  | DoUpdate (tableName : string) (checkpoint : Checkpoint) (id : Id)
      (data : UpdateData)
  | DoUpdateMany (tableName : string) (checkpoint : Checkpoint)
      (where_ : list Condition) (data : UpdateData)
  | DoUpsert (tableName : string) (checkpoint : Checkpoint) (id : Id)
      (create_ : Row) (update_ : UpdateData)
  | DoDelete (tableName : string) (checkpoint : Checkpoint) (id : Id)
  | DoRevert (checkpoint : Checkpoint).

Arguments DoCreate {Checkpoint}.
Arguments DoCreateMany {Checkpoint}.
Arguments DoUpdate {Checkpoint}.
Arguments DoUpdateMany {Checkpoint}.
Arguments DoUpsert {Checkpoint}.
Arguments DoDelete {Checkpoint}.
Arguments DoRevert {Checkpoint}.

Section Performing.

Context {Checkpoint : Type}.
Variable encodeCheckpoint : Checkpoint -> string.

(** The store after the call, whether it returned or threw. *)
Definition perform (op : Operation Checkpoint) (st : Store) : Store :=
  match op with
  | DoCreate tableName c id data =>
      (create encodeCheckpoint tableName c id data st).1
  | DoCreateMany tableName c data =>
      (createMany encodeCheckpoint tableName c data st).1
  | DoUpdate tableName c id data =>
      (update encodeCheckpoint tableName c id data st).1
  | DoUpdateMany tableName c where_ data =>
      (updateMany encodeCheckpoint tableName c where_ data st).1
  | DoUpsert tableName c id create_ update_ =>
      (upsert encodeCheckpoint tableName c id create_ update_ st).1
  | DoDelete tableName c id =>
      (delete encodeCheckpoint tableName c id st).1
  | DoRevert c => (revert encodeCheckpoint c st).1
  end.

Definition perform_all (ops : list (Operation Checkpoint)) (st : Store) : Store :=
  fold_left (fun st op => perform op st) ops st.

End Performing.

(** ** Errors and what they carry *)

(** The message of a thrown [Error]; the store does not make the messages
    of the other errors. *)
Definition error_message (err : Error) : string :=
  match err with
  | JsError message => message
  | _ => ""
  end.

Fixpoint contains (needle hay : string) : bool :=
  String.prefix needle hay
  || match hay with
     | EmptyString => false
     | String _ hay' => contains needle hay'
     end.

Definition id_text (id : Id) : string :=
  match id with
  | IdText s => s
  | IdNum n => pretty n
  end.

(** The error names the table and the id of the row. *)
Definition surfaced_with (err : Error) (tableName : string) (id : Id) : Prop :=
  contains tableName (error_message err) = true
  /\ contains (id_text id) (error_message err) = true.

(** ** A store to run the methods on *)

Module Fixture.

(** An encoding for the examples: the checkpoint is a number, its encoding
    the 58 decimal digits of it. *)
Fixpoint zeros (n : nat) : string :=
  match n with
  | O => ""
  | S n' => String "0" (zeros n')
  end.

Definition encode (n : N) : string :=
  let digits := pretty n in
  (zeros (58 - String.length digits) ++ digits)%string.

Definition Token : Table :=
  {| id_type := TBytes;
     columns := {["supply" := ScalarColumn TBigint false false]} |}.

Definition Counter : Table :=
  {| id_type := TString;
     columns := {["count" := ScalarColumn TInt false false]} |}.

Definition schema : Schema :=
  {| tables := {["Token" := Token; "Counter" := Counter]}; enums := ∅ |}.

(** The store after [reload({ schema })], with empty tables. *)
Definition store0 : Store :=
  (reload (Some schema) {| this_schema := None; database := ∅ |}).1.

Definition empty_relation : Relation :=
  {| rel_columns := ∅; rel_primary_key := []; rel_rows := [] |}.

Definition relation_of (st : Store) (tableName : string) : Relation :=
  default empty_relation (database st !! versioned tableName).

(** The version [create("Token", 2, "0xAB", { supply: 0 })] writes. *)
Definition version1 : Row :=
  fill (rel_columns (relation_of store0 "Token"))
    (new_version (encode 2)
       (formatRow ({["supply" := VNum 0]} ∪ {["id" := VText "0xAB"]}))).

(** The store after [create("Token", 2, "0xAB", { supply: 0 })]. *)
Definition store1 : Store :=
  (create encode "Token" 2%N (IdText "0xAB") {["supply" := VNum 0]} store0).1.

(** ... and after [create("Token", 2, "0xab", { supply: 7 })] on top of it. *)
Definition store2 : Store :=
  (create encode "Token" 2%N (IdText "0xab") {["supply" := VNum 7]} store1).1.

End Fixture.

(** ** The values of a column *)

(** The JavaScript values a column of the schema holds: [null]; a boolean
    in a [boolean] column, a list in a list column, a number or a string in
    the others.  The virtual columns hold nothing else than [null]. *)
Definition value_of_column (column : Column) (v : Value) : bool :=
  match v with
  | VNull => true
  | VBool _ =>
      match column with
      | ScalarColumn TBoolean _ false | ReferenceColumn TBoolean _ _ => true
      | _ => false
      end
  | VList _ =>
      match column with
      | ScalarColumn _ _ true => true
      | _ => false
      end
  | VNum _ | VText _ =>
      match column with
      | ScalarColumn TBoolean _ _ | ReferenceColumn TBoolean _ _ => false
      | ScalarColumn _ _ list => negb list
      | ReferenceColumn _ _ _ => true
      | EnumColumn type _ => negb (String.eqb type "boolean")
      | OneColumn _ | ManyColumn _ _ => false
      end
  end.

(** The row a method returns for the values [data] of the columns: every
    column of the table, [null] where [data] has nothing. *)
Definition returned_row (t : Table) (data : Row) : Row :=
  map_imap (fun columnName _ => Some (cell data columnName)) (table_columns t).

(** ** What a write leaves alone *)

(** The store [st] differs from [st0] in the rows of one table at most:
    the schema is the same, so are the other tables, and the table has the
    columns and the primary key it had. *)
Definition only_touches (table : string) (st0 st : Store) : Prop :=
  this_schema st = this_schema st0
  /\ (forall k, k <> table -> database st !! k = database st0 !! k)
  /\ match database st0 !! table, database st !! table with
     | Some rel0, Some rel =>
         rel_columns rel = rel_columns rel0
         /\ rel_primary_key rel = rel_primary_key rel0
     | None, None => True
     | _, _ => False
     end.

(** The table a write is made on; [revert] goes through all of them. *)
Definition table_of {Checkpoint : Type} (op : Operation Checkpoint)
  : option string :=
  match op with
  | DoCreate tableName _ _ _ => Some tableName
  | DoCreateMany tableName _ _ => Some tableName
  | DoUpdate tableName _ _ _ => Some tableName
  | DoUpdateMany tableName _ _ _ => Some tableName
  | DoUpsert tableName _ _ _ _ => Some tableName
  | DoDelete tableName _ _ => Some tableName
  | DoRevert _ => None
  end.

(** Two more schemas for the examples: one with a column that has the name
    of a checkpoint column, one with an enum. *)
Module MoreFixture.

Definition Log : Table :=
  {| id_type := TString;
     columns := {["effectiveToCheckpoint" := ScalarColumn TString false false]} |}.

Definition clashing_schema : Schema :=
  {| tables := {["Log" := Log]}; enums := ∅ |}.

Definition Order : Table :=
  {| id_type := TString;
     columns := {["status" := EnumColumn "Status" false]} |}.

Definition enum_schema : Schema :=
  {| tables := {["Order" := Order]};
     enums := {["Status" := ["open"; "filled"]]} |}.

End MoreFixture.

(** * The request queue ([createRequestQueue]) *)

Module RequestQueue.

Local Open Scope list_scope.

(** JavaScript numbers are taken as rationals: the arithmetic below is
    exact. *)
Definition Qgt_bool (a b : Q) : bool := negb (Qle_bool a b).

Definition interval (maxRequestsPerSecond : Q) : Q :=
  if Qgt_bool (1000 / maxRequestsPerSecond) 50
  then (1000 / maxRequestsPerSecond)%Q
  else 50%Q.

Definition requestBatchSize (maxRequestsPerSecond : Q) : Z :=
  if Qgt_bool (1000 / maxRequestsPerSecond) 50
  then 1%Z
  else Qfloor (maxRequestsPerSecond / 20).

(** The same parameters in the words of the specification. *)
Definition spec_interval (R : Q) : Q := Qmax (1000 / R) 50.

Definition spec_batchSize (R : Q) : Z :=
  if Qeq_bool (spec_interval R) (1000 / R) then 1%Z else Qfloor (R / 20).

(** The promise [request] returns: pending, or settled one way or the
    other. *)
Inductive PromiseState : Type :=
  | Pending
  | Fulfilled (value : string)
  | Rejected (reason : string).

(** A task of the queue.  Its [resolve] and [reject] are those of the
    promise that [request] made for it, the [promise]-th promise the queue
    has returned. *)
Record Task : Type := {
  params : string;
  promise : nat
}.

(** The variables of the closure, and around them the promises handed out,
    the calls of [transport.request] that have not settled (each with the
    [_id] it captured) and the armed timeouts (with their delays). *)
Record State : Type := {
  queue : list Task;
  lastRequestTime : Z;
  pending : Z;
  timing : bool;
  on : bool;
  id : Z;
  pendingRequests : gmap Z nat;
  promises : list PromiseState;
  inflight : list (Z * Task);
  timers : list Q
}.

Definition init : State :=
  {| queue := []; lastRequestTime := 0; pending := 0; timing := false;
     on := true; id := 0; pendingRequests := ∅;
     promises := []; inflight := []; timers := [] |}.

(** One turn of the [for] loop of [processQueue]: shift a task, count it
    pending, register its [reject] under the current [id], and call the
    transport. *)
Definition dispatch_one (task : Task) (rest : list Task) (s : State) : State :=
  {| queue := rest;
     lastRequestTime := lastRequestTime s;
     pending := pending s + 1;
     timing := timing s;
     on := on s;
     id := id s;
     pendingRequests := <[id s := promise task]> (pendingRequests s);
     promises := promises s;
     inflight := inflight s ++ [(id s, task)];
     timers := timers s |}.

(** The loop, for [n] turns at most; it leaves when the queue is empty. *)
Fixpoint dispatch (n : nat) (s : State) : State :=
  match n with
  | O => s
  | S n' =>
      match queue s with
      | [] => s
      | task :: rest =>
          let s' := dispatch_one task rest s in
          match rest with
          | [] => s'
          | _ => dispatch n' s'
          end
      end
  end.

Definition set_lastRequestTime (now : Z) (s : State) : State :=
  {| queue := queue s; lastRequestTime := now; pending := pending s;
     timing := timing s; on := on s; id := id s;
     pendingRequests := pendingRequests s; promises := promises s;
     inflight := inflight s; timers := timers s |}.

(** [setTimeout(..., delay)] under the [timing] guard. *)
Definition arm_timer (delay : Q) (s : State) : State :=
  if timing s then s
  else
    {| queue := queue s; lastRequestTime := lastRequestTime s;
       pending := pending s; timing := true; on := on s; id := id s;
       pendingRequests := pendingRequests s; promises := promises s;
       inflight := inflight s; timers := timers s ++ [delay] |}.

(** [processQueue], with [now] the value of [Date.now()]. *)
Definition processQueue (R : Q) (now : Z) (s : State) : State :=
  if negb (on s) then s
  else
    match queue s with
    | [] => s
    | _ =>
        let timeSinceLastRequest := (now - lastRequestTime s)%Z in
        if Qle_bool (interval R) (inject_Z timeSinceLastRequest)
        then
          arm_timer (interval R - 0)
            (dispatch (Z.to_nat (requestBatchSize R)) (set_lastRequestTime now s))
        else
          arm_timer (interval R - inject_Z timeSinceLastRequest) s
    end.

(** [request(params)] before it calls [processQueue]: a new promise, and
    its task at the end of the queue. *)
Definition enqueue (p : string) (s : State) : State :=
  {| queue := queue s ++ [{| params := p; promise := length (promises s) |}];
     lastRequestTime := lastRequestTime s; pending := pending s;
     timing := timing s; on := on s; id := id s;
     pendingRequests := pendingRequests s;
     promises := promises s ++ [Pending];
     inflight := inflight s; timers := timers s |}.

Definition set_on (b : bool) (s : State) : State :=
  {| queue := queue s; lastRequestTime := lastRequestTime s;
     pending := pending s; timing := timing s; on := b; id := id s;
     pendingRequests := pendingRequests s; promises := promises s;
     inflight := inflight s; timers := timers s |}.

(** [clear()]. *)
Definition clear (s : State) : State :=
  {| queue := []; lastRequestTime := 0; pending := pending s;
     timing := timing s; on := on s; id := id s;
     pendingRequests := pendingRequests s; promises := promises s;
     inflight := inflight s; timers := timers s |}.

(** The callback of the timeout: [timing = false; processQueue()]. *)
Definition fire (R : Q) (now : Z) (s : State) : State :=
  match timers s with
  | [] => s
  | _ :: rest =>
      processQueue R now
        {| queue := queue s; lastRequestTime := lastRequestTime s;
           pending := pending s; timing := false; on := on s; id := id s;
           pendingRequests := pendingRequests s; promises := promises s;
           inflight := inflight s; timers := rest |}
  end.

Definition outcome (result : string + string) : PromiseState :=
  match result with
  | inl reason => Rejected reason
  | inr value => Fulfilled value
  end.

(** [resolve] or [reject] of a promise: a settled promise stays as it is. *)
Definition settle (p : nat) (result : string + string)
    (ps : list PromiseState) : list PromiseState :=
  match ps !! p with
  | Some Pending => <[p := outcome result]> ps
  | _ => ps
  end.

(** The transport settles its [k]-th outstanding call: [then] or [catch]
    settles the promise of the task, [finally] does the bookkeeping. *)
Definition respond (k : nat) (result : string + string) (s : State) : State :=
  match inflight s !! k with
  | None => s
  | Some (_id, task) =>
      {| queue := queue s; lastRequestTime := lastRequestTime s;
         pending := pending s - 1; timing := timing s; on := on s;
         id := id s + 1;
         pendingRequests := base.delete _id (pendingRequests s);
         promises := settle (promise task) result (promises s);
         inflight := take k (inflight s) ++ drop (S k) (inflight s);
         timers := timers s |}
  end.

(** What can happen to a queue: the calls of its methods, a timeout, an
    answer of the transport. *)
Inductive Event : Type :=
  | Request (p : string) (now : Z)
  | Start (now : Z)
  | Pause
  | Clear
  | Timeout (now : Z)
  | Respond (k : nat) (result : string + string).

Definition step (R : Q) (s : State) (ev : Event) : State :=
  match ev with
  | Request p now => processQueue R now (enqueue p s)
  | Start now => processQueue R now (set_on true s)
  | Pause => set_on false s
  | Clear => clear s
  | Timeout now => fire R now s
  | Respond k result => respond k result s
  end.

Definition run (R : Q) (s : State) (evs : list Event) : State :=
  fold_left (step R) evs s.

(** The promises of the tasks the queue still has to do something with. *)
Definition live (s : State) : list nat :=
  promise <$> (queue s ++ (inflight s).*2).

(** The promises of the live tasks are distinct and pending. *)
Definition Inv (s : State) : Prop :=
  NoDup (live s) /\ forall p, p ∈ live s -> promises s !! p = Some Pending.

(** A pending promise that no task of the queue or of the transport will
    settle. *)
Definition Orphan (p : nat) (s : State) : Prop :=
  promises s !! p = Some Pending /\ p ∉ live s.

End RequestQueue.

(** * Invariants of the request queue *)

Module QueueInvariants.

Import RequestQueue.

Local Open Scope list_scope.

(** The counter [pending] counts the calls of the transport that have not
    settled. *)
Definition Counted (s : State) : Prop :=
  pending s = Z.of_nat (length (inflight s)).

(** The flag [timing] says whether a timeout is armed; there is one at
    most, and its delay is positive. *)
Definition OneTimer (s : State) : Prop :=
  (timing s = false /\ timers s = [])
  \/ (timing s = true /\ exists delay, timers s = [delay] /\ (0 < delay)%Q).

(** The promises are numbered in the order of the calls of [request]: the
    queue holds its tasks in that order, behind every task that was sent. *)
Definition Fifo (s : State) : Prop :=
  let waiting := promise <$> queue s in
  let sent := promise <$> (inflight s).*2 in
  StronglySorted lt waiting
  /\ (forall q, q ∈ waiting -> q < length (promises s))
  /\ (forall p, p ∈ sent -> p < length (promises s))
  /\ (forall p q, p ∈ sent -> q ∈ waiting -> p < q).

Definition is_start (ev : Event) : bool :=
  match ev with Start _ => true | _ => false end.

(** The tasks [n] turns of the loop of [processQueue] send. *)
Definition batch (n : nat) (s : State) : list Task := take n (queue s).

End QueueInvariants.

(** * The cached transport ([ponderTransport]) *)

Module Transport.

Local Open Scope list_scope.

(** The block of a request: a hex number, or ["latest"]. *)
Inductive BlockNumber : Type :=
  | Latest
  | Hex (hex : string).

(** [{ method, params }], with the parameters the transport reads of the
    four methods it caches. *)
Inductive Body : Type :=
  | eth_call (data to : string) (blockNumber : BlockNumber)
  | eth_getBalance (address : string) (blockNumber : BlockNumber)
  | eth_getCode (address : string) (blockNumber : BlockNumber)
  | eth_getStorageAt (address slot : string) (blockNumber : BlockNumber)
  | other (name : string) (params : list string).

Definition method (body : Body) : string :=
  match body with
  | eth_call _ _ _ => "eth_call"
  | eth_getBalance _ _ => "eth_getBalance"
  | eth_getCode _ _ => "eth_getCode"
  | eth_getStorageAt _ _ _ => "eth_getStorageAt"
  | other name _ => name
  end.

Definition cachedMethods : list string :=
  ["eth_call"; "eth_getBalance"; "eth_getCode"; "eth_getStorageAt"].

Definition maxUint256 : Z := 2 ^ 256 - 1.

(** Modelled from the spec: [toLowerCase] of [@/utils/lowercase.js] puts
    the hex string in lower case. *)
Definition toLowerCase (s : string) : string := lower s.

(** The request string and the block of a cached method; [None] stands for
    the two variables left [undefined]. *)
Definition request_of (body : Body) : option (string * BlockNumber) :=
  match body with
  | eth_call data to blockNumber =>
      Some (method body +:+ "_" +:+ toLowerCase to +:+ "_" +:+ toLowerCase data,
            blockNumber)
  | eth_getBalance address blockNumber =>
      Some (method body +:+ "_" +:+ toLowerCase address, blockNumber)
  | eth_getCode address blockNumber =>
      Some (method body +:+ "_" +:+ toLowerCase address, blockNumber)
  | eth_getStorageAt address slot blockNumber =>
      Some (method body +:+ "_" +:+ toLowerCase address +:+ "_"
              +:+ toLowerCase slot,
            blockNumber)
  | other _ _ => None
  end.

(** The errors of a request: the one of the network, surfaced as it is, or
    an exception of the transport itself. *)
Inductive RequestError : Type :=
  | RpcError (e : string)
  | Thrown.

(** Modelled from the spec: the sync store keeps the results in a table
    with the primary key (chainId, blockNumber, request);
    [insertRpcRequestResult] replaces the result of a key it already has.
    [sent] are the bodies handed to [network.request], in order. *)
Record CacheState : Type := {
  rpcRequestResults : gmap (Z * Z * string) string;
  sent : list Body
}.

Definition getRpcRequestResult (key : Z * Z * string) (s : CacheState)
  : option string :=
  rpcRequestResults s !! key.

Definition insertRpcRequestResult (key : Z * Z * string) (result : string)
    (s : CacheState) : CacheState :=
  {| rpcRequestResults := <[key := result]> (rpcRequestResults s);
     sent := sent s |}.

Section Request.

(** [hexToBigInt] of viem is not part of the sources ([None]: it throws);
    neither is the network, which answers the [n]-th request it gets with
    an error or a response. *)
Variable hexToBigInt : string -> option Z.
Variable network : nat -> Body -> string + string.

Definition network_request (body : Body) (s : CacheState)
  : CacheState * (RequestError + string) :=
  ({| rpcRequestResults := rpcRequestResults s; sent := sent s ++ [body] |},
   match network (length (sent s)) body with
   | inl e => inl (RpcError e)
   | inr response => inr response
   end).

Definition blockNumberBigInt (blockNumber : BlockNumber) : option Z :=
  match blockNumber with
  | Latest => Some maxUint256
  | Hex hex => hexToBigInt hex
  end.

(** The key of the cache for a body of a cached method. *)
Definition cache_key (chainId : Z) (body : Body) : option (Z * Z * string) :=
  match request_of body with
  | None => None
  | Some (request, blockNumber) =>
      match blockNumberBigInt blockNumber with
      | None => None
      | Some n => Some (chainId, n, request)
      end
  end.

(** [request({ method, params })] of the transport, for the chain
    [chainId]. *)
Definition request (chainId : Z) (body : Body) (s : CacheState)
  : CacheState * (RequestError + string) :=
  if bool_decide (method body ∈ cachedMethods) then
    match cache_key chainId body with
    | None => (s, inl Thrown)
    | Some key =>
        let cachedResult := getRpcRequestResult key s in
        match cachedResult with
        | Some (String c r) => (s, inr (String c r))
        | _ =>
            match network_request body s with
            | (s1, inl e) => (s1, inl e)
            | (s1, inr response) =>
                (insertRpcRequestResult key response s1, inr response)
            end
        end
    end
  else network_request body s.

End Request.

(** A reading of hex numbers for the examples: the digits after ["0x"]. *)
Definition hex_digit (c : ascii) : option Z :=
  let n := Z.of_nat (nat_of_ascii c) in
  if (48 <=? n)%Z && (n <=? 57)%Z then Some (n - 48)%Z
  else if (97 <=? n)%Z && (n <=? 102)%Z then Some (n - 87)%Z
  else if (65 <=? n)%Z && (n <=? 70)%Z then Some (n - 55)%Z
  else None.

Fixpoint hex_digits (acc : Z) (s : string) : option Z :=
  match s with
  | EmptyString => Some acc
  | String c s' =>
      match hex_digit c with
      | Some d => hex_digits (16 * acc + d) s'
      | None => None
      end
  end.

Definition hex_number (s : string) : option Z :=
  match s with
  | String "0" (String "x" (String c s')) => hex_digits 0 (String c s')
  | _ => None
  end.

Definition empty : CacheState := {| rpcRequestResults := ∅; sent := [] |}.

End Transport.

(** * Properties *)

Local Open Scope list_scope.

(** ** Strings *)

Lemma string_compare_refl (a : string) : String.compare a a = Eq.
Proof.
  pose proof (String.compare_antisym a a) as H.
  destruct (String.compare a a); simpl in H; congruence.
Qed.

Lemma string_lt_irrefl (a : string) : string_lt a a = false.
Proof. unfold string_lt. by rewrite string_compare_refl. Qed.

Lemma string_lt_ne (a b : string) : string_lt a b = true -> a <> b.
Proof. intros H ->. by rewrite string_lt_irrefl in H. Qed.

Lemma string_lt_not_le (a b : string) : string_lt a b = true -> string_le b a = false.
Proof.
  unfold string_lt, string_le. rewrite (String.compare_antisym a b).
  destruct (String.compare b a); simpl; congruence.
Qed.

Lemma string_lt_asym (a b : string) : string_lt a b = true -> string_lt b a = false.
Proof.
  unfold string_lt. rewrite (String.compare_antisym a b).
  destruct (String.compare b a); simpl; congruence.
Qed.

Lemma string_le_refl (a : string) : string_le a a = true.
Proof. unfold string_le. by rewrite string_compare_refl. Qed.

Lemma lower_ascii_meta (c : ascii) : like_meta (lower_ascii c) = like_meta c.
Proof.
  destruct c as [[] [] [] [] [] [] [] []]; reflexivity.
Qed.

Lemma like_plain_lower (p : string) : like_plain (lower p) = like_plain p.
Proof.
  induction p as [|c p IH]; simpl; [reflexivity|].
  by rewrite lower_ascii_meta, IH.
Qed.

(** Without [%], [_] and backslash, [LIKE] is equality. *)
Lemma like_plain_eqb (p s : string) :
  like_plain p = true -> like p s = String.eqb p s.
Proof.
  revert s. induction p as [|c p IH]; intros s Hp; simpl in *.
  - by destruct s.
  - apply andb_prop in Hp as [Hc Hp]. unfold like_meta in Hc.
    apply negb_true_iff in Hc.
    apply orb_false_elim in Hc as [Hc Hc3].
    apply orb_false_elim in Hc as [Hc1 Hc2].
    rewrite Hc1, Hc2, Hc3.
    destruct s as [|d s]; [reflexivity|].
    rewrite IH by assumption. reflexivity.
Qed.

Lemma ilike_plain (p s : string) :
  like_plain p = true -> ilike p s = String.eqb (lower p) (lower s).
Proof.
  intros Hp. unfold ilike. apply like_plain_eqb. by rewrite like_plain_lower.
Qed.

Lemma hex_digit_plain (c : ascii) : is_hex_digit c = true -> like_meta c = false.
Proof.
  destruct c as [[] [] [] [] [] [] [] []]; vm_compute; congruence.
Qed.

Lemma all_hex_plain (s : string) : all_hex s = true -> like_plain s = true.
Proof.
  induction s as [|c s IH]; simpl; [reflexivity|].
  intros [Hc Hs]%andb_prop. by rewrite (hex_digit_plain c Hc), IH.
Qed.

(** A [Hex] value has no [LIKE] metacharacter. *)
Lemma is_hex_plain (s : string) : is_hex s = true -> like_plain s = true.
Proof.
  destruct s as [|a s]; [discriminate|].
  destruct s as [|b s];
    [destruct a as [[] [] [] [] [] [] [] []]; discriminate|].
  destruct a as [[] [] [] [] [] [] [] []]; try discriminate.
  destruct b as [[] [] [] [] [] [] [] []]; try discriminate.
  intros H. change (like_plain s = true). by apply all_hex_plain.
Qed.

(** ** Rows and cells *)

Lemma cell_insert_eq (r : Row) k v : cell (<[k := v]> r) k = v.
Proof. unfold cell. by rewrite lookup_insert_eq. Qed.

Lemma cell_insert_ne (r : Row) k k' v : k <> k' -> cell (<[k := v]> r) k' = cell r k'.
Proof. intros H. unfold cell. by rewrite lookup_insert_ne. Qed.

Lemma cell_fill cols (r : Row) k : cell (fill cols r) k = cell r k.
Proof.
  unfold cell, fill. rewrite lookup_union, lookup_fmap.
  by destruct (r !! k), (cols !! k).
Qed.

Lemma cell_union_l (a b : Row) k v : a !! k = Some v -> cell (a ∪ b) k = v.
Proof. intros H. unfold cell. by rewrite (lookup_union_Some_l a b k v H). Qed.

Lemma cell_union_r (a b : Row) k : a !! k = None -> cell (a ∪ b) k = cell b k.
Proof. intros H. unfold cell. by rewrite lookup_union_r. Qed.

Lemma cell_singleton_union_eq (b : Row) k v : cell ({[k := v]} ∪ b) k = v.
Proof. apply cell_union_l, lookup_singleton_eq. Qed.

Lemma cell_singleton_union_ne (b : Row) k k' v :
  k <> k' -> cell ({[k := v]} ∪ b) k' = cell b k'.
Proof. intros H. apply cell_union_r. by rewrite lookup_singleton_ne. Qed.

Lemma format_id (id : Id) : formatColumnValue (id_value id) = id_value id.
Proof. by destruct id. Qed.

Lemma formatRow_id (data : Row) (id : Id) :
  data !! "id" = None ->
  formatRow (data ∪ {["id" := id_value id]}) !! "id" = Some (id_value id).
Proof.
  intros H. unfold formatRow. rewrite lookup_fmap, lookup_union_r by done.
  rewrite lookup_singleton_eq. simpl. by rewrite format_id.
Qed.

Lemma formatRow_other (data : Row) (id : Id) k :
  k <> "id" ->
  formatRow (data ∪ {["id" := id_value id]}) !! k = formatColumnValue <$> data !! k.
Proof.
  intros H. unfold formatRow. rewrite lookup_fmap, lookup_union.
  rewrite lookup_singleton_ne by done. by destruct (data !! k).
Qed.

Lemma cell_new_version_to e (r : Row) :
  cell (new_version e r) "effectiveToCheckpoint" = latest.
Proof. unfold new_version. apply cell_insert_eq. Qed.

Lemma cell_new_version_from e (r : Row) :
  cell (new_version e r) "effectiveFromCheckpoint" = VText e.
Proof.
  unfold new_version. rewrite cell_insert_ne by done. apply cell_insert_eq.
Qed.

Lemma cell_new_version_other e (r : Row) k :
  k <> "effectiveToCheckpoint" -> k <> "effectiveFromCheckpoint" ->
  cell (new_version e r) k = cell r k.
Proof.
  intros H1 H2. unfold new_version. by rewrite !cell_insert_ne by done.
Qed.

(** ** Constraints *)

Lemma check_row_None cols (r : Row) :
  check_row cols r = None <->
  (forall k, is_Some (r !! k) -> is_Some (cols !! k))
  /\ (forall k d, cols !! k = Some d -> column_accepts d (cell r k) = true).
Proof.
  unfold check_row.
  destruct (forallb _ (map_to_list r)) eqn:E1; simpl.
  - rewrite forallb_forall in E1.
    destruct (forallb _ (map_to_list cols)) eqn:E2.
    + rewrite forallb_forall in E2. split; [intros _|done]. split.
      * intros k [v Hv].
        specialize (E1 (k, v)). simpl in E1.
        eapply bool_decide_eq_true_1, E1.
        apply list_elem_of_In, elem_of_map_to_list, Hv.
      * intros k d Hd. apply (E2 (k, d)).
        by apply list_elem_of_In, elem_of_map_to_list.
    + split; [done|]. intros [_ H]. exfalso.
      apply not_true_iff_false in E2. apply E2, forallb_forall.
      intros [k d] Hin. apply H.
      by apply list_elem_of_In, elem_of_map_to_list in Hin.
  - split; [done|]. intros [H _]. exfalso.
    apply not_true_iff_false in E1. apply E1, forallb_forall.
    intros [k v] Hin. simpl. apply bool_decide_eq_true_2, H.
    apply list_elem_of_In, elem_of_map_to_list in Hin. by exists v.
Qed.

Lemma check_row_fill cols (r : Row) :
  check_row cols r = None -> check_row cols (fill cols r) = None.
Proof.
  rewrite !check_row_None. intros [H1 H2]. split.
  - intros k [v Hv]. unfold fill in Hv.
    apply lookup_union_Some_raw in Hv as [Hv|[_ Hv]]; [by apply H1; exists v|].
    rewrite lookup_fmap in Hv. destruct (cols !! k); [by eexists|done].
  - intros k d Hd. rewrite cell_fill. by apply H2.
Qed.

(** Overwriting columns with accepted values keeps a row acceptable. *)
Lemma check_row_union cols (values r : Row) :
  check_row cols r = None ->
  (forall k v, values !! k = Some v ->
     exists d, cols !! k = Some d /\ column_accepts d v = true) ->
  check_row cols (values ∪ r) = None.
Proof.
  rewrite !check_row_None. intros [H1 H2] Hv. split.
  - intros k [v Hk].
    apply lookup_union_Some_raw in Hk as [Hk|[_ Hk]].
    + destruct (Hv k v Hk) as (d & Hd & _). by exists d.
    + apply H1. by exists v.
  - intros k d Hd. destruct (values !! k) as [v|] eqn:E.
    + rewrite (cell_union_l _ _ _ _ E).
      destruct (Hv k v E) as (d' & Hd' & Hacc). congruence.
    + rewrite cell_union_r by done. by apply H2.
Qed.

Lemma check_rows_nil cols : check_rows cols [] = None.
Proof. reflexivity. Qed.

Lemma check_rows_singleton cols (r : Row) : check_rows cols [r] = check_row cols r.
Proof.
  unfold check_rows. simpl. by destruct (check_row cols r).
Qed.

Lemma check_rows_None cols (rs : list Row) :
  Forall (fun r => check_row cols r = None) rs -> check_rows cols rs = None.
Proof.
  intros H. unfold check_rows.
  destruct (list_find _ _) as [[i o]|] eqn:E; [|reflexivity].
  apply list_find_Some in E as (Hi & Ho & _). simpl.
  apply list_lookup_fmap_Some in Hi as (r & -> & Hr).
  rewrite Forall_forall in H.
  rewrite H in Ho; [by destruct Ho|].
  eapply list_elem_of_lookup_2, Hr.
Qed.

(** ** Lists of rows *)

Lemma filter_none {A} (f : A -> bool) (l : list A) :
  List.filter f l = [] <-> (forall x, x ∈ l -> f x = false).
Proof.
  induction l as [|a l IH]; simpl.
  - split; [|done]. intros _ x Hx. by apply elem_of_nil in Hx.
  - destruct (f a) eqn:E.
    + split; [done|]. intros H. specialize (H a (list_elem_of_here _ _)). congruence.
    + rewrite IH. split.
      * intros H x [->|Hx]%elem_of_cons; auto.
      * intros H x Hx. apply H. by apply list_elem_of_further.
Qed.

Lemma filter_all {A} (f : A -> bool) (l : list A) :
  (forall x, x ∈ l -> f x = true) -> List.filter f l = l.
Proof.
  induction l as [|a l IH]; simpl; [done|]. intros H.
  rewrite (H a (list_elem_of_here _ _)). f_equal. apply IH.
  intros x Hx. apply H. by apply list_elem_of_further.
Qed.

Lemma map_unmatched {A} (f : A -> bool) (g : A -> A) (l : list A) :
  (forall x, x ∈ l -> f x = false) ->
  (fun r => if f r then g r else r) <$> l = l.
Proof.
  induction l as [|a l IH]; simpl; [done|]. intros H.
  rewrite (H a (list_elem_of_here _ _)). f_equal. apply IH.
  intros x Hx. apply H. by apply list_elem_of_further.
Qed.

Lemma matches_cons c conds (r : Row) :
  matches (c :: conds) r = eval_condition r c && matches conds r.
Proof. reflexivity. Qed.

(** A row that fails the first condition fails the whole clause. *)
Lemma matches_false_head c conds (r : Row) :
  eval_condition r c = false -> matches (c :: conds) r = false.
Proof. intros H. by rewrite matches_cons, H. Qed.

Lemma select_none_weaken c conds (rel : Relation) :
  select_rows [c] rel = [] -> select_rows (c :: conds) rel = [].
Proof.
  unfold select_rows. rewrite !filter_none. intros H x Hx.
  apply matches_false_head. specialize (H x Hx).
  rewrite matches_cons in H. by apply andb_false_iff in H as [H|H].
Qed.

(** ** The primary key *)

Lemma pk_unique_snoc pk (rows : list Row) (x : Row) :
  pk_unique pk rows = true ->
  (forall r, r ∈ rows -> pk_of pk r <> pk_of pk x) ->
  pk_unique pk (rows ++ [x]) = true.
Proof.
  unfold pk_unique. intros H Hx. apply bool_decide_eq_true_1 in H.
  apply bool_decide_eq_true_2. rewrite fmap_app. apply NoDup_app.
  split; [done|]. split.
  - intros k Hk Hk'. apply list_elem_of_fmap in Hk as (r & -> & Hr).
    apply list_elem_of_singleton in Hk'. by apply (Hx r Hr).
  - simpl. apply NoDup_singleton.
Qed.

Lemma pk_unique_app_inv pk (rows more : list Row) :
  pk_unique pk (rows ++ more) = true -> pk_unique pk rows = true.
Proof.
  unfold pk_unique. intros H. apply bool_decide_eq_true_1 in H.
  apply bool_decide_eq_true_2. rewrite fmap_app in H.
  by apply NoDup_app in H as [H _].
Qed.

(** ** Running statements *)

Lemma with_database_id (st : Store) : with_database st (database st) = st.
Proof. by destruct st. Qed.

Lemma statement_run {A} table (f : Relation -> Error + (Relation * A)) st rel :
  database st !! table = Some rel ->
  statement table f st =
    match f rel with
    | inl e => (st, inl e)
    | inr (rel', a) => (with_database st (<[table := rel']> (database st)), inr a)
    end.
Proof. intros H. unfold statement. by rewrite H. Qed.

Lemma selectFrom_run table conds st rel :
  database st !! table = Some rel ->
  selectFrom table conds st = (st, inr (select_rows conds rel)).
Proof.
  intros H. unfold selectFrom. rewrite (statement_run _ _ _ _ H).
  by rewrite insert_id, with_database_id.
Qed.

Lemma set_relation_lookup st tableName rel :
  database (set_relation st tableName rel) !! versioned tableName = Some rel.
Proof. unfold set_relation. simpl. apply lookup_insert_eq. Qed.

Lemma set_relation_schema st tableName rel :
  this_schema (set_relation st tableName rel) = this_schema st.
Proof. reflexivity. Qed.

Lemma set_relation_twice st tableName rel rel' :
  set_relation (set_relation st tableName rel) tableName rel'
  = set_relation st tableName rel'.
Proof. unfold set_relation, with_database. simpl. by rewrite insert_insert_eq. Qed.

Lemma set_relation_id st tableName rel :
  database st !! versioned tableName = Some rel ->
  set_relation st tableName rel = st.
Proof.
  intros H. unfold set_relation. by rewrite insert_id, with_database_id.
Qed.

Lemma insertInto_run tableName vals st rel :
  database st !! versioned tableName = Some rel ->
  check_rows (rel_columns rel) vals = None ->
  pk_unique (rel_primary_key rel)
    (rel_rows rel ++ (fill (rel_columns rel) <$> vals)) = true ->
  insertInto (versioned tableName) vals st
  = (set_relation st tableName
       (with_rows rel (rel_rows rel ++ (fill (rel_columns rel) <$> vals))),
     inr (fill (rel_columns rel) <$> vals)).
Proof.
  intros H Hc Hu. unfold insertInto. rewrite (statement_run _ _ _ _ H).
  unfold insert_rows. by rewrite Hc, Hu.
Qed.

Lemma updateTable_run tableName values conds st rel :
  database st !! versioned tableName = Some rel ->
  values <> ∅ ->
  check_rows (rel_columns rel)
    ((fun r => values ∪ r) <$> List.filter (matches conds) (rel_rows rel)) = None ->
  pk_unique (rel_primary_key rel)
    ((fun r => if matches conds r then values ∪ r else r) <$> rel_rows rel) = true ->
  updateTable (versioned tableName) values conds st
  = (set_relation st tableName
       (with_rows rel
          ((fun r => if matches conds r then values ∪ r else r) <$> rel_rows rel)),
     inr ((fun r => values ∪ r) <$> List.filter (matches conds) (rel_rows rel))).
Proof.
  intros H Hne Hc Hu. unfold updateTable. rewrite (statement_run _ _ _ _ H).
  unfold update_rows. rewrite bool_decide_eq_false_2 by done.
  by rewrite Hc, Hu.
Qed.

Lemma deleteFrom_run tableName conds st rel :
  database st !! versioned tableName = Some rel ->
  deleteFrom (versioned tableName) conds st
  = (set_relation st tableName
       (with_rows rel
          (List.filter (fun r => negb (matches conds r)) (rel_rows rel))),
     inr (List.filter (matches conds) (rel_rows rel))).
Proof.
  intros H. unfold deleteFrom. by rewrite (statement_run _ _ _ _ H).
Qed.

Lemma deserializeRowM_run tableName (row : Row) st :
  deserializeRowM tableName row st
  = match deserializeRow (this_schema st) tableName row with
    | Some r => (st, inr r)
    | None => (st, inl TypeError)
    end.
Proof.
  unfold deserializeRowM, bind, get_schema. simpl.
  by destruct (deserializeRow _ _ _).
Qed.

(** ** Tables set up by [reload] *)

Lemma build_table_inv schema_arg t rel0 :
  build_table schema_arg t = inr rel0 ->
  rel_primary_key rel0 = ["id"; "effectiveToCheckpoint"]
  /\ rel_rows rel0 = []
  /\ rel_columns rel0 !! "effectiveFromCheckpoint" = Some checkpoint_column
  /\ rel_columns rel0 !! "effectiveToCheckpoint" = Some checkpoint_column
  /\ table_columns t !! "effectiveFromCheckpoint" = None
  /\ table_columns t !! "effectiveToCheckpoint" = None.
Proof.
  unfold build_table. destruct (existsb _ _); [discriminate|].
  destruct (bool_decide (is_Some (table_columns t !! "effectiveFromCheckpoint")))
    eqn:E1; [discriminate|].
  destruct (bool_decide (is_Some (table_columns t !! "effectiveToCheckpoint")))
    eqn:E2; [discriminate|].
  simpl. intros [= <-]. simpl.
  apply bool_decide_eq_false_1 in E1, E2.
  rewrite <- eq_None_not_Some in E1, E2.
  rewrite lookup_insert_eq, lookup_insert_ne, lookup_insert_eq by done.
  done.
Qed.

Section TableFacts.

Context {st : Store} {tableName : string} {t : Table} {rel : Relation}.
Hypothesis TS : TableState st tableName t rel.

Lemma ts_the_schema :
  exists s, this_schema st = Some s /\ tables s !! tableName = Some t.
Proof.
  pose proof (ts_schema _ _ _ _ TS) as H.
  destruct (this_schema st) as [s|]; [|discriminate]. by exists s.
Qed.

Lemma ts_primary_key : rel_primary_key rel = ["id"; "effectiveToCheckpoint"].
Proof.
  destruct (ts_built _ _ _ _ TS) as (a & rel0 & Hb & _ & Hpk).
  rewrite Hpk. by apply build_table_inv in Hb as (? & _).
Qed.

Lemma ts_from_column :
  rel_columns rel !! "effectiveFromCheckpoint" = Some checkpoint_column.
Proof.
  destruct (ts_built _ _ _ _ TS) as (a & rel0 & Hb & Hc & _).
  rewrite Hc. by apply build_table_inv in Hb as (_ & _ & ? & _).
Qed.

Lemma ts_to_column :
  rel_columns rel !! "effectiveToCheckpoint" = Some checkpoint_column.
Proof.
  destruct (ts_built _ _ _ _ TS) as (a & rel0 & Hb & Hc & _).
  rewrite Hc. by apply build_table_inv in Hb as (_ & _ & _ & ? & _).
Qed.

Lemma ts_no_from : table_columns t !! "effectiveFromCheckpoint" = None.
Proof.
  destruct (ts_built _ _ _ _ TS) as (a & rel0 & Hb & _).
  by apply build_table_inv in Hb as (_ & _ & _ & _ & ? & _).
Qed.

Lemma ts_no_to : table_columns t !! "effectiveToCheckpoint" = None.
Proof.
  destruct (ts_built _ _ _ _ TS) as (a & rel0 & Hb & _).
  by apply build_table_inv in Hb as (_ & _ & _ & _ & _ & ?).
Qed.

Lemma ts_comparator :
  idColumnComparator tableName (this_schema st)
  = if bool_decide (id_type t = TBytes) then OpIlike else OpEq.
Proof.
  unfold idColumnComparator. by rewrite (ts_schema _ _ _ _ TS).
Qed.

Lemma ts_rows_ok r : r ∈ rel_rows rel -> check_row (rel_columns rel) r = None.
Proof.
  intros Hr. pose proof (ts_rows _ _ _ _ TS) as H.
  rewrite forallb_forall in H. apply list_elem_of_In in Hr.
  specialize (H r Hr). by apply bool_decide_eq_true_1 in H.
Qed.

(** The state of the table after its rows have been replaced. *)
Lemma ts_set_rows rows :
  pk_unique (rel_primary_key rel) rows = true ->
  (forall r, r ∈ rows -> check_row (rel_columns rel) r = None) ->
  TableState (set_relation st tableName (with_rows rel rows)) tableName t
    (with_rows rel rows).
Proof.
  intros Hu Hr. split; simpl.
  - apply (ts_schema _ _ _ _ TS).
  - apply lookup_insert_eq.
  - apply (ts_built _ _ _ _ TS).
  - exact Hu.
  - apply forallb_forall. intros r Hin. apply bool_decide_eq_true_2, Hr.
    by apply list_elem_of_In.
Qed.

(** What [deserializeRow] returns depends on the declared columns only. *)
Lemma deserializeRow_ext (r r' : Row) :
  (forall k, is_Some (table_columns t !! k) -> cell r k = cell r' k) ->
  deserializeRow (this_schema st) tableName r
  = deserializeRow (this_schema st) tableName r'.
Proof.
  intros H. destruct ts_the_schema as (s & Hs & Ht).
  unfold deserializeRow. rewrite Hs, Ht. f_equal.
  apply map_eq. intros k. rewrite !map_lookup_imap.
  destruct (table_columns t !! k) as [c|] eqn:E; [simpl|done].
  rewrite H; [done|by exists c].
Qed.

Lemma deserializeRow_total (r : Row) :
  is_Some (deserializeRow (this_schema st) tableName r).
Proof.
  destruct ts_the_schema as (s & Hs & Ht).
  unfold deserializeRow. rewrite Hs, Ht. by eexists.
Qed.

End TableFacts.

(** ** Comparing ids *)

Lemma compare_id_self op (id : Id) :
  op = OpEq \/ op = OpIlike ->
  id_wf op id = true ->
  compare_values op (id_value id) (id_value id) = true.
Proof.
  intros [-> | ->] Hwf; destruct id as [s|n]; simpl in *; try discriminate.
  - apply String.eqb_refl.
  - apply Z.eqb_refl.
  - rewrite ilike_plain by done. apply String.eqb_refl.
Qed.

Lemma comparator_cases tableName schema :
  idColumnComparator tableName schema = OpEq
  \/ idColumnComparator tableName schema = OpIlike.
Proof.
  unfold idColumnComparator. destruct (schema ≫= _) as [t|]; [|by left].
  destruct (bool_decide _); [by right|by left].
Qed.

Lemma eval_id_condition st tableName id (r : Row) :
  eval_condition r (id_condition st tableName id)
  = compare_values (idColumnComparator tableName (this_schema st))
      (cell r "id") (id_value id).
Proof. unfold id_condition. simpl. by rewrite format_id. Qed.

(** A row of another id than every stored version. *)
Lemma no_version_other_id st tableName id rel r :
  id_wf (idColumnComparator tableName (this_schema st)) id = true ->
  versions_of st tableName id rel = [] ->
  r ∈ rel_rows rel -> cell r "id" <> id_value id.
Proof.
  intros Hwf Hnone Hr Heq. unfold versions_of, select_rows in Hnone.
  rewrite filter_none in Hnone. specialize (Hnone r Hr).
  rewrite matches_cons, eval_id_condition, Heq in Hnone.
  rewrite compare_id_self in Hnone; [done| |done].
  apply comparator_cases.
Qed.

(** ** The store methods on one table *)

Lemma bind_run {A B} (m : M A) (k : A -> M B) st st' a :
  m st = (st', inr a) -> bind m k st = k a st'.
Proof. intros H. unfold bind. by rewrite H. Qed.

Lemma bind_throw {A B} (m : M A) (k : A -> M B) st st' e :
  m st = (st', inl e) -> bind m k st = (st', inl e).
Proof. intros H. unfold bind. by rewrite H. Qed.

Lemma transaction_run {A} (body : M A) st st' a :
  body st = (st', inr a) -> transaction body st = (st', inr a).
Proof. intros H. unfold transaction. by rewrite H. Qed.

(** A transaction whose body throws leaves the store as it was. *)
Lemma transaction_throw {A} (body : M A) st st' e :
  body st = (st', inl e) -> this_schema st' = this_schema st ->
  transaction body st = (st, inl e).
Proof.
  intros H Hs. unfold transaction. rewrite H. f_equal.
  destruct st, st'. simpl in *. by subst.
Qed.

Section MethodFacts.

Context {Checkpoint : Type}.
Variable encodeCheckpoint : Checkpoint -> string.

Lemma create_run st tableName t rel (c : Checkpoint) (id : Id) (data : Row) :
  TableState st tableName t rel ->
  id_wf (idColumnComparator tableName (this_schema st)) id = true ->
  versions_of st tableName id rel = [] ->
  data !! "id" = None ->
  accepts rel (new_version (encodeCheckpoint c)
                 (formatRow (data ∪ {["id" := id_value id]}))) ->
  let v := fill (rel_columns rel)
             (new_version (encodeCheckpoint c)
                (formatRow (data ∪ {["id" := id_value id]}))) in
  exists r,
    create encodeCheckpoint tableName c id data st
    = (set_relation st tableName (with_rows rel (rel_rows rel ++ [v])), inr r)
    /\ deserializeRow (this_schema st) tableName v = Some r
    /\ TableState (set_relation st tableName (with_rows rel (rel_rows rel ++ [v])))
         tableName t (with_rows rel (rel_rows rel ++ [v])).
Proof.
  intros TS Hwf Hnone Hid Hacc v.
  assert (Hpk : pk_unique (rel_primary_key rel) (rel_rows rel ++ [v]) = true).
  { apply pk_unique_snoc; [apply (ts_unique _ _ _ _ TS)|].
    intros r Hr Heq. rewrite (ts_primary_key TS) in Heq. simpl in Heq.
    injection Heq as Heq _.
    apply (no_version_other_id _ _ _ _ _ Hwf Hnone Hr).
    rewrite Heq. unfold v. rewrite cell_fill, cell_new_version_other by done.
    unfold cell. by rewrite formatRow_id. }
  destruct (deserializeRow_total TS v) as [r Hr].
  exists r. split; [|split; [done|]].
  - unfold create, executeTakeFirstOrThrow, bind.
    rewrite (insertInto_run _ _ _ _ (ts_relation _ _ _ _ TS)); simpl.
    + rewrite deserializeRowM_run. simpl. fold v. by rewrite Hr.
    + by rewrite check_rows_singleton.
    + exact Hpk.
  - apply (ts_set_rows TS); [done|].
    intros x [Hx|Hx]%elem_of_app; [by apply (ts_rows_ok TS)|].
    apply list_elem_of_singleton in Hx as ->. by apply check_row_fill.
Qed.

Lemma update_row_run st tableName t rel (id : Id) (data : UpdateData) (w cur : Row) :
  TableState st tableName t rel ->
  deserializeRow (this_schema st) tableName w = Some cur ->
  update_row tableName id data w st
  = (st, inr (formatRow (the_patch data cur ∪ {["id" := id_value id]}))).
Proof.
  intros TS Hcur. destruct data as [d|fn]; simpl; [done|].
  unfold bind. rewrite deserializeRowM_run, Hcur. done.
Qed.

(** The rows [update] leaves when the only version of [id] is the current
    one [w], which starts before the checkpoint of the update. *)
Lemma write_version_branch st tableName t rel (id : Id) pre (w updateRow : Row) e0 e :
  TableState st tableName t rel ->
  id_wf (idColumnComparator tableName (this_schema st)) id = true ->
  rel_rows rel = pre ++ [w] ->
  versions_of st tableName id (with_rows rel pre) = [] ->
  cell w "id" = id_value id ->
  cell w "effectiveToCheckpoint" = latest ->
  cell w "effectiveFromCheckpoint" = VText e0 ->
  string_lt e0 e = true ->
  e <> "latest" ->
  updateRow !! "id" = Some (id_value id) ->
  accepts rel (new_version e (updateRow ∪ w)) ->
  let w' := {["effectiveToCheckpoint" := VText e]} ∪ w in
  let v := fill (rel_columns rel) (new_version e (updateRow ∪ w)) in
  let rel' := with_rows rel (pre ++ [w'; v]) in
  write_version tableName e (formatColumnValue (id_value id)) w updateRow st
  = (set_relation st tableName rel', inr v)
  /\ TableState (set_relation st tableName rel') tableName t rel'.
Proof.
  intros TS Hwf Hrows Hnone Hid Hto Hfrom Hlt Hne Hup Hacc w' v rel'.
  pose proof (ts_relation _ _ _ _ TS) as Hrel.
  pose proof (ts_unique _ _ _ _ TS) as Hu. rewrite Hrows in Hu.
  assert (Hpre : forall r, r ∈ pre -> cell r "id" <> id_value id).
  { intros r Hr. by apply (no_version_other_id st tableName id (with_rows rel pre)). }
  assert (Hpre_m : forall conds r, r ∈ pre ->
            matches (id_condition st tableName id :: conds) r = false).
  { intros conds r Hr. apply matches_false_head.
    unfold versions_of, select_rows in Hnone. rewrite filter_none in Hnone.
    specialize (Hnone r Hr). rewrite matches_cons in Hnone.
    by apply andb_false_iff in Hnone as [H|H]. }
  assert (Hw_m : matches [id_condition st tableName id;
                          Where "effectiveToCheckpoint" OpEq latest] w = true).
  { rewrite !matches_cons, eval_id_condition, Hid. simpl.
    rewrite compare_id_self; [|apply comparator_cases|done].
    unfold eval_atom. rewrite Hto. simpl. done. }
  assert (Hlen : column_accepts checkpoint_column (VText e) = true).
  { unfold accepts in Hacc. apply check_row_None in Hacc as [_ Hacc].
    specialize (Hacc _ _ (ts_from_column TS)).
    by rewrite cell_new_version_from in Hacc. }
  assert (Hw'ok : check_row (rel_columns rel) w' = None).
  { apply check_row_union.
    - apply (ts_rows_ok TS). rewrite Hrows. apply elem_of_app. right.
      by apply list_elem_of_singleton.
    - intros k x Hk. apply lookup_singleton_Some in Hk as [<- <-].
      exists checkpoint_column. split; [apply (ts_to_column TS)|done]. }
  assert (Hw'id : cell w' "id" = id_value id).
  { unfold w'. by rewrite cell_singleton_union_ne. }
  assert (Hu1 : pk_unique (rel_primary_key rel) (pre ++ [w']) = true).
  { apply pk_unique_snoc; [by apply pk_unique_app_inv in Hu|].
    intros r Hr Heq. rewrite (ts_primary_key TS) in Heq. simpl in Heq.
    injection Heq as Heq _. apply (Hpre r Hr). congruence. }
  assert (Hvid : cell v "id" = id_value id).
  { unfold v. rewrite cell_fill, cell_new_version_other by done.
    by apply cell_union_l. }
  assert (Hu2 : pk_unique (rel_primary_key rel) ((pre ++ [w']) ++ [v]) = true).
  { apply pk_unique_snoc; [done|].
    intros r Hr Heq. rewrite (ts_primary_key TS) in Heq. simpl in Heq.
    injection Heq as Heq1 Heq2.
    apply elem_of_app in Hr as [Hr|Hr].
    - apply (Hpre r Hr). congruence.
    - apply list_elem_of_singleton in Hr as ->.
      unfold v, w' in Heq2.
      rewrite cell_fill, cell_new_version_to, cell_singleton_union_eq in Heq2.
      unfold latest in Heq2. congruence. }
  unfold write_version.
  rewrite Hfrom. simpl. rewrite (string_lt_asym _ _ Hlt).
  unfold js_eq. rewrite bool_decide_eq_false_2
    by (intros [= ->]; by rewrite string_lt_irrefl in Hlt).
  unfold bind at 1. unfold get_schema at 1. simpl.
  fold (id_condition st tableName id).
  assert (Hmap : (fun r => if matches [id_condition st tableName id;
                                       Where "effectiveToCheckpoint" OpEq latest] r
                           then {["effectiveToCheckpoint" := VText e]} ∪ r else r)
                   <$> rel_rows rel = pre ++ [w']).
  { rewrite Hrows, fmap_app. cbn [fmap list_fmap]. rewrite Hw_m.
    rewrite map_unmatched by (intros; by apply Hpre_m). done. }
  assert (Hfil : List.filter (matches [id_condition st tableName id;
                                Where "effectiveToCheckpoint" OpEq latest])
                   (rel_rows rel) = [w]).
  { rewrite Hrows, List.filter_app. cbn [List.filter]. rewrite Hw_m.
    rewrite (proj2 (filter_none _ pre)) by (intros; by apply Hpre_m). done. }
  erewrite bind_run; cycle 1.
  { apply (updateTable_run _ _ _ _ _ Hrel).
    - apply insert_non_empty.
    - rewrite Hfil. simpl. by rewrite check_rows_singleton.
    - by rewrite Hmap. }
  rewrite Hmap. split.
  - unfold executeTakeFirstOrThrow.
    erewrite bind_run; cycle 1.
    { apply insertInto_run.
      - apply set_relation_lookup.
      - simpl. by rewrite check_rows_singleton.
      - simpl. exact Hu2. }
    simpl. rewrite set_relation_twice. unfold rel'.
    by rewrite <- app_assoc.
  - unfold rel'. apply (ts_set_rows TS).
    + rewrite <- app_assoc in Hu2. exact Hu2.
    + intros x [Hx|Hx]%elem_of_app.
      * apply (ts_rows_ok TS). rewrite Hrows. apply elem_of_app. by left.
      * apply elem_of_cons in Hx as [->|Hx]; [done|].
        apply list_elem_of_singleton in Hx as ->. by apply check_row_fill.
Qed.

(** The rows [update] leaves when the only version of [id] is the current
    one [w], which starts at the checkpoint of the update. *)
Lemma write_version_squash st tableName t rel (id : Id) pre (w updateRow : Row) e :
  TableState st tableName t rel ->
  id_wf (idColumnComparator tableName (this_schema st)) id = true ->
  rel_rows rel = pre ++ [w] ->
  versions_of st tableName id (with_rows rel pre) = [] ->
  cell w "id" = id_value id ->
  cell w "effectiveToCheckpoint" = latest ->
  cell w "effectiveFromCheckpoint" = VText e ->
  updateRow !! "id" = Some (id_value id) ->
  updateRow !! "effectiveToCheckpoint" = None ->
  accepts rel (updateRow ∪ w) ->
  let rel' := with_rows rel (pre ++ [updateRow ∪ w]) in
  write_version tableName e (formatColumnValue (id_value id)) w updateRow st
  = (set_relation st tableName rel', inr (updateRow ∪ w))
  /\ TableState (set_relation st tableName rel') tableName t rel'.
Proof.
  intros TS Hwf Hrows Hnone Hid Hto Hfrom Hup Hupto Hacc rel'.
  pose proof (ts_relation _ _ _ _ TS) as Hrel.
  pose proof (ts_unique _ _ _ _ TS) as Hu. rewrite Hrows in Hu.
  assert (Hpre : forall r, r ∈ pre -> cell r "id" <> id_value id).
  { intros r Hr. by apply (no_version_other_id st tableName id (with_rows rel pre)). }
  assert (Hpre_m : forall conds r, r ∈ pre ->
            matches (id_condition st tableName id :: conds) r = false).
  { intros conds r Hr. apply matches_false_head.
    unfold versions_of, select_rows in Hnone. rewrite filter_none in Hnone.
    specialize (Hnone r Hr). rewrite matches_cons in Hnone.
    by apply andb_false_iff in Hnone as [H|H]. }
  assert (Hw_m : matches [id_condition st tableName id;
                          Where "effectiveFromCheckpoint" OpEq (VText e)] w = true).
  { rewrite !matches_cons, eval_id_condition, Hid. simpl.
    rewrite compare_id_self; [|apply comparator_cases|done].
    unfold eval_atom. rewrite Hfrom. simpl. by rewrite String.eqb_refl. }
  assert (Hu1 : pk_unique (rel_primary_key rel) (pre ++ [updateRow ∪ w]) = true).
  { apply pk_unique_snoc; [by apply pk_unique_app_inv in Hu|].
    intros r Hr Heq. rewrite (ts_primary_key TS) in Heq. simpl in Heq.
    injection Heq as Heq _. apply (Hpre r Hr).
    by rewrite Heq, (cell_union_l _ _ _ _ Hup). }
  unfold write_version.
  rewrite Hfrom. simpl. rewrite string_lt_irrefl.
  unfold js_eq. rewrite bool_decide_eq_true_2 by done.
  unfold bind at 1. unfold get_schema at 1. simpl.
  fold (id_condition st tableName id).
  assert (Hmap : (fun r => if matches [id_condition st tableName id;
                                Where "effectiveFromCheckpoint" OpEq (VText e)] r
                           then updateRow ∪ r else r)
                   <$> rel_rows rel = pre ++ [updateRow ∪ w]).
  { rewrite Hrows, fmap_app. cbn [fmap list_fmap]. rewrite Hw_m.
    rewrite map_unmatched by (intros; by apply Hpre_m). done. }
  assert (Hfil : List.filter (matches [id_condition st tableName id;
                                Where "effectiveFromCheckpoint" OpEq (VText e)])
                   (rel_rows rel) = [w]).
  { rewrite Hrows, List.filter_app. cbn [List.filter]. rewrite Hw_m.
    rewrite (proj2 (filter_none _ pre)) by (intros; by apply Hpre_m). done. }
  split.
  - unfold executeTakeFirstOrThrow. erewrite bind_run; cycle 1.
    { apply (updateTable_run _ _ _ _ _ Hrel).
      - intros ->. by rewrite lookup_empty in Hup.
      - rewrite Hfil. simpl. by rewrite check_rows_singleton.
      - by rewrite Hmap. }
    rewrite Hmap, Hfil. done.
  - unfold rel'. apply (ts_set_rows TS); [done|].
    intros x [Hx|Hx]%elem_of_app.
    + apply (ts_rows_ok TS). rewrite Hrows. apply elem_of_app. by left.
    + by apply list_elem_of_singleton in Hx as ->.
Qed.

Lemma findUnique_run st tableName t rel (checkpoint : option Checkpoint) (id : Id) :
  TableState st tableName t rel ->
  findUnique encodeCheckpoint tableName checkpoint id st
  = (st, inr (head (select_rows (id_condition st tableName id
                                   :: checkpoint_conditions encodeCheckpoint checkpoint) rel)
                ≫= deserializeRow (this_schema st) tableName)).
Proof.
  intros TS. unfold findUnique, internalFindUnique.
  unfold bind at 1. unfold get_schema at 1. cbn beta iota.
  fold (id_condition st tableName id).
  unfold executeTakeFirst, bind.
  destruct checkpoint as [c|]; cbn [checkpoint_conditions app];
    rewrite (selectFrom_run _ _ _ _ (ts_relation _ _ _ _ TS));
    unfold ret; (destruct (head _) as [row|]; simpl; [|done]);
    rewrite deserializeRowM_run;
    destruct (deserializeRow_total TS row) as [r Hr]; by rewrite Hr.
Qed.

Lemma select_app_fresh st tableName id conds rel pre l :
  rel_rows rel = pre ++ l ->
  versions_of st tableName id (with_rows rel pre) = [] ->
  select_rows (id_condition st tableName id :: conds) rel
  = List.filter (matches (id_condition st tableName id :: conds)) l.
Proof.
  intros Hrows Hnone. unfold select_rows. rewrite Hrows, List.filter_app.
  rewrite (proj2 (filter_none _ pre)); [done|].
  intros r Hr. apply matches_false_head.
  unfold versions_of, select_rows in Hnone. rewrite filter_none in Hnone.
  specialize (Hnone r Hr). rewrite matches_cons in Hnone.
  by apply andb_false_iff in Hnone as [H|H].
Qed.

Lemma matches_own_id st tableName id conds (r : Row) :
  id_wf (idColumnComparator tableName (this_schema st)) id = true ->
  cell r "id" = id_value id ->
  matches (id_condition st tableName id :: conds) r = matches conds r.
Proof.
  intros Hwf Hid. rewrite matches_cons, eval_id_condition, Hid.
  rewrite compare_id_self; [done|apply comparator_cases|done].
Qed.

Lemma with_rows_rows rel rows : rel_rows (with_rows rel rows) = rows.
Proof. reflexivity. Qed.

Lemma with_rows_with_rows rel rows rows' :
  with_rows (with_rows rel rows) rows' = with_rows rel rows'.
Proof. reflexivity. Qed.


Lemma accepts_unfilled rel (r : Row) :
  accepts rel (fill (rel_columns rel) r) -> accepts rel r.
Proof.
  unfold accepts. rewrite !check_row_None. intros [H1 H2]. split.
  - intros k [x Hx]. apply H1. exists x. by apply lookup_union_Some_l.
  - intros k d Hd. specialize (H2 k d Hd). by rewrite cell_fill in H2.
Qed.

(** C2. [create] and then [update] at the same checkpoint [c], on a table
    that holds no version of [id]: both calls return and the table holds
    exactly one version of [id], open from [c], with the patched fields
    over the created ones; the update is done in place (the table has one
    row more than before the two calls). *)
Theorem create_then_update_same_checkpoint st tableName t rel (c : Checkpoint)
    (id : Id) (data : Row) (patch : UpdateData) :
  TableState st tableName t rel ->
  id_wf (idColumnComparator tableName (this_schema st)) id = true ->
  versions_of st tableName id rel = [] ->
  data !! "id" = None ->
  (forall current, user_data (the_patch patch current)) ->
  let original :=
    fill (rel_columns rel)
      (new_version (encodeCheckpoint c)
         (formatRow (data ∪ {["id" := id_value id]}))) in
  let squashed current :=
    formatRow (the_patch patch current ∪ {["id" := id_value id]}) ∪ original in
  accepts rel original ->
  (forall current, accepts rel (squashed current)) ->
  exists st1 st2 created updated,
    create encodeCheckpoint tableName c id data st = (st1, inr created)
    /\ update encodeCheckpoint tableName c id patch st1 = (st2, inr updated)
    /\ st2 = set_relation st tableName
               (with_rows rel (rel_rows rel ++ [squashed created]))
    /\ versions_of st2 tableName id
         (with_rows rel (rel_rows rel ++ [squashed created]))
       = [squashed created]
    /\ cell (squashed created) "effectiveFromCheckpoint" = VText (encodeCheckpoint c)
    /\ cell (squashed created) "effectiveToCheckpoint" = latest
    /\ (forall k,
          cell (squashed created) k
          = match the_patch patch created !! k with
            | Some v => formatColumnValue v
            | None => cell original k
            end)
    /\ deserializeRow (this_schema st) tableName (squashed created) = Some updated.
Proof.
  intros TS Hwf Hnone Hdata Hpatch original squashed Hacc1 Hacc2.
  set (e := encodeCheckpoint c) in *.
  destruct (create_run st tableName t rel c id data TS Hwf Hnone Hdata
              (accepts_unfilled _ _ Hacc1)) as (created & Hcreate & Hdes & TS1).
  fold e in Hcreate, Hdes, TS1. fold original in Hcreate, Hdes, TS1.
  set (rel1 := with_rows rel (rel_rows rel ++ [original])) in *.
  set (st1 := set_relation st tableName rel1) in *.
  assert (Ho_id : cell original "id" = id_value id).
  { unfold original. rewrite cell_fill, cell_new_version_other by done.
    unfold cell. by rewrite formatRow_id. }
  assert (Ho_to : cell original "effectiveToCheckpoint" = latest).
  { unfold original. by rewrite cell_fill, cell_new_version_to. }
  assert (Ho_from : cell original "effectiveFromCheckpoint" = VText e).
  { unfold original. by rewrite cell_fill, cell_new_version_from. }
  pose (updateRow := formatRow (the_patch patch created ∪ {["id" := id_value id]})).
  destruct (Hpatch created) as (Hp_id & Hp_from & Hp_to).
  assert (Hup_id : updateRow !! "id" = Some (id_value id)).
  { by apply formatRow_id. }
  assert (Hup_to : updateRow !! "effectiveToCheckpoint" = None).
  { unfold updateRow. by rewrite formatRow_other, Hp_to. }
  assert (Hup_from : updateRow !! "effectiveFromCheckpoint" = None).
  { unfold updateRow. by rewrite formatRow_other, Hp_from. }
  destruct (write_version_squash st1 tableName t rel1 id (rel_rows rel) original
              updateRow e TS1 Hwf eq_refl Hnone Ho_id Ho_to Ho_from
              Hup_id Hup_to (Hacc2 created)) as [Hwrite TS2].
  unfold st1 in Hwrite, TS2. rewrite set_relation_twice in Hwrite, TS2.
  unfold rel1 in Hwrite, TS2. rewrite with_rows_with_rows in Hwrite, TS2.
  unfold updateRow in Hwrite, TS2. fold (squashed created) in Hwrite, TS2.
  set (rel2 := with_rows rel (rel_rows rel ++ [squashed created])) in *.
  set (st2 := set_relation st tableName rel2) in *.
  destruct (deserializeRow_total TS2 (squashed created)) as [updated Hupd].
  assert (Hs_id : cell (squashed created) "id" = id_value id).
  { by apply cell_union_l. }
  exists st1, st2, created, updated. repeat split; try done.
  - unfold update. erewrite bind_run; cycle 1.
    { apply transaction_run.
      unfold bind at 1. unfold get_schema at 1. cbn beta iota.
      fold (id_condition st1 tableName id).
      unfold executeTakeFirstOrThrow at 1.
      unfold bind at 1. unfold bind at 1.
      rewrite (selectFrom_run _ _ _ _ (ts_relation _ _ _ _ TS1)).
      rewrite (select_app_fresh st1 tableName id _ rel1 (rel_rows rel) [original]
                 eq_refl Hnone).
      cbn [List.filter]. rewrite (matches_own_id st1) by done.
      unfold matches, eval_condition, eval_atom. cbn [forallb].
      rewrite Ho_to. cbn.
      erewrite bind_run; [|by apply (update_row_run st1 tableName t rel1 id patch
                                       original created TS1)].
      exact Hwrite. }
    rewrite deserializeRowM_run. by rewrite Hupd.
  - unfold versions_of.
    rewrite (select_app_fresh st2 tableName id _ rel2 (rel_rows rel)
               [squashed created] eq_refl Hnone).
    cbn [List.filter]. by rewrite !(matches_own_id st2) by done.
  - unfold squashed. by rewrite cell_union_r.
  - unfold squashed. by rewrite cell_union_r.
  - intros k. destruct (decide (k = "id")) as [->|Hk].
    + rewrite Hp_id, Hs_id. by rewrite Ho_id.
    + unfold squashed, cell at 1. rewrite lookup_union, formatRow_other by done.
      destruct (the_patch patch created !! k) as [v|]; simpl.
      * by destruct (original !! k).
      * unfold cell. by destruct (original !! k).
Qed.

Lemma NoDup_fmap_inj_on {A B} (f : A -> B) (l : list A) x y :
  NoDup (f <$> l) -> x ∈ l -> y ∈ l -> f x = f y -> x = y.
Proof.
  induction l as [|a l IH]; simpl.
  - intros _ Hx. by apply elem_of_nil in Hx.
  - intros [Ha Hl]%NoDup_cons [->|Hx]%elem_of_cons [->|Hy]%elem_of_cons Heq;
      [done| | |by apply IH].
    + exfalso. apply Ha. rewrite Heq. by apply list_elem_of_fmap_2.
    + exfalso. apply Ha. rewrite <- Heq. by apply list_elem_of_fmap_2.
Qed.

(** An update that does not make the keys of two rows equal keeps the
    primary key. *)
Lemma pk_unique_update pk (g : Row -> Row) (rows : list Row) :
  pk_unique pk rows = true ->
  (forall x y, x ∈ rows -> y ∈ rows ->
     pk_of pk (g x) = pk_of pk (g y) -> pk_of pk x = pk_of pk y) ->
  pk_unique pk (g <$> rows) = true.
Proof.
  unfold pk_unique. intros H Hg. apply bool_decide_eq_true_1 in H.
  apply bool_decide_eq_true_2. rewrite <- list_fmap_compose.
  apply NoDup_fmap_2_strong; [|by apply NoDup_fmap_1 in H].
  intros x y Hx Hy Heq. simpl in Heq.
  apply (NoDup_fmap_inj_on (pk_of pk) rows); auto.
Qed.

Lemma pk_unique_filter pk (f : Row -> bool) (rows : list Row) :
  pk_unique pk rows = true -> pk_unique pk (List.filter f rows) = true.
Proof.
  unfold pk_unique. intros H. apply bool_decide_eq_true_1 in H.
  apply bool_decide_eq_true_2.
  induction rows as [|r rows IH]; simpl in *; [done|].
  apply NoDup_cons in H as [Hr Hrows]. destruct (f r); simpl; [|by apply IH].
  apply NoDup_cons. split; [|by apply IH].
  intros Hin. apply Hr. apply list_elem_of_fmap in Hin as (x & Hx & Hin).
  apply list_elem_of_In, List.filter_In in Hin as [Hin _].
  rewrite Hx. apply list_elem_of_fmap_2. by apply list_elem_of_In.
Qed.

(** Closing the current versions of [id] at [e] keeps the primary key when
    no version of [id] already ends at [e]. *)
Lemma pk_unique_close st tableName t rel (id : Id) e :
  TableState st tableName t rel ->
  select_rows [id_condition st tableName id;
               Where "effectiveToCheckpoint" OpEq (VText e)] rel = [] ->
  pk_unique (rel_primary_key rel)
    ((fun r => if matches [id_condition st tableName id;
                           Where "effectiveToCheckpoint" OpEq latest] r
               then close_at e r else r) <$> rel_rows rel) = true.
Proof.
  intros TS Hclash.
  set (current := [id_condition st tableName id;
                   Where "effectiveToCheckpoint" OpEq latest]).
  apply pk_unique_update; [apply (ts_unique _ _ _ _ TS)|].
  unfold select_rows in Hclash. rewrite filter_none in Hclash.
  rewrite (ts_primary_key TS).
  assert (Hcase : forall x y, x ∈ rel_rows rel ->
            matches current y = true ->
            cell x "id" = cell y "id" ->
            cell x "effectiveToCheckpoint" = VText e -> False).
  { intros x y Hx Hy Hid Hto. specialize (Hclash x Hx). unfold current in Hy.
    rewrite !matches_cons in Hy, Hclash.
    apply andb_prop in Hy as [Hy _].
    rewrite eval_id_condition in Hy, Hclash. rewrite Hid, Hy in Hclash.
    simpl in Hclash. unfold eval_atom in Hclash. rewrite Hto in Hclash.
    simpl in Hclash. by rewrite String.eqb_refl in Hclash. }
  intros x y Hx Hy. unfold pk_of. cbn [fmap list_fmap].
  destruct (matches current x) eqn:Ex, (matches current y) eqn:Ey; unfold close_at;
    rewrite ?cell_singleton_union_eq, ?cell_singleton_union_ne by done.
  - intros [= Hid]. unfold current in Ex, Ey. rewrite !matches_cons in Ex, Ey.
    apply andb_prop in Ex as [_ Ex], Ey as [_ Ey].
    rewrite andb_true_r in Ex, Ey. simpl in Ex, Ey. unfold eval_atom in Ex, Ey.
    destruct (cell x "effectiveToCheckpoint") as [| | |a|]; try discriminate.
    destruct (cell y "effectiveToCheckpoint") as [| | |b|]; try discriminate.
    simpl in Ex, Ey. apply String.eqb_eq in Ex, Ey. subst. by rewrite Hid.
  - intros [= Hid Hto]. exfalso. by apply (Hcase y x).
  - intros [= Hid Hto]. exfalso. by apply (Hcase x y).
  - done.
Qed.

Lemma with_rows_same rel : with_rows rel (rel_rows rel) = rel.
Proof. by destruct rel. Qed.

Lemma delete_run st tableName t rel (c : Checkpoint) (id : Id) :
  TableState st tableName t rel ->
  let e := encodeCheckpoint c in
  let same := [id_condition st tableName id;
               Where "effectiveFromCheckpoint" OpEq (VText e);
               Where "effectiveToCheckpoint" OpEq latest] in
  let current := [id_condition st tableName id;
                  Where "effectiveToCheckpoint" OpEq latest] in
  (select_rows same rel <> [] ->
   delete encodeCheckpoint tableName c id st
   = (set_relation st tableName
        (with_rows rel (List.filter (fun r => negb (matches same r)) (rel_rows rel))),
      inr true))
  /\ (select_rows same rel = [] ->
      (String.length e <= 58)%nat ->
      select_rows [id_condition st tableName id;
                   Where "effectiveToCheckpoint" OpEq (VText e)] rel = [] ->
      delete encodeCheckpoint tableName c id st
      = (set_relation st tableName
           (with_rows rel
              ((fun r => if matches current r then close_at e r else r)
                 <$> rel_rows rel)),
         inr (bool_decide (select_rows current rel <> [])))).
Proof.
  intros TS e same current.
  pose proof (ts_relation _ _ _ _ TS) as Hrel.
  split.
  - intros Hsame. unfold delete. apply transaction_run.
    unfold bind at 1. unfold get_schema at 1. cbn beta iota.
    fold (id_condition st tableName id). fold e. fold same.
    unfold executeTakeFirst at 1. unfold bind.
    rewrite (deleteFrom_run _ _ _ _ Hrel). unfold ret.
    unfold select_rows in Hsame.
    by destruct (List.filter (matches same) (rel_rows rel)).
  - intros Hsame Hlen Hclash. unfold delete. apply transaction_run.
    unfold bind at 1. unfold get_schema at 1. cbn beta iota.
    fold (id_condition st tableName id). fold e. fold same. fold current.
    unfold executeTakeFirst. unfold bind at 1. unfold bind at 1.
    rewrite (deleteFrom_run _ _ _ _ Hrel). unfold ret at 1.
    unfold select_rows in Hsame. rewrite Hsame. cbn [head].
    rewrite filter_all; cycle 1.
    { rewrite filter_none in Hsame. intros x Hx. by rewrite (Hsame x Hx). }
    rewrite with_rows_same, (set_relation_id _ _ _ Hrel).
    unfold bind.
    rewrite (updateTable_run _ _ _ _ _ Hrel).
    + unfold ret, select_rows, close_at. f_equal. f_equal.
      destruct (List.filter (matches current) (rel_rows rel)) as [|x l].
      * rewrite !bool_decide_eq_false_2; [done|by intros ?|by intros []].
      * rewrite !bool_decide_eq_true_2; [done|done|by eexists].
    + apply insert_non_empty.
    + apply check_rows_None, Forall_forall. intros r Hr.
      apply list_elem_of_fmap in Hr as (x & -> & Hx).
      apply check_row_union.
      * apply (ts_rows_ok TS).
        by apply list_elem_of_In, List.filter_In in Hx as [Hx%list_elem_of_In _].
      * intros k v Hk. apply lookup_singleton_Some in Hk as [<- <-].
        exists checkpoint_column. split; [apply (ts_to_column TS)|].
        simpl. rewrite andb_true_r. by apply Nat.leb_le.
    + by apply (pk_unique_close st tableName t rel id e TS).
Qed.

(** C3. [delete] at [c]: when a version of [id] that starts at [c] is
    current, it is removed and the call returns [true]; otherwise the
    current versions of [id] are closed at [c] and the call returns whether
    there was one.  So [create] then [delete] at one checkpoint leave the
    table as it was, without a version of [id]. *)
Theorem delete_removes_or_closes st tableName t rel (c : Checkpoint) (id : Id) :
  TableState st tableName t rel ->
  let e := encodeCheckpoint c in
  let same := [id_condition st tableName id;
               Where "effectiveFromCheckpoint" OpEq (VText e);
               Where "effectiveToCheckpoint" OpEq latest] in
  let current := [id_condition st tableName id;
                  Where "effectiveToCheckpoint" OpEq latest] in
  (select_rows same rel <> [] ->
   delete encodeCheckpoint tableName c id st
   = (set_relation st tableName
        (with_rows rel (List.filter (fun r => negb (matches same r)) (rel_rows rel))),
      inr true))
  /\ (select_rows same rel = [] ->
      (String.length e <= 58)%nat ->
      select_rows [id_condition st tableName id;
                   Where "effectiveToCheckpoint" OpEq (VText e)] rel = [] ->
      delete encodeCheckpoint tableName c id st
      = (set_relation st tableName
           (with_rows rel
              ((fun r => if matches current r then close_at e r else r)
                 <$> rel_rows rel)),
         inr (bool_decide (select_rows current rel <> []))))
  /\ (forall data : Row,
      id_wf (idColumnComparator tableName (this_schema st)) id = true ->
      versions_of st tableName id rel = [] ->
      data !! "id" = None ->
      accepts rel (new_version e (formatRow (data ∪ {["id" := id_value id]}))) ->
      exists st1 created,
        create encodeCheckpoint tableName c id data st = (st1, inr created)
        /\ delete encodeCheckpoint tableName c id st1 = (st, inr true)
        /\ versions_of st tableName id rel = []).
Proof.
  intros TS e same current.
  destruct (delete_run st tableName t rel c id TS) as [HA HB].
  split; [exact HA|]. split; [exact HB|].
  intros data Hwf Hnone Hdata Hacc.
  destruct (create_run st tableName t rel c id data TS Hwf Hnone Hdata Hacc)
    as (created & Hcreate & Hdes & TS1).
  fold e in Hcreate, Hdes, TS1.
  set (original := fill (rel_columns rel)
         (new_version e (formatRow (data ∪ {["id" := id_value id]})))) in *.
  set (rel1 := with_rows rel (rel_rows rel ++ [original])) in *.
  set (st1 := set_relation st tableName rel1) in *.
  exists st1, created. split; [done|]. split; [|done].
  assert (Ho_id : cell original "id" = id_value id).
  { unfold original. rewrite cell_fill, cell_new_version_other by done.
    unfold cell. by rewrite formatRow_id. }
  assert (Ho_to : cell original "effectiveToCheckpoint" = latest).
  { unfold original. by rewrite cell_fill, cell_new_version_to. }
  assert (Ho_from : cell original "effectiveFromCheckpoint" = VText e).
  { unfold original. by rewrite cell_fill, cell_new_version_from. }
  assert (Hm : matches same original = true).
  { unfold same. rewrite (matches_own_id st) by done.
    unfold matches, eval_condition, eval_atom. cbn [forallb].
    rewrite Ho_from, Ho_to. cbn. by rewrite String.eqb_refl. }
  assert (Hpre : forall r, r ∈ rel_rows rel -> matches same r = false).
  { intros r Hr. apply matches_false_head.
    unfold versions_of, select_rows in Hnone. rewrite filter_none in Hnone.
    specialize (Hnone r Hr). rewrite matches_cons in Hnone.
    by apply andb_false_iff in Hnone as [H|H]. }
  destruct (delete_run st1 tableName t rel1 c id TS1) as [HA1 _].
  fold e in HA1. change (id_condition st1 tableName id)
    with (id_condition st tableName id) in HA1. fold same in HA1.
  rewrite HA1.
  - unfold st1. rewrite set_relation_twice. unfold rel1.
    rewrite with_rows_with_rows, with_rows_rows, List.filter_app.
    cbn [List.filter]. rewrite Hm. cbn [negb]. rewrite app_nil_r.
    rewrite filter_all by (intros x Hx; by rewrite (Hpre x Hx)).
    by rewrite with_rows_same, (set_relation_id _ _ _ (ts_relation _ _ _ _ TS)).
  - unfold select_rows, rel1. rewrite with_rows_rows, List.filter_app.
    cbn [List.filter]. rewrite Hm. intros [_ H]%app_eq_nil. discriminate.
Qed.

Lemma check_rows_cons cols (r : Row) (rs : list Row) :
  check_rows cols (r :: rs)
  = match check_row cols r with
    | Some e => Some e
    | None => check_rows cols rs
    end.
Proof.
  unfold check_rows. cbn [fmap list_fmap list_find].
  destruct (check_row cols r) as [e|]; simpl; [done|].
  by destruct (list_find _ _) as [[i o]|].
Qed.

Lemma check_rows_None_inv cols (rs : list Row) (r : Row) :
  check_rows cols rs = None -> r ∈ rs -> check_row cols r = None.
Proof.
  induction rs as [|x rs IH]; intros Hc Hr.
  - by apply elem_of_nil in Hr.
  - rewrite check_rows_cons in Hc.
    destruct (check_row cols x) eqn:E; [done|].
    apply elem_of_cons in Hr as [->|Hr]; auto.
Qed.

(** ** [revert] *)

Lemma revert_table_run e tableName st rel :
  database st !! versioned tableName = Some rel ->
  revert_table e tableName st
  = match revert_rel e rel with
    | inr rel2 => (set_relation st tableName rel2, inr tt)
    | inl err =>
        (set_relation st tableName
           (delete_rows [Where "effectiveFromCheckpoint" OpGe (VText e)] rel).1,
         inl err)
    end.
Proof.
  intros Hrel. unfold revert_table. unfold bind at 1.
  rewrite (deleteFrom_run _ _ _ _ Hrel).
  unfold bind, updateTable.
  rewrite (statement_run _ _ _ _ (set_relation_lookup _ _ _)).
  unfold revert_rel, delete_rows. cbn [fst].
  destruct (update_rows _ _ _) as [err|[rel2 rows]]; [done|].
  fold (set_relation (set_relation st tableName
          (with_rows rel (List.filter (fun r => negb (matches
             [Where "effectiveFromCheckpoint" OpGe (VText e)] r)) (rel_rows rel))))
          tableName rel2).
  by rewrite set_relation_twice.
Qed.

Lemma revert_table_schema e tableName st :
  this_schema (revert_table e tableName st).1 = this_schema st.
Proof.
  destruct (database st !! versioned tableName) as [rel|] eqn:E.
  - rewrite (revert_table_run _ _ _ _ E). by destruct (revert_rel e rel).
  - unfold revert_table, bind, deleteFrom, statement. by rewrite E.
Qed.

Lemma revert_tables_schema e names st :
  this_schema (revert_tables e names st).1 = this_schema st.
Proof.
  revert st. induction names as [|n names IH]; intros st; [done|].
  cbn [revert_tables]. unfold bind.
  pose proof (revert_table_schema e n st) as H.
  destruct (revert_table e n st) as [st1 [err|[]]]; simpl in *; [done|].
  by rewrite IH.
Qed.

(** A reverted relation is a fixed point of the revert. *)
Lemma revert_rel_idem e rel rel' :
  revert_rel e rel = inr rel' -> revert_rel e rel' = inr rel'.
Proof.
  unfold revert_rel, update_rows, delete_rows. cbn [fst with_rows rel_rows
    rel_columns rel_primary_key].
  rewrite bool_decide_eq_false_2 by apply insert_non_empty.
  set (gone := fun r => negb (matches [Where "effectiveFromCheckpoint" OpGe (VText e)] r)).
  set (hit := matches [Where "effectiveToCheckpoint" OpGe (VText e)]).
  set (open := fun r : Row => {["effectiveToCheckpoint" := latest]} ∪ r).
  set (rows1 := List.filter gone (rel_rows rel)).
  destruct (check_rows _ _) eqn:Hc; [done|].
  destruct (pk_unique _ _) eqn:Hu; [|done].
  intros [= <-]. cbn [with_rows rel_rows rel_columns rel_primary_key].
  change (fun r : Row => if hit r then {["effectiveToCheckpoint" := latest]} ∪ r else r)
    with (fun r => if hit r then open r else r) in *.
  set (rows2 := (fun r => if hit r then open r else r) <$> rows1) in *.
  assert (Hopen : forall r, open (open r) = open r).
  { intros r. unfold open. apply map_eq. intros k. rewrite !lookup_union.
    by destruct ({["effectiveToCheckpoint" := latest]} !! k), (r !! k). }
  assert (Hgone : forall r, gone (open r) = gone r).
  { intros r. unfold gone, open, matches, eval_condition, eval_atom.
    cbn [forallb]. by rewrite cell_singleton_union_ne. }
  assert (H1 : List.filter gone rows2 = rows2).
  { apply filter_all. intros x Hx. unfold rows2 in Hx.
    apply list_elem_of_fmap in Hx as (r & -> & Hr).
    apply list_elem_of_In, List.filter_In in Hr as [_ Hr].
    by destruct (hit r); rewrite ?Hgone. }
  rewrite H1.
  assert (H2 : (fun r => if hit r then open r else r) <$> rows2 = rows2).
  { unfold rows2. rewrite <- list_fmap_compose. apply list_fmap_ext.
    intros i r _. simpl. destruct (hit r) eqn:E.
    - destruct (hit (open r)); by rewrite ?Hopen.
    - by rewrite E. }
  rewrite H2, Hu.
  assert (H3 : check_rows (rel_columns rel) (open <$> List.filter hit rows2) = None).
  { apply check_rows_None, Forall_forall. intros x Hx.
    apply list_elem_of_fmap in Hx as (y & -> & Hy).
    apply list_elem_of_In, List.filter_In in Hy as [Hy Hhit].
    apply list_elem_of_In in Hy. unfold rows2 in Hy.
    apply list_elem_of_fmap in Hy as (r & -> & Hr).
    assert (Hr' : check_row (rel_columns rel) (open r) = None).
    { destruct (hit r) eqn:E.
      - apply (check_rows_None_inv _ _ _ Hc). apply list_elem_of_fmap_2.
        apply list_elem_of_In, List.filter_In. split; [|done].
        by apply list_elem_of_In.
      - rewrite E in Hhit. congruence. }
    destruct (hit r); by rewrite ?Hopen. }
  by rewrite H3.
Qed.

Lemma revert_table_reverted e tableName st st' :
  revert_table e tableName st = (st', inr tt) ->
  reverted e st' tableName
  /\ (forall other, reverted e st other -> reverted e st' other).
Proof.
  intros H. destruct (database st !! versioned tableName) as [rel|] eqn:E.
  - rewrite (revert_table_run _ _ _ _ E) in H.
    destruct (revert_rel e rel) as [err|rel2] eqn:Hr; [done|].
    injection H as <-. split.
    + exists rel2. split; [apply set_relation_lookup|by eapply revert_rel_idem].
    + intros other (relo & Ho & Hfix).
      destruct (decide (versioned other = versioned tableName)) as [Heq|Hne].
      * exists rel2. split; [|by eapply revert_rel_idem].
        rewrite Heq. apply set_relation_lookup.
      * exists relo. split; [|done]. unfold set_relation. simpl.
        by rewrite lookup_insert_ne.
  - unfold revert_table, bind, deleteFrom, statement in H. by rewrite E in H.
Qed.

Lemma revert_tables_reverted e names st st' :
  revert_tables e names st = (st', inr tt) ->
  (forall n, n ∈ names -> reverted e st' n)
  /\ (forall other, reverted e st other -> reverted e st' other).
Proof.
  revert st. induction names as [|n names IH]; intros st H.
  - injection H as <-. split; [|done]. intros n Hn. by apply elem_of_nil in Hn.
  - cbn [revert_tables] in H. unfold bind in H.
    destruct (revert_table e n st) as [st1 [err|[]]] eqn:E1; [done|].
    apply revert_table_reverted in E1 as [Hn Hkeep].
    apply IH in H as [Hnames Hkeep'].
    split.
    + intros m [->|Hm]%elem_of_cons; auto.
    + auto.
Qed.

Lemma revert_tables_fixed e names st :
  (forall n, n ∈ names -> reverted e st n) ->
  revert_tables e names st = (st, inr tt).
Proof.
  induction names as [|n names IH]; intros H; [done|].
  cbn [revert_tables]. unfold bind.
  destruct (H n (list_elem_of_here _ _)) as (rel & Hrel & Hfix).
  rewrite (revert_table_run _ _ _ _ Hrel), Hfix.
  rewrite (set_relation_id _ _ _ Hrel). apply IH.
  intros m Hm. apply H. by apply list_elem_of_further.
Qed.

Lemma revert_run (c : Checkpoint) (st : Store) :
  revert encodeCheckpoint c st
  = match revert_tables (encodeCheckpoint c) (schema_tables st) st with
    | (st', inr r) => (st', inr r)
    | (_, inl err) => (st, inl err)
    end.
Proof.
  unfold revert, transaction, bind, get_schema. fold (schema_tables st).
  pose proof (revert_tables_schema (encodeCheckpoint c) (schema_tables st) st) as Hs.
  destruct (revert_tables _ _ st) as [st' [err|r]]; [|done].
  f_equal. destruct st, st'. simpl in *. by subst.
Qed.

(** C5. [revert] is idempotent: a second call with the same checkpoint
    finds nothing to change; it returns as the first call did and leaves
    every table as the first call left it. *)
Theorem revert_idempotent (c : Checkpoint) (st : Store) :
  revert encodeCheckpoint c (revert encodeCheckpoint c st).1
  = revert encodeCheckpoint c st.
Proof.
  rewrite (revert_run c st).
  pose proof (revert_tables_schema (encodeCheckpoint c) (schema_tables st) st) as Hs.
  destruct (revert_tables _ _ st) as [st' [err|[]]] eqn:E; cbn [fst] in *.
  - by rewrite revert_run, E.
  - rewrite revert_run.
    assert (Hn : schema_tables st' = schema_tables st)
      by (unfold schema_tables; by rewrite Hs).
    rewrite Hn. apply revert_tables_reverted in E as [Hall _].
    by rewrite (revert_tables_fixed _ _ st' Hall).
Qed.

(** ** Writes in the past and writes to absent rows *)

Lemma current_head_matches st tableName id rel latestRow :
  head (current_of st tableName id rel) = Some latestRow ->
  latestRow ∈ rel_rows rel.
Proof.
  unfold current_of, select_rows. intros H.
  apply head_Some_elem_of, list_elem_of_In, List.filter_In in H as [H _].
  by apply list_elem_of_In.
Qed.

(** C6 (amended).  [update], and [upsert] on an existing row, at a checkpoint
    before the start of the current version of [id]: the call throws
    [Error("Cannot update a record in the past")], an error that carries
    neither the table nor the id, and the store is as it was. *)
Theorem update_in_the_past st tableName t rel (c : Checkpoint) (id : Id)
    (data : UpdateData) (latestRow : Row) (e0 : string) :
  TableState st tableName t rel ->
  head (current_of st tableName id rel) = Some latestRow ->
  cell latestRow "effectiveFromCheckpoint" = VText e0 ->
  string_lt (encodeCheckpoint c) e0 = true ->
  update encodeCheckpoint tableName c id data st
  = (st, inl (JsError "Cannot update a record in the past"))
  /\ forall create_ : Row,
       upsert encodeCheckpoint tableName c id create_ data st
       = (st, inl (JsError "Cannot update a record in the past")).
Proof.
  intros TS Hhead Hfrom Hlt.
  pose proof (ts_relation _ _ _ _ TS) as Hrel.
  destruct (deserializeRow_total TS latestRow) as [cur Hcur].
  assert (Hw : forall updateRow,
             write_version tableName (encodeCheckpoint c)
               (formatColumnValue (id_value id)) latestRow updateRow st
             = (st, inl PAST_UPDATE)).
  { intros updateRow. unfold write_version. rewrite Hfrom. simpl. by rewrite Hlt. }
  unfold current_of in Hhead.
  split; [|intros create_].
  - unfold update. erewrite bind_throw; [reflexivity|].
    apply transaction_throw with (st' := st); [|done].
    unfold bind at 1. unfold get_schema at 1. cbn beta iota.
    fold (id_condition st tableName id).
    unfold executeTakeFirstOrThrow at 1. unfold bind at 1. unfold bind at 1.
    rewrite (selectFrom_run _ _ _ _ Hrel).
    destruct (select_rows _ rel) as [|w ws]; [done|]. injection Hhead as ->.
    unfold ret at 1. cbn beta iota.
    erewrite bind_run; [|by apply (update_row_run st tableName t rel id data
                                     latestRow cur TS)].
    apply Hw.
  - unfold upsert. erewrite bind_throw; [reflexivity|].
    apply transaction_throw with (st' := st); [|done].
    unfold bind at 1. unfold get_schema at 1. cbn beta iota.
    fold (id_condition st tableName id).
    unfold executeTakeFirst at 1. unfold bind at 1. unfold bind at 1.
    rewrite (selectFrom_run _ _ _ _ Hrel). unfold ret at 1. rewrite Hhead.
    cbn beta iota.
    erewrite bind_run; [|by apply (update_row_run st tableName t rel id data
                                     latestRow cur TS)].
    apply Hw.
Qed.

(** C7 (amended).  When [id] has no current version, [update] throws the
    [NoResultError] of [executeTakeFirstOrThrow], which reaches the caller;
    [delete] does not throw: it returns [false].  Neither changes the
    store. *)
Theorem no_current_version st tableName t rel (c : Checkpoint) (id : Id)
    (data : UpdateData) :
  TableState st tableName t rel ->
  current_of st tableName id rel = [] ->
  update encodeCheckpoint tableName c id data st = (st, inl NoResultError)
  /\ delete encodeCheckpoint tableName c id st = (st, inr false).
Proof.
  intros TS Hnone.
  pose proof (ts_relation _ _ _ _ TS) as Hrel.
  split.
  - unfold update. erewrite bind_throw; [reflexivity|].
    apply transaction_throw with (st' := st); [|done].
    unfold bind at 1. unfold get_schema at 1. cbn beta iota.
    fold (id_condition st tableName id).
    unfold executeTakeFirstOrThrow at 1. unfold bind at 1. unfold bind at 1.
    rewrite (selectFrom_run _ _ _ _ Hrel).
    unfold current_of in Hnone. by rewrite Hnone.
  - unfold delete. apply transaction_run.
    unfold bind at 1. unfold get_schema at 1. cbn beta iota.
    fold (id_condition st tableName id).
    unfold current_of, select_rows in Hnone.
    pose proof (proj1 (filter_none _ _) Hnone) as Hno.
    unfold executeTakeFirst. unfold bind at 1. unfold bind at 1.
    rewrite (deleteFrom_run _ _ _ _ Hrel). unfold ret at 1.
    assert (Hsame : List.filter
              (matches [id_condition st tableName id;
                        Where "effectiveFromCheckpoint" OpEq (VText (encodeCheckpoint c));
                        Where "effectiveToCheckpoint" OpEq latest]) (rel_rows rel) = []).
    { apply filter_none. intros x Hx. specialize (Hno x Hx).
      rewrite !matches_cons in *.
      destruct (eval_condition x (id_condition st tableName id)); [|done].
      simpl in *. rewrite andb_true_r in Hno. rewrite Hno. apply andb_false_r. }
    rewrite Hsame. cbn [head].
    rewrite filter_all; cycle 1.
    { rewrite filter_none in Hsame. intros x Hx. by rewrite (Hsame x Hx). }
    rewrite with_rows_same, (set_relation_id _ _ _ Hrel).
    unfold bind, updateTable. rewrite (statement_run _ _ _ _ Hrel).
    unfold update_rows. rewrite bool_decide_eq_false_2 by apply insert_non_empty.
    rewrite Hnone. cbn [fmap list_fmap]. rewrite check_rows_nil.
    rewrite map_unmatched by done.
    rewrite (ts_unique _ _ _ _ TS), with_rows_same.
    fold (set_relation st tableName rel).
    by rewrite (set_relation_id _ _ _ Hrel).
Qed.

(** ** The comparison of ids *)

Lemma compare_ilike (x : Value) (q : string) :
  like_plain q = true ->
  compare_values OpIlike x (VText q)
  = match x with
    | VText s => String.eqb (lower q) (lower s)
    | _ => false
    end.
Proof. intros Hq. destruct x; simpl; try done. by rewrite ilike_plain. Qed.

Lemma compare_exact (x : Value) (id : Id) :
  compare_values OpEq x (id_value id) = bool_decide (x = id_value id).
Proof.
  destruct id as [s'|n']; destruct x as [|b|n|s|j]; simpl;
    try done.
  - destruct (String.eqb_spec s s') as [->|Hne].
    + by rewrite bool_decide_eq_true_2.
    + rewrite bool_decide_eq_false_2; [done|]. by intros [= ?].
  - destruct (Z.eqb_spec n n') as [->|Hne].
    + by rewrite bool_decide_eq_true_2.
    + rewrite bool_decide_eq_false_2; [done|]. by intros [= ?].
Qed.

(** Two clauses that match the same rows make the same statements. *)
Lemma select_rows_ext conds conds' rel :
  (forall r, matches conds r = matches conds' r) ->
  select_rows conds rel = select_rows conds' rel.
Proof. intros H. unfold select_rows. by apply List.filter_ext. Qed.

Lemma delete_rows_ext conds conds' rel :
  (forall r, matches conds r = matches conds' r) ->
  delete_rows conds rel = delete_rows conds' rel.
Proof.
  intros H. unfold delete_rows. f_equal.
  - f_equal. apply List.filter_ext. intros r. by rewrite H.
  - by apply List.filter_ext.
Qed.

Lemma update_rows_ext conds conds' values rel :
  (forall r, matches conds r = matches conds' r) ->
  update_rows conds values rel = update_rows conds' values rel.
Proof.
  intros H. unfold update_rows.
  rewrite (List.filter_ext _ _ H).
  assert (Hmap : (fun r => if matches conds r then values ∪ r else r) <$> rel_rows rel
                 = (fun r => if matches conds' r then values ∪ r else r) <$> rel_rows rel).
  { apply list_fmap_ext. intros i r _. by rewrite H. }
  by rewrite Hmap.
Qed.

Lemma matches_head_ext c c' conds :
  (forall r, eval_condition r c = eval_condition r c') ->
  forall r, matches (c :: conds) r = matches (c' :: conds) r.
Proof. intros H r. by rewrite !matches_cons, H. Qed.


End MethodFacts.

(** ** The store of the examples *)

Lemma store0_Token :
  TableState Fixture.store0 "Token" Fixture.Token
    (Fixture.relation_of Fixture.store0 "Token").
Proof.
  split.
  - vm_compute. reflexivity.
  - vm_compute. reflexivity.
  - exists (Some Fixture.schema), (Fixture.relation_of Fixture.store0 "Token").
    split; [vm_compute; reflexivity|]. split; reflexivity.
  - vm_compute. reflexivity.
  - vm_compute. reflexivity.
Qed.

Lemma store1_Token :
  TableState Fixture.store1 "Token" Fixture.Token
    (Fixture.relation_of Fixture.store1 "Token").
Proof.
  split.
  - vm_compute. reflexivity.
  - vm_compute. reflexivity.
  - exists (Some Fixture.schema), (Fixture.relation_of Fixture.store0 "Token").
    split; [vm_compute; reflexivity|]. split; vm_compute; reflexivity.
  - vm_compute. reflexivity.
  - vm_compute. reflexivity.
Qed.


Lemma create_then_update_same_checkpoint_witness :
  exists st1 st2 created updated,
    create Fixture.encode "Token" 1%N (IdText "0xab") {["supply" := VNum 0]}
      Fixture.store0 = (st1, inr created)
    /\ update Fixture.encode "Token" 1%N (IdText "0xab")
         (Patch {["supply" := VNum 100]}) st1 = (st2, inr updated)
    /\ length (rel_rows (Fixture.relation_of st2 "Token")) = 1.
Proof.
  destruct (create_then_update_same_checkpoint Fixture.encode Fixture.store0 "Token"
              Fixture.Token (Fixture.relation_of Fixture.store0 "Token") 1%N
              (IdText "0xab") {["supply" := VNum 0]} (Patch {["supply" := VNum 100]}))
    as (st1 & st2 & created & updated & H1 & H2 & H3 & _).
  - exact store0_Token.
  - vm_compute. reflexivity.
  - vm_compute. reflexivity.
  - vm_compute. reflexivity.
  - intros current. repeat split; vm_compute; reflexivity.
  - vm_compute. reflexivity.
  - intros current. vm_compute. reflexivity.
  - exists st1, st2, created, updated.
    split; [exact H1|]. split; [exact H2|].
    rewrite H3. vm_compute. reflexivity.
Defined.

Lemma delete_removes_or_closes_witness :
  (exists st1 created,
     create Fixture.encode "Token" 1%N (IdText "0xab") {["supply" := VNum 0]}
       Fixture.store0 = (st1, inr created)
     /\ delete Fixture.encode "Token" 1%N (IdText "0xab") st1
        = (Fixture.store0, inr true))
  /\ (delete Fixture.encode "Token" 2%N (IdText "0xAB") Fixture.store1).2 = inr true
  /\ (delete Fixture.encode "Token" 3%N (IdText "0xAB") Fixture.store1).2 = inr true
  /\ (delete Fixture.encode "Token" 3%N (IdText "0xCD") Fixture.store1).2 = inr false.
Proof.
  split; [|split; [|split]].
  - pose proof (delete_removes_or_closes Fixture.encode Fixture.store0 "Token"
                  Fixture.Token (Fixture.relation_of Fixture.store0 "Token") 1%N
                  (IdText "0xab") store0_Token) as H.
    cbv zeta in H. destruct H as (_ & _ & H).
    specialize (H {["supply" := VNum 0]}).
    assert (Ha : id_wf (idColumnComparator "Token" (this_schema Fixture.store0))
                   (IdText "0xab") = true) by (vm_compute; reflexivity).
    assert (Hb : versions_of Fixture.store0 "Token" (IdText "0xab")
                   (Fixture.relation_of Fixture.store0 "Token") = [])
      by (vm_compute; reflexivity).
    assert (Hc : ({["supply" := VNum 0]} : Row) !! "id" = None)
      by (vm_compute; reflexivity).
    assert (Hd : accepts (Fixture.relation_of Fixture.store0 "Token")
                   (new_version (Fixture.encode 1)
                      (formatRow ({["supply" := VNum 0]}
                                    ∪ {["id" := id_value (IdText "0xab")]}))))
      by (vm_compute; reflexivity).
    destruct (H Ha Hb Hc Hd) as (st1 & created & H1 & H2 & _).
    exists st1, created. split; [exact H1|exact H2].
  - pose proof (delete_removes_or_closes Fixture.encode Fixture.store1 "Token"
                  Fixture.Token (Fixture.relation_of Fixture.store1 "Token") 2%N
                  (IdText "0xAB") store1_Token) as H.
    cbv zeta in H. destruct H as (H & _ & _).
    rewrite H; [reflexivity|]. clear H. vm_compute. intros Hn. discriminate Hn.
  - pose proof (delete_removes_or_closes Fixture.encode Fixture.store1 "Token"
                  Fixture.Token (Fixture.relation_of Fixture.store1 "Token") 3%N
                  (IdText "0xAB") store1_Token) as H.
    cbv zeta in H. destruct H as (_ & H & _).
    rewrite H.
    + vm_compute. reflexivity.
    + vm_compute. reflexivity.
    + vm_compute. lia.
    + vm_compute. reflexivity.
  - pose proof (delete_removes_or_closes Fixture.encode Fixture.store1 "Token"
                  Fixture.Token (Fixture.relation_of Fixture.store1 "Token") 3%N
                  (IdText "0xCD") store1_Token) as H.
    cbv zeta in H. destruct H as (_ & H & _).
    rewrite H.
    + vm_compute. reflexivity.
    + vm_compute. reflexivity.
    + vm_compute. lia.
    + vm_compute. reflexivity.
Defined.

(** [revert] does change a store: the version written at checkpoint 2 goes
    when the store is reverted to checkpoint 2. *)
Example revert_example :
  rel_rows (Fixture.relation_of (revert Fixture.encode 2%N Fixture.store1).1 "Token")
  = [].
Proof. vm_compute. reflexivity. Qed.

(** C6, as claimed, fails: the error of an update in the past names neither
    the table nor the id. *)
Lemma past_update_not_surfaced :
  ~ (exists err,
       (update Fixture.encode "Token" 1%N (IdText "0xAB")
          (Patch {["supply" := VNum 1]}) Fixture.store1).2 = inl err
       /\ surfaced_with err "Token" (IdText "0xAB")).
Proof.
  intros (err & Hrun & Htable & _).
  assert (H : (update Fixture.encode "Token" 1%N (IdText "0xAB")
                 (Patch {["supply" := VNum 1]}) Fixture.store1).2
              = inl PAST_UPDATE) by (vm_compute; reflexivity).
  rewrite H in Hrun. clear H. injection Hrun as <-.
  vm_compute in Htable. discriminate Htable.
Qed.

Lemma update_in_the_past_witness :
  update Fixture.encode "Token" 1%N (IdText "0xAB")
    (Patch {["supply" := VNum 1]}) Fixture.store1
  = (Fixture.store1, inl (JsError "Cannot update a record in the past")).
Proof.
  assert (Ha : head (current_of Fixture.store1 "Token" (IdText "0xAB")
                       (Fixture.relation_of Fixture.store1 "Token"))
               = Some Fixture.version1)
    by (vm_compute; reflexivity).
  assert (Hb : cell Fixture.version1 "effectiveFromCheckpoint"
               = VText (Fixture.encode 2))
    by (vm_compute; reflexivity).
  assert (Hc : string_lt (Fixture.encode 1) (Fixture.encode 2) = true)
    by (vm_compute; reflexivity).
  exact (proj1 (update_in_the_past Fixture.encode Fixture.store1 "Token"
                  Fixture.Token (Fixture.relation_of Fixture.store1 "Token") 1%N
                  (IdText "0xAB") (Patch {["supply" := VNum 1]}) Fixture.version1
                  (Fixture.encode 2)
                  store1_Token Ha Hb Hc)).
Defined.

(** C7, as claimed, fails: [delete] of an id without a current version
    does not throw. *)
Lemma delete_absent_does_not_throw :
  current_of Fixture.store0 "Token" (IdText "0xab")
    (Fixture.relation_of Fixture.store0 "Token") = []
  /\ ~ (exists err,
          (delete Fixture.encode "Token" 1%N (IdText "0xab") Fixture.store0).2
          = inl err).
Proof.
  split; [vm_compute; reflexivity|].
  intros (err & H). vm_compute in H. discriminate H.
Qed.

Lemma no_current_version_witness :
  update Fixture.encode "Token" 1%N (IdText "0xab")
    (Patch {["supply" := VNum 1]}) Fixture.store0
  = (Fixture.store0, inl NoResultError)
  /\ delete Fixture.encode "Token" 1%N (IdText "0xab") Fixture.store0
     = (Fixture.store0, inr false).
Proof.
  assert (Ha : current_of Fixture.store0 "Token" (IdText "0xab")
                 (Fixture.relation_of Fixture.store0 "Token") = [])
    by (vm_compute; reflexivity).
  exact (no_current_version Fixture.encode Fixture.store0 "Token" Fixture.Token
           (Fixture.relation_of Fixture.store0 "Token") 1%N (IdText "0xab")
           (Patch {["supply" := VNum 1]}) store0_Token Ha).
Defined.


(** C4 fails on the code.  On a table with a [bytes] id, [create] of an id
    and then [create] of the same id in another letter case both return,
    and the table then holds two current versions that the comparator of
    the schema takes for versions of one id. *)
Theorem create_case_variants :
  (exists created,
     create Fixture.encode "Token" 2%N (IdText "0xab") {["supply" := VNum 7]}
       Fixture.store1 = (Fixture.store2, inr created))
  /\ length (current_of Fixture.store2 "Token" (IdText "0xab")
               (Fixture.relation_of Fixture.store2 "Token")) = 2
  /\ (fun r => cell r "id")
       <$> current_of Fixture.store2 "Token" (IdText "0xab")
             (Fixture.relation_of Fixture.store2 "Token")
     = [VText "0xAB"; VText "0xab"].
Proof.
  split; [|split].
  - eexists. vm_compute. reflexivity.
  - vm_compute. reflexivity.
  - vm_compute. reflexivity.
Qed.

(** ** The methods on the store of the examples *)

(** Scenario "delete later": [create] at 1, [delete] at 2.  The version is
    kept, closed at 2; [findUnique] finds nothing at ["latest"] and the row
    at checkpoint 1. *)
Example delete_later :
  let st1 := (create Fixture.encode "Counter" 1%N (IdText "a")
                {["count" := VNum 10]} Fixture.store0).1 in
  let st2 := (delete Fixture.encode "Counter" 2%N (IdText "a") st1).1 in
  (delete Fixture.encode "Counter" 2%N (IdText "a") st1).2 = inr true
  /\ (fun r => (cell r "effectiveFromCheckpoint", cell r "effectiveToCheckpoint"))
       <$> rel_rows (Fixture.relation_of st2 "Counter")
     = [(VText (Fixture.encode 1), VText (Fixture.encode 2))]
  /\ (findUnique Fixture.encode "Counter" None (IdText "a") st2).2 = inr None
  /\ (findUnique Fixture.encode "Counter" (Some 1%N) (IdText "a") st2).2
     = inr (Some {["id" := VText "a"; "count" := VNum 10]}).
Proof. vm_compute. repeat split; reflexivity. Qed.

(** On a table with a [string] id the comparison is exact: ["A"] is not
    ["a"]. *)
Example exact_id :
  let st1 := (create Fixture.encode "Counter" 1%N (IdText "a")
                {["count" := VNum 10]} Fixture.store0).1 in
  (findUnique Fixture.encode "Counter" None (IdText "A") st1).2 = inr None
  /\ (update Fixture.encode "Counter" 2%N (IdText "A")
        (Patch {["count" := VNum 11]}) st1).2 = inl NoResultError.
Proof. vm_compute. split; reflexivity. Qed.

(** A row that a column refuses is not written: [count] is not optional. *)
Example create_refused :
  create Fixture.encode "Counter" 1%N (IdText "a") ∅ Fixture.store0
  = (Fixture.store0, inl (DatabaseError constraint_violation)).
Proof. vm_compute. reflexivity. Qed.

(** A second [create] of the same id is refused by the primary key. *)
Example create_twice :
  (create Fixture.encode "Token" 3%N (IdText "0xAB") {["supply" := VNum 1]}
     Fixture.store1).2
  = inl (DatabaseError unique_violation).
Proof. vm_compute. reflexivity. Qed.

(** [upsert] of a case variant of a stored [bytes] id updates the stored
    row: it looks the current version up with the comparator of the
    schema. *)
Example upsert_case_variant :
  (fun r => (cell r "id", cell r "supply", cell r "effectiveToCheckpoint"))
    <$> rel_rows (Fixture.relation_of
                    (upsert Fixture.encode "Token" 3%N (IdText "0xab")
                       {["supply" := VNum 5]} (Patch {["supply" := VNum 9]})
                       Fixture.store1).1 "Token")
  = [(VText "0xAB", VNum 0, VText (Fixture.encode 3));
     (VText "0xab", VNum 9, latest)].
Proof. vm_compute. reflexivity. Qed.

(** ** The primary key over sequences of operations *)

Section Sequences.

Context {Checkpoint : Type}.
Variable encodeCheckpoint : Checkpoint -> string.

Lemma keys_ok_set st table rel :
  keys_ok st -> relation_ok rel ->
  keys_ok (with_database st (<[table := rel]> (database st))).
Proof.
  intros Hst Hrel tbl rel' Hl. simpl in Hl.
  destruct (decide (table = tbl)) as [->|Hne].
  - rewrite lookup_insert_eq in Hl. by injection Hl as <-.
  - rewrite lookup_insert_ne in Hl by done. by apply (Hst tbl).
Qed.

Lemma preserves_ret {A} (a : A) : preserves keys_ok (ret a).
Proof. by intros st H. Qed.

Lemma preserves_throw {A} e : preserves keys_ok (@throw A e).
Proof. by intros st H. Qed.

Lemma preserves_get_schema : preserves keys_ok get_schema.
Proof. by intros st H. Qed.

Lemma preserves_bind {A B} (m : M A) (k : A -> M B) :
  preserves keys_ok m -> (forall a, preserves keys_ok (k a)) ->
  preserves keys_ok (bind m k).
Proof.
  intros Hm Hk st H. unfold bind. specialize (Hm st H).
  destruct (m st) as [st' [e|a]]; [done|]. by apply Hk.
Qed.

Lemma preserves_transaction {A} (body : M A) :
  preserves keys_ok body -> preserves keys_ok (transaction body).
Proof.
  intros Hb st H. unfold transaction. specialize (Hb st H).
  destruct (body st) as [st' [e|a]]; [|done].
  simpl. intros tbl rel Hl. by apply (H tbl).
Qed.

Lemma preserves_statement {A} table (f : Relation -> Error + (Relation * A)) :
  (forall rel rel' a, relation_ok rel -> f rel = inr (rel', a) -> relation_ok rel') ->
  preserves keys_ok (statement table f).
Proof.
  intros Hf st H. unfold statement.
  destruct (database st !! table) as [rel|] eqn:E; [|done].
  destruct (f rel) as [e|[rel' a]] eqn:Ef; [done|].
  simpl. apply keys_ok_set; [done|]. eapply Hf; [|exact Ef]. by apply (H table).
Qed.

Lemma preserves_selectFrom table conds : preserves keys_ok (selectFrom table conds).
Proof.
  apply preserves_statement. intros rel rel' a H Hf. cbn beta in Hf.
  by injection Hf as <- _.
Qed.

Lemma preserves_insertInto table vals : preserves keys_ok (insertInto table vals).
Proof.
  apply preserves_statement. intros rel rel' a Hok H.
  unfold insert_rows in H. destruct (check_rows _ _); [done|].
  destruct (pk_unique _ _) eqn:E; [|done]. injection H as <- _.
  destruct Hok as [Hpk _]. by split.
Qed.

Lemma preserves_updateTable table values conds :
  preserves keys_ok (updateTable table values conds).
Proof.
  apply preserves_statement. intros rel rel' a Hok H.
  unfold update_rows in H. destruct (bool_decide _); [done|].
  destruct (check_rows _ _); [done|].
  destruct (pk_unique _ _) eqn:E; [|done]. injection H as <- _.
  destruct Hok as [Hpk _]. by split.
Qed.

Lemma preserves_deleteFrom table conds : preserves keys_ok (deleteFrom table conds).
Proof.
  apply preserves_statement. intros rel rel' a [Hpk Hu] Hf. cbn beta in Hf.
  unfold delete_rows in Hf. injection Hf as <- _.
  split; [done|]. simpl. by apply pk_unique_filter.
Qed.

Lemma preserves_first q :
  preserves keys_ok q -> preserves keys_ok (executeTakeFirst q).
Proof.
  intros H. apply preserves_bind; [done|]. intros rows. apply preserves_ret.
Qed.

Lemma preserves_first_or_throw q :
  preserves keys_ok q -> preserves keys_ok (executeTakeFirstOrThrow q).
Proof.
  intros H. apply preserves_bind; [done|].
  intros [|r rows]; [apply preserves_throw|apply preserves_ret].
Qed.

Lemma preserves_deserializeRowM tableName row :
  preserves keys_ok (deserializeRowM tableName row).
Proof.
  apply preserves_bind; [apply preserves_get_schema|]. intros schema.
  destruct (deserializeRow _ _ _); [apply preserves_ret|apply preserves_throw].
Qed.

Lemma preserves_deserializeRows tableName rows :
  preserves keys_ok (deserializeRows tableName rows).
Proof.
  induction rows as [|r rows IH]; [apply preserves_ret|].
  apply preserves_bind; [apply preserves_deserializeRowM|]. intros x.
  apply preserves_bind; [done|]. intros xs. apply preserves_ret.
Qed.

Lemma preserves_write_version tableName e formattedId latestRow updateRow :
  preserves keys_ok (write_version tableName e formattedId latestRow updateRow).
Proof.
  unfold write_version. destruct (js_gt _ _); [apply preserves_throw|].
  destruct (js_eq _ _).
  - apply preserves_bind; [apply preserves_get_schema|]. intros schema.
    apply preserves_first_or_throw, preserves_updateTable.
  - apply preserves_bind; [apply preserves_get_schema|]. intros schema.
    apply preserves_bind; [apply preserves_updateTable|]. intros _.
    apply preserves_first_or_throw, preserves_insertInto.
Qed.

Lemma preserves_update_row tableName id data latestRow :
  preserves keys_ok (update_row tableName id data latestRow).
Proof.
  destruct data as [d|fn]; [apply preserves_ret|].
  apply preserves_bind; [apply preserves_deserializeRowM|]. intros cur.
  apply preserves_ret.
Qed.

Lemma preserves_create tableName (c : Checkpoint) id data :
  preserves keys_ok (create encodeCheckpoint tableName c id data).
Proof.
  apply preserves_bind.
  - apply preserves_first_or_throw, preserves_insertInto.
  - intros row. apply preserves_deserializeRowM.
Qed.

Lemma preserves_insert_chunks table cs : preserves keys_ok (insert_chunks table cs).
Proof.
  induction cs as [|c cs IH]; [apply preserves_ret|].
  intros st H. cbn [insert_chunks].
  pose proof (preserves_insertInto table c st H) as H1.
  destruct (insertInto table c st) as [st1 [e|rows]]; simpl in *.
  - by apply IH.
  - specialize (IH st1 H1).
    by destruct (insert_chunks table cs st1) as [st2 [e|rest]].
Qed.

Lemma preserves_createMany tableName (c : Checkpoint) data :
  preserves keys_ok (createMany encodeCheckpoint tableName c data).
Proof.
  apply preserves_bind; [apply preserves_insert_chunks|].
  intros rows. apply preserves_deserializeRows.
Qed.

Lemma preserves_update tableName (c : Checkpoint) id data :
  preserves keys_ok (update encodeCheckpoint tableName c id data).
Proof.
  apply preserves_bind; [|intros row; apply preserves_deserializeRowM].
  apply preserves_transaction.
  apply preserves_bind; [apply preserves_get_schema|]. intros schema.
  apply preserves_bind; [apply preserves_first_or_throw, preserves_selectFrom|].
  intros latestRow.
  apply preserves_bind; [apply preserves_update_row|]. intros updateRow.
  apply preserves_write_version.
Qed.

Lemma preserves_update_each tableName e data latestRows :
  preserves keys_ok (update_each tableName e data latestRows).
Proof.
  induction latestRows as [|r rows IH]; [apply preserves_ret|].
  cbn [update_each]. apply preserves_bind.
  - destruct data as [d|fn]; [apply preserves_ret|].
    apply preserves_bind; [apply preserves_deserializeRowM|]. intros cur.
    apply preserves_ret.
  - intros updateRow.
    apply preserves_bind; [apply preserves_write_version|]. intros row.
    apply preserves_bind; [done|]. intros xs. apply preserves_ret.
Qed.

Lemma preserves_updateMany tableName (c : Checkpoint) where_ data :
  preserves keys_ok (updateMany encodeCheckpoint tableName c where_ data).
Proof.
  apply preserves_bind; [|intros rows; apply preserves_deserializeRows].
  apply preserves_transaction.
  apply preserves_bind; [apply preserves_selectFrom|]. intros latestRows.
  apply preserves_update_each.
Qed.

Lemma preserves_upsert tableName (c : Checkpoint) id create_ update_ :
  preserves keys_ok (upsert encodeCheckpoint tableName c id create_ update_).
Proof.
  apply preserves_bind; [|intros row; apply preserves_deserializeRowM].
  apply preserves_transaction.
  apply preserves_bind; [apply preserves_get_schema|]. intros schema.
  apply preserves_bind; [apply preserves_first, preserves_selectFrom|].
  intros [latestRow|].
  - apply preserves_bind; [apply preserves_update_row|]. intros updateRow.
    apply preserves_write_version.
  - apply preserves_first_or_throw, preserves_insertInto.
Qed.

Lemma preserves_delete tableName (c : Checkpoint) id :
  preserves keys_ok (delete encodeCheckpoint tableName c id).
Proof.
  apply preserves_transaction.
  apply preserves_bind; [apply preserves_get_schema|]. intros schema.
  apply preserves_bind; [apply preserves_first, preserves_deleteFrom|].
  intros [deletedRow|]; [apply preserves_ret|].
  apply preserves_bind; [apply preserves_first, preserves_updateTable|].
  intros deletedRow. apply preserves_ret.
Qed.

Lemma preserves_revert_tables e names : preserves keys_ok (revert_tables e names).
Proof.
  induction names as [|n names IH]; [apply preserves_ret|].
  cbn [revert_tables]. apply preserves_bind; [|by intros _].
  apply preserves_bind; [apply preserves_deleteFrom|]. intros _.
  apply preserves_bind; [apply preserves_updateTable|]. intros _.
  apply preserves_ret.
Qed.

Lemma preserves_revert (c : Checkpoint) : preserves keys_ok (revert encodeCheckpoint c).
Proof.
  apply preserves_transaction.
  apply preserves_bind; [apply preserves_get_schema|]. intros schema.
  apply preserves_revert_tables.
Qed.

Lemma preserves_create_tables schema_arg ts :
  preserves keys_ok (create_tables schema_arg ts).
Proof.
  induction ts as [|[tableName t] ts IH]; [apply preserves_ret|].
  cbn [create_tables]. apply preserves_bind; [|by intros _].
  intros st H. destruct (build_table schema_arg t) as [e|rel] eqn:E; [done|].
  simpl. apply keys_ok_set; [done|].
  apply build_table_inv in E as (Hpk & Hrows & _).
  split; [done|]. rewrite Hrows. reflexivity.
Qed.

Lemma keys_ok_database st st' :
  database st' = database st -> keys_ok st -> keys_ok st'.
Proof. intros Hdb H tbl rel Hl. rewrite Hdb in Hl. by apply (H tbl). Qed.

Lemma preserves_reload schema : preserves keys_ok (reload schema).
Proof.
  intros st H. unfold reload.
  destruct (this_schema st) as [s0|], schema as [s|]; try done;
    apply (preserves_transaction _ (preserves_create_tables _ _));
    by apply (keys_ok_database st).
Qed.

Lemma preserves_perform (op : Operation Checkpoint) :
  preserves keys_ok (fun st => (perform encodeCheckpoint op st, inr tt)).
Proof.
  intros st H. simpl. destruct op; simpl.
  - by apply preserves_create.
  - by apply preserves_createMany.
  - by apply preserves_update.
  - by apply preserves_updateMany.
  - by apply preserves_upsert.
  - by apply preserves_delete.
  - by apply preserves_revert.
Qed.

Lemma keys_ok_perform_all (ops : list (Operation Checkpoint)) st :
  keys_ok st -> keys_ok (perform_all encodeCheckpoint ops st).
Proof.
  revert st. induction ops as [|op ops' IH]; intros st H; [done|].
  simpl. apply IH. by apply (preserves_perform op st).
Qed.


End Sequences.

(** * Properties of the request queue *)

Module RequestQueueFacts.

Import RequestQueue.

(** ** The scheduling parameters *)

Lemma Qgt_bool_true (a b : Q) : Qgt_bool a b = true <-> (b < a)%Q.
Proof.
  unfold Qgt_bool. rewrite negb_true_iff. split.
  - intros H. apply Qnot_le_lt. intros Hle.
    apply Qle_bool_iff in Hle. congruence.
  - intros H. destruct (Qle_bool a b) eqn:E; [|done].
    apply Qle_bool_iff in E. exfalso. by apply (Qlt_not_le _ _ H).
Qed.

Lemma Qgt_bool_false (a b : Q) : Qgt_bool a b = false <-> (a <= b)%Q.
Proof.
  unfold Qgt_bool. rewrite negb_false_iff. apply Qle_bool_iff.
Qed.

Lemma rate_at_threshold (R : Q) : (0 < R)%Q -> (1000 / R == 50)%Q -> (R == 20)%Q.
Proof.
  intros HR H.
  assert (Hm : (1000 == 50 * R)%Q).
  { rewrite <- H. field. intros H0. rewrite H0 in HR. by apply Qlt_irrefl in HR. }
  lra.
Qed.

(** C9. For a positive rate, the interval and the batch size the queue
    computes are the ones of the specification: [max(1000/R, 50)], and 1
    when the interval is [1000/R], [floor(R/20)] otherwise. *)
Theorem scheduling_parameters (R : Q) :
  (0 < R)%Q ->
  (interval R == spec_interval R)%Q
  /\ requestBatchSize R = spec_batchSize R.
Proof.
  intros HR. unfold interval, requestBatchSize, spec_batchSize, spec_interval.
  destruct (Qgt_bool (1000 / R) 50) eqn:E.
  - apply Qgt_bool_true in E.
    assert (Hmax : (Qmax (1000 / R) 50 == 1000 / R)%Q)
      by (apply Q.max_l; by apply Qlt_le_weak).
    split; [by symmetry|].
    by rewrite (proj2 (Qeq_bool_iff _ _) Hmax).
  - apply Qgt_bool_false in E.
    assert (Hmax : (Qmax (1000 / R) 50 == 50)%Q) by (by apply Q.max_r).
    split; [by symmetry|].
    destruct (Qeq_bool (Qmax (1000 / R) 50) (1000 / R)) eqn:Eq; [|done].
    apply Qeq_bool_iff in Eq. rewrite Hmax in Eq.
    assert (H20 : (R == 20)%Q) by (apply rate_at_threshold; [done|by symmetry]).
    rewrite (Qfloor_comp (R / 20) 1); [done|].
    rewrite H20. reflexivity.
Qed.

Lemma scheduling_parameters_witness :
  (interval 100 == 50)%Q /\ requestBatchSize 100 = 5%Z
  /\ (interval 4 == 250)%Q /\ requestBatchSize 4 = 1%Z.
Proof.
  assert (H100 : (0 < 100)%Q) by reflexivity.
  assert (H4 : (0 < 4)%Q) by reflexivity.
  destruct (scheduling_parameters 100 H100) as [Ha Hb].
  destruct (scheduling_parameters 4 H4) as [Hc Hd].
  split; [rewrite Ha; reflexivity|]. split; [rewrite Hb; reflexivity|].
  split; [rewrite Hc; reflexivity|]. rewrite Hd; reflexivity.
Defined.

(** ** Tasks dropped by [clear] *)

Lemma live_dispatch_one task rest s :
  queue s = task :: rest ->
  live (dispatch_one task rest s) ≡ₚ live s.
Proof.
  intros Hq. unfold live. rewrite Hq.
  cbn [dispatch_one queue inflight].
  rewrite !fmap_app. cbn [fmap list_fmap snd promise app].
  rewrite (assoc_L (++)). rewrite <- Permutation_middle.
  by rewrite app_nil_r.
Qed.

Lemma dispatch_live n s :
  live (dispatch n s) ≡ₚ live s /\ promises (dispatch n s) = promises s.
Proof.
  revert s. induction n as [|n IH]; intros s; simpl; [done|].
  destruct (queue s) as [|task rest] eqn:Hq; [done|].
  pose proof (live_dispatch_one task rest s Hq) as H1.
  destruct rest as [|t' rest']; [done|].
  destruct (IH (dispatch_one task (t' :: rest') s)) as [H2 H3].
  split; [by rewrite H2|by rewrite H3].
Qed.

Lemma arm_timer_live delay s :
  live (arm_timer delay s) = live s /\ promises (arm_timer delay s) = promises s.
Proof. unfold arm_timer. by destruct (timing s). Qed.

Lemma processQueue_live R now s :
  live (processQueue R now s) ≡ₚ live s
  /\ promises (processQueue R now s) = promises s.
Proof.
  unfold processQueue. destruct (negb (on s)); [done|].
  destruct (queue s) as [|t q] eqn:Hq; [done|].
  destruct (Qle_bool _ _).
  - destruct (arm_timer_live (interval R - 0)
                (dispatch (Z.to_nat (requestBatchSize R)) (set_lastRequestTime now s)))
      as [H1 H2].
    destruct (dispatch_live (Z.to_nat (requestBatchSize R)) (set_lastRequestTime now s))
      as [H3 H4].
    rewrite H1, H2, H3, H4. done.
  - destruct (arm_timer_live (interval R - inject_Z (now - lastRequestTime s)) s)
      as [H1 H2].
    by rewrite H1, H2.
Qed.

Lemma Inv_perm s s' :
  live s' ≡ₚ live s -> promises s' = promises s -> Inv s -> Inv s'.
Proof.
  intros Hl Hp [Hnd Hpend]. split.
  - by rewrite Hl.
  - intros p Hin. rewrite Hp. apply Hpend. by rewrite <- Hl.
Qed.

Lemma Orphan_perm p s s' :
  live s' ≡ₚ live s -> promises s' = promises s -> Orphan p s -> Orphan p s'.
Proof.
  intros Hl Hp [Hpend Hout]. split; [by rewrite Hp|by rewrite Hl].
Qed.

Lemma live_enqueue p s :
  live (enqueue p s) ≡ₚ length (promises s) :: live s.
Proof.
  unfold live. simpl. rewrite !fmap_app. simpl.
  rewrite <- (assoc_L (++)). simpl. by rewrite <- Permutation_middle.
Qed.

Lemma Inv_enqueue p s : Inv s -> Inv (enqueue p s).
Proof.
  intros [Hnd Hpend]. split.
  - rewrite live_enqueue. apply NoDup_cons. split; [|done].
    intros Hin. apply Hpend in Hin. apply lookup_lt_Some in Hin. lia.
  - intros q Hq. rewrite live_enqueue in Hq. simpl.
    apply elem_of_cons in Hq as [->|Hq].
    + by rewrite lookup_app_r, Nat.sub_diag.
    + rewrite lookup_app_l; [by apply Hpend|].
      eapply lookup_lt_Some. by apply Hpend.
Qed.

Lemma Orphan_enqueue q p s : Orphan q s -> Orphan q (enqueue p s).
Proof.
  intros [Hpend Hout]. split.
  - simpl. rewrite lookup_app_l; [done|]. by eapply lookup_lt_Some.
  - rewrite live_enqueue. intros [->|Hin]%elem_of_cons; [|done].
    apply lookup_lt_Some in Hpend. lia.
Qed.

Lemma live_clear s : live (clear s) = promise <$> (inflight s).*2.
Proof. reflexivity. Qed.

Lemma live_split s :
  live s = (promise <$> queue s) ++ (promise <$> (inflight s).*2).
Proof. unfold live. by rewrite fmap_app. Qed.

Lemma Inv_clear s : Inv s -> Inv (clear s).
Proof.
  intros [Hnd Hpend]. rewrite live_split in Hnd, Hpend. split.
  - rewrite live_clear. by apply NoDup_app in Hnd as (_ & _ & ?).
  - intros p Hp. rewrite live_clear in Hp. simpl. apply Hpend.
    apply elem_of_app. by right.
Qed.

Lemma Orphan_clear q s : Orphan q s -> Orphan q (clear s).
Proof.
  intros [Hpend Hout]. split; [done|]. rewrite live_clear. intros Hin.
  apply Hout. rewrite live_split. apply elem_of_app. by right.
Qed.

(** The promise of a queued task is an orphan once the queue is cleared. *)
Lemma Orphan_after_clear task s :
  Inv s -> task ∈ queue s -> Orphan (promise task) (clear s).
Proof.
  intros [Hnd Hpend] Hin. rewrite live_split in Hnd, Hpend.
  assert (Hq : promise task ∈ promise <$> queue s) by by apply list_elem_of_fmap_2.
  split.
  - simpl. apply Hpend, elem_of_app. by left.
  - rewrite live_clear. apply NoDup_app in Hnd as (_ & Hdisj & _). by apply Hdisj.
Qed.

Lemma live_respond k result s _id task :
  inflight s !! k = Some (_id, task) ->
  live s ≡ₚ promise task :: live (respond k result s).
Proof.
  intros Hk. unfold respond. rewrite Hk. unfold live.
  cbn [queue inflight].
  rewrite <- (take_drop_middle (inflight s) k (_id, task) Hk) at 1.
  rewrite !fmap_app, !fmap_cons. cbn [snd].
  by rewrite <- !Permutation_middle.
Qed.

Lemma settle_other p q result ps :
  p <> q -> settle p result ps !! q = ps !! q.
Proof.
  intros Hne. unfold settle. destruct (ps !! p) as [[| |]|]; try done.
  by apply list_lookup_insert_ne.
Qed.

Lemma Inv_respond k result s : Inv s -> Inv (respond k result s).
Proof.
  intros [Hnd Hpend].
  destruct (inflight s !! k) as [[_id task]|] eqn:Hk;
    [|by unfold respond; rewrite Hk].
  pose proof (live_respond k result s _id task Hk) as Hl.
  rewrite Hl in Hnd. apply NoDup_cons in Hnd as [Hout Hnd].
  split; [done|]. intros p Hp.
  assert (Hne : promise task <> p) by (intros Heq; apply Hout; by rewrite Heq).
  unfold respond. rewrite Hk. simpl. rewrite settle_other by done.
  apply Hpend. rewrite Hl. by apply list_elem_of_further.
Qed.

Lemma Orphan_respond q k result s : Orphan q s -> Orphan q (respond k result s).
Proof.
  intros [Hpend Hout].
  destruct (inflight s !! k) as [[_id task]|] eqn:Hk;
    [|by unfold respond; rewrite Hk].
  pose proof (live_respond k result s _id task Hk) as Hl.
  rewrite Hl in Hout. apply not_elem_of_cons in Hout as [Hne Hout].
  split; [|done]. unfold respond. rewrite Hk. simpl.
  by rewrite settle_other.
Qed.

Lemma fire_live R now s :
  live (fire R now s) ≡ₚ live s /\ promises (fire R now s) = promises s.
Proof.
  unfold fire. destruct (timers s) as [|d rest]; [done|].
  match goal with
  | |- context [processQueue R now ?s0] =>
      destruct (processQueue_live R now s0) as [H1 H2]
  end.
  split; [exact H1|exact H2].
Qed.

Lemma Inv_step R s ev : Inv s -> Inv (step R s ev).
Proof.
  intros H. destruct ev as [p now|now| | |now|k result]; simpl.
  - destruct (processQueue_live R now (enqueue p s)) as [H1 H2].
    eapply Inv_perm; [exact H1|exact H2|]. by apply Inv_enqueue.
  - destruct (processQueue_live R now (set_on true s)) as [H1 H2].
    eapply Inv_perm; [exact H1|exact H2|]. exact H.
  - exact H.
  - by apply Inv_clear.
  - destruct (fire_live R now s) as [H1 H2]. by eapply Inv_perm.
  - by apply Inv_respond.
Qed.

Lemma Orphan_step q R s ev : Orphan q s -> Orphan q (step R s ev).
Proof.
  intros H. destruct ev as [p now|now| | |now|k result]; simpl.
  - destruct (processQueue_live R now (enqueue p s)) as [H1 H2].
    eapply Orphan_perm; [exact H1|exact H2|]. by apply Orphan_enqueue.
  - destruct (processQueue_live R now (set_on true s)) as [H1 H2].
    eapply Orphan_perm; [exact H1|exact H2|]. exact H.
  - exact H.
  - by apply Orphan_clear.
  - destruct (fire_live R now s) as [H1 H2]. by eapply Orphan_perm.
  - by apply Orphan_respond.
Qed.

Lemma Inv_init : Inv init.
Proof.
  split; [apply NoDup_nil_2|]. intros p Hp. by apply elem_of_nil in Hp.
Qed.

Lemma Inv_run R evs s : Inv s -> Inv (run R s evs).
Proof.
  revert s. induction evs as [|ev evs IH]; intros s H; [done|].
  simpl. by apply IH, Inv_step.
Qed.

Lemma Orphan_run q R evs s : Orphan q s -> Orphan q (run R s evs).
Proof.
  revert s. induction evs as [|ev evs IH]; intros s H; [done|].
  simpl. by apply IH, Orphan_step.
Qed.

(** C10. In every state the queue can reach: the promise of a task that is
    in the queue when [clear()] is called stays pending whatever happens
    afterwards; a call the transport has outstanding is still outstanding
    after [clear()], and its promise is settled by the answer of the
    transport, fulfilled or rejected as the answer is. *)
Theorem clear_leaves_promises_pending (R : Q) (evs : list Event) :
  let s := run R init evs in
  (forall task evs',
     task ∈ queue s ->
     promises (run R (step R s Clear) evs') !! promise task = Some Pending)
  /\ (forall k _id task result,
        inflight s !! k = Some (_id, task) ->
        inflight (step R s Clear) !! k = Some (_id, task)
        /\ promises (step R (step R s Clear) (Respond k result)) !! promise task
           = Some (outcome result)).
Proof.
  intros s. assert (HI : Inv s) by apply Inv_run, Inv_init.
  split.
  - intros task evs' Hin.
    by apply (Orphan_run (promise task) R evs' (clear s)), Orphan_after_clear.
  - intros k _id task result Hk. split; [exact Hk|].
    simpl. unfold respond. simpl. rewrite Hk. simpl.
    destruct HI as [_ Hpend].
    assert (Hp : promises s !! promise task = Some Pending).
    { apply Hpend. unfold live. apply list_elem_of_fmap_2, elem_of_app. right.
      apply list_elem_of_fmap. exists (_id, task). split; [done|].
      by eapply list_elem_of_lookup_2. }
    unfold settle. rewrite Hp. apply list_lookup_insert_eq.
    by eapply lookup_lt_Some.
Qed.

(** The theorem is about something: a run in which [clear()] finds a task
    in the queue and a call outstanding. *)
Example clear_example :
  let s := run 1 init [Request "eth_chainId" 5000; Request "eth_blockNumber" 5000] in
  queue s = [{| params := "eth_blockNumber"; promise := 1 |}]
  /\ inflight s = [(0%Z, {| params := "eth_chainId"; promise := 0 |})]
  /\ promises (run 1 s [Clear; Timeout 6000; Respond 0 (inr "0x1")])
     = [Fulfilled "0x1"; Pending].
Proof. vm_compute. done. Qed.

Lemma clear_leaves_promises_pending_witness :
  promises
    (run 1 (step 1 (run 1 init [Request "eth_chainId" 5000;
                                Request "eth_blockNumber" 5000]) Clear)
       [Timeout 6000; Respond 0 (inr "0x1"); Start 9000])
    !! 1%nat
  = Some Pending.
Proof.
  pose proof (clear_leaves_promises_pending 1
                [Request "eth_chainId" 5000; Request "eth_blockNumber" 5000]) as H.
  cbv zeta in H. destruct H as [H _].
  apply (H {| params := "eth_blockNumber"; promise := 1 |}
           [Timeout 6000; Respond 0 (inr "0x1"); Start 9000]).
  vm_compute. apply list_elem_of_here.
Defined.

End RequestQueueFacts.

(** * More properties of the store methods *)

Lemma insert_one_run table (v : Row) st :
  executeTakeFirstOrThrow (insertInto table [v]) st
  = match database st !! table with
    | None => (st, inl (DatabaseError undefined_table))
    | Some rel =>
        match insert_rows [v] rel with
        | inl e => (st, inl e)
        | inr (rel', _) =>
            (with_database st (<[table := rel']> (database st)),
             inr (fill (rel_columns rel) v))
        end
    end.
Proof.
  unfold executeTakeFirstOrThrow, bind, insertInto, statement.
  destruct (database st !! table) as [rel|]; [|done].
  unfold insert_rows. destruct (check_rows _ _); [done|].
  by destruct (pk_unique _ _).
Qed.

Lemma insert_one_throw table (v : Row) st st' e :
  executeTakeFirstOrThrow (insertInto table [v]) st = (st', inl e) -> st' = st.
Proof.
  rewrite insert_one_run. destruct (database st !! table) as [rel|].
  - destruct (insert_rows _ _) as [?|[? ?]]; by intros [=].
  - by intros [=].
Qed.

Lemma select_first_run table conds st rel :
  database st !! table = Some rel ->
  executeTakeFirst (selectFrom table conds) st
  = (st, inr (head (select_rows conds rel))).
Proof.
  intros H. unfold executeTakeFirst, bind, selectFrom.
  rewrite (statement_run _ _ _ _ H). by rewrite insert_id, with_database_id.
Qed.

Lemma select_first_or_throw_run table conds st rel :
  database st !! table = Some rel ->
  executeTakeFirstOrThrow (selectFrom table conds) st
  = match select_rows conds rel with
    | r :: _ => (st, inr r)
    | [] => (st, inl NoResultError)
    end.
Proof.
  intros H. unfold executeTakeFirstOrThrow, bind, selectFrom.
  rewrite (statement_run _ _ _ _ H). rewrite insert_id, with_database_id by done.
  by destruct (select_rows conds rel).
Qed.

Lemma select_undefined table conds st :
  database st !! table = None ->
  selectFrom table conds st = (st, inl (DatabaseError undefined_table)).
Proof. intros H. unfold selectFrom, statement. by rewrite H. Qed.

(** ** [reload] *)

Lemma string_length_app (a b : string) :
  String.length (a +:+ b) = String.length a + String.length b.
Proof. induction a as [|c a IH]; [done|]. simpl. by rewrite IH. Qed.

Lemma versioned_inj a b : versioned a = versioned b -> a = b.
Proof.
  unfold versioned. revert b. induction a as [|c a IH]; intros b H.
  - destruct b as [|c b]; [done|]. exfalso.
    apply (f_equal String.length) in H. simpl in H.
    rewrite string_length_app in H. simpl in H. lia.
  - destruct b as [|c' b].
    + exfalso. apply (f_equal String.length) in H. simpl in H.
      rewrite string_length_app in H. simpl in H. lia.
    + simpl in H. injection H as -> H. f_equal. by apply IH.
Qed.

Lemma create_tables_schema schema_arg ts st :
  this_schema (create_tables schema_arg ts st).1 = this_schema st.
Proof.
  revert st. induction ts as [|[tableName t] ts IH]; intros st; [done|].
  cbn [create_tables]. unfold bind.
  destruct (build_table schema_arg t); [done|]. by rewrite IH.
Qed.

Lemma create_tables_run schema_arg ts st st' :
  create_tables schema_arg ts st = (st', inr tt) ->
  NoDup ts.*1 ->
  (forall tableName t, (tableName, t) ∈ ts ->
     exists rel, build_table schema_arg t = inr rel
                 /\ database st' !! versioned tableName = Some rel)
  /\ (forall k, (forall tableName, tableName ∈ ts.*1 -> k <> versioned tableName) ->
        database st' !! k = database st !! k).
Proof.
  revert st. induction ts as [|[tableName t] ts IH]; intros st H Hnd.
  - injection H as <-. split; [|done].
    intros tableName t Hin. by apply elem_of_nil in Hin.
  - cbn [create_tables] in H. unfold bind in H.
    destruct (build_table schema_arg t) as [e|rel] eqn:Hb; [discriminate|].
    rewrite fmap_cons in Hnd. apply NoDup_cons in Hnd as [Hfresh Hnd].
    destruct (IH _ H Hnd) as [IH1 IH2]. split.
    + intros tableName' t' Hin. apply elem_of_cons in Hin as [[= -> ->]|Hin].
      * exists rel. split; [done|]. rewrite IH2.
        -- apply lookup_insert_eq.
        -- intros other Hother Heq. apply versioned_inj in Heq as ->.
           by apply Hfresh.
      * by apply IH1.
    + intros k Hk. rewrite IH2.
      * apply lookup_insert_ne. intros Heq. apply (Hk tableName); [|done].
        rewrite fmap_cons. by left.
      * intros other Hother. apply Hk. rewrite fmap_cons. by right.
Qed.

Lemma create_tables_throw schema_arg ts st st' e :
  create_tables schema_arg ts st = (st', inl e) ->
  exists tableName t, (tableName, t) ∈ ts /\ build_table schema_arg t = inl e.
Proof.
  revert st. induction ts as [|[tableName t] ts IH]; intros st H; [discriminate|].
  cbn [create_tables] in H. unfold bind in H.
  destruct (build_table schema_arg t) as [e'|rel] eqn:Hb.
  - injection H as <- <-. exists tableName, t. split; [by left|done].
  - destruct (IH _ H) as (tn & t' & Hin & Hb'). exists tn, t'.
    split; [by right|done].
Qed.

(** ** What [revert] leaves *)

Lemma string_not_le_lt (a b : string) : string_le a b = false -> string_lt b a = true.
Proof.
  unfold string_le, string_lt. rewrite (String.compare_antisym b a).
  destruct (String.compare a b); simpl; congruence.
Qed.

Lemma matches_one column op v (r : Row) :
  matches [Where column op v] r = compare_values op (cell r column) v.
Proof. unfold matches. simpl. apply andb_true_r. Qed.

(** The rows of a relation after the two statements of [revert]. *)
Lemma revert_rel_rows e rel rel' :
  revert_rel e rel = inr rel' ->
  rel_rows rel'
  = (fun r => if matches [Where "effectiveToCheckpoint" OpGe (VText e)] r
              then {["effectiveToCheckpoint" := latest]} ∪ r else r)
      <$> List.filter
            (fun r => negb (matches [Where "effectiveFromCheckpoint" OpGe (VText e)] r))
            (rel_rows rel).
Proof.
  unfold revert_rel, update_rows, delete_rows. cbn [fst rel_rows with_rows].
  destruct (bool_decide _); [discriminate|].
  destruct (check_rows _ _); [discriminate|].
  destruct (pk_unique _ _); [|discriminate].
  by intros [= <-].
Qed.

Lemma filter_same_length {A} (f : A -> bool) (l : list A) :
  length (List.filter f l) = length l -> forall x, x ∈ l -> f x = true.
Proof.
  induction l as [|a l IH]; intros Hlen x Hx; [by apply elem_of_nil in Hx|].
  simpl in Hlen. pose proof (List.filter_length_le f l) as Hle.
  destruct (f a) eqn:Ha; simpl in Hlen; [|lia].
  apply elem_of_cons in Hx as [->|Hx]; [done|]. apply IH; [lia|done].
Qed.

Lemma fmap_fixed {A} (g : A -> A) (l : list A) :
  g <$> l = l -> forall x, x ∈ l -> g x = x.
Proof.
  induction l as [|a l IH]; intros H x Hx; [by apply elem_of_nil in Hx|].
  injection H as Ha Hl. apply elem_of_cons in Hx as [->|Hx]; [done|].
  by apply IH.
Qed.

Lemma fmap_id_on {A} (g : A -> A) (l : list A) :
  (forall x, x ∈ l -> g x = x) -> g <$> l = l.
Proof.
  induction l as [|a l IH]; intros H; [done|]. simpl.
  rewrite (H a) by (by left). f_equal. apply IH. intros x Hx. apply H. by right.
Qed.

(** A relation [revert] leaves as it is has no row from the checkpoint on,
    and no row that ends there or later without being current. *)
Lemma revert_rel_fixed_inv e rel :
  revert_rel e rel = inr rel ->
  (forall r, r ∈ rel_rows rel ->
     matches [Where "effectiveFromCheckpoint" OpGe (VText e)] r = false)
  /\ (forall r, r ∈ rel_rows rel ->
        matches [Where "effectiveToCheckpoint" OpGe (VText e)] r = true ->
        {["effectiveToCheckpoint" := latest]} ∪ r = r)
  /\ pk_unique (rel_primary_key rel) (rel_rows rel) = true.
Proof.
  intros H. pose proof (revert_rel_rows _ _ _ H) as Hrows.
  set (P := fun r : Row => negb (matches [Where "effectiveFromCheckpoint" OpGe (VText e)] r)) in *.
  set (g := fun r : Row => if matches [Where "effectiveToCheckpoint" OpGe (VText e)] r
                           then {["effectiveToCheckpoint" := latest]} ∪ r else r) in *.
  assert (HP : forall r, r ∈ rel_rows rel -> P r = true).
  { apply filter_same_length. apply (f_equal length) in Hrows.
    by rewrite length_fmap in Hrows. }
  assert (Hall : List.filter P (rel_rows rel) = rel_rows rel) by by apply filter_all.
  rewrite Hall in Hrows. symmetry in Hrows.
  split; [|split].
  - intros r Hr. specialize (HP r Hr). unfold P in HP.
    by apply negb_true_iff in HP.
  - intros r Hr Hm. pose proof (fmap_fixed g _ Hrows r Hr) as Hg.
    unfold g in Hg. by rewrite Hm in Hg.
  - revert H. unfold revert_rel, update_rows, delete_rows.
    cbn [fst rel_rows with_rows rel_primary_key rel_columns].
    destruct (bool_decide _); [discriminate|].
    destruct (check_rows _ _); [discriminate|].
    destruct (pk_unique _ _) eqn:Hu; [|discriminate].
    intros _. fold P in Hu. fold g in Hu. by rewrite Hall, Hrows in Hu.
Qed.

(** The writes at a checkpoint [e] on such a relation, closing current
    versions at [e] and adding versions that start at [e], are undone by
    the two statements of [revert]. *)
Lemma revert_rel_undo e rel (closes : Row -> bool) (new : list Row) :
  revert_rel e rel = inr rel ->
  (forall r, r ∈ rel_rows rel -> check_row (rel_columns rel) r = None) ->
  (forall r, r ∈ rel_rows rel -> closes r = true ->
     r !! "effectiveToCheckpoint" = Some latest) ->
  (forall v, v ∈ new -> cell v "effectiveFromCheckpoint" = VText e) ->
  revert_rel e
    (with_rows rel
       (((fun r => if closes r then close_at e r else r) <$> rel_rows rel) ++ new))
  = inr rel.
Proof.
  intros Hfix Hok Hcl Hnew.
  destruct (revert_rel_fixed_inv _ _ Hfix) as (Hfrom & Hto & Hpk).
  set (h := fun r : Row => if closes r then close_at e r else r).
  set (P := fun r : Row => negb (matches [Where "effectiveFromCheckpoint" OpGe (VText e)] r)).
  set (M := matches [Where "effectiveToCheckpoint" OpGe (VText e)]).
  set (g := fun r : Row => if M r then {["effectiveToCheckpoint" := latest]} ∪ r else r).
  assert (Hh_from : forall r, cell (h r) "effectiveFromCheckpoint"
                              = cell r "effectiveFromCheckpoint").
  { intros r. unfold h, close_at. destruct (closes r); [|done].
    by rewrite cell_singleton_union_ne. }
  assert (Hfilter : List.filter P ((h <$> rel_rows rel) ++ new) = h <$> rel_rows rel).
  { rewrite List.filter_app.
    rewrite (filter_all P (h <$> rel_rows rel)).
    - rewrite (proj2 (filter_none P new)); [by rewrite app_nil_r|].
      intros v Hv. unfold P. rewrite matches_one, (Hnew v Hv). simpl.
      by rewrite string_le_refl.
    - intros x Hx. apply list_elem_of_fmap in Hx as (r & -> & Hr).
      unfold P. rewrite matches_one, Hh_from, <- matches_one.
      by rewrite (Hfrom r Hr). }
  assert (Hgh : forall r, r ∈ rel_rows rel -> g (h r) = r).
  { intros r Hr. unfold h. destruct (closes r) eqn:Hc.
    - unfold g, M. rewrite matches_one. unfold close_at.
      rewrite cell_singleton_union_eq. simpl. rewrite string_le_refl.
      specialize (Hcl r Hr Hc). apply map_eq. intros k.
      destruct (decide (k = "effectiveToCheckpoint")) as [->|Hk].
      + rewrite lookup_union_l'; [by rewrite lookup_singleton_eq|].
        by rewrite lookup_singleton_eq.
      + rewrite !lookup_union_r by (by rewrite lookup_singleton_ne). done.
    - unfold g. destruct (M r) eqn:Hm; [|done]. by apply Hto. }
  unfold revert_rel, delete_rows. cbn [fst rel_rows with_rows].
  fold h. fold P. rewrite Hfilter.
  unfold update_rows. cbn [rel_rows rel_columns rel_primary_key with_rows].
  rewrite bool_decide_eq_false_2; cycle 1.
  { intros Hempty. apply (f_equal (fun m : Row => m !! "effectiveToCheckpoint")) in Hempty.
    by rewrite lookup_singleton_eq in Hempty. }
  fold M. fold g.
  assert (Hrows : g <$> (h <$> rel_rows rel) = rel_rows rel).
  { rewrite <- list_fmap_compose. by apply fmap_id_on. }
  rewrite Hrows, Hpk.
  rewrite check_rows_None; [by destruct rel|].
  apply Forall_forall. intros x Hx.
  apply list_elem_of_fmap in Hx as (y & -> & Hy).
  apply list_elem_of_In, filter_In in Hy as [Hy Hm].
  apply list_elem_of_In, list_elem_of_fmap in Hy as (r & -> & Hr).
  specialize (Hgh r Hr). unfold g in Hgh. rewrite Hm in Hgh. rewrite Hgh.
  by apply Hok.
Qed.

Lemma bind_at {A B} (m m' : M A) (k : A -> M B) st :
  m st = m' st -> bind m k st = bind m' k st.
Proof. intros H. unfold bind. by rewrite H. Qed.

Lemma transaction_at {A} (b b' : M A) st :
  b st = b' st -> transaction b st = transaction b' st.
Proof. intros H. unfold transaction. by rewrite H. Qed.

Section StoreFacts.

Context {Checkpoint : Type}.
Variable encodeCheckpoint : Checkpoint -> string.

(** ** [upsert] against [create] and [update] *)

(** X6. On an id that has no current version (under the comparator of the
    table) [upsert] is [create] with its [create] argument: the same row is
    inserted, the same row returned, the same error thrown. *)
Theorem upsert_without_current_is_create (tableName : string)
    (c : Checkpoint) (id : Id) (create_ : Row) (update_ : UpdateData)
    (st : Store) :
  (forall rel, database st !! versioned tableName = Some rel ->
     current_of st tableName id rel = []) ->
  upsert encodeCheckpoint tableName c id create_ update_ st
  = create encodeCheckpoint tableName c id create_ st.
Proof.
  intros H. unfold upsert, create.
  set (ins := executeTakeFirstOrThrow (insertInto _ _)).
  set (k := fun row => deserializeRowM tableName row).
  match goal with
  | |- bind (transaction ?b) _ _ = _ => set (body := b)
  end.
  assert (Hbody : body st = ins st \/
                  (database st !! versioned tableName = None
                   /\ body st = (st, inl (DatabaseError undefined_table)))).
  { unfold body. rewrite (bind_run get_schema _ st st (this_schema st) eq_refl).
    destruct (database st !! versioned tableName) as [rel|] eqn:Hdb.
    - left. specialize (H rel eq_refl). unfold current_of, id_condition in H.
      rewrite (bind_run _ _ st st None); [done|].
      by rewrite (select_first_run _ _ _ _ Hdb), H.
    - right. split; [done|]. apply bind_throw.
      unfold executeTakeFirst. apply bind_throw. by apply select_undefined. }
  unfold bind at 1. unfold transaction.
  destruct Hbody as [Hbody|[Hdb Hbody]]; rewrite Hbody.
  - unfold bind. destruct (ins st) as [st' [e|row]] eqn:E; [|done].
    apply insert_one_throw in E as ->. by rewrite with_database_id.
  - rewrite with_database_id. unfold bind, ins. rewrite insert_one_run, Hdb.
    done.
Qed.

(** X7. On an id that has a current version [upsert] is [update] with its
    [update] argument. *)
Theorem upsert_with_current_is_update (tableName : string)
    (c : Checkpoint) (id : Id) (create_ : Row) (update_ : UpdateData)
    (st : Store) (rel : Relation) :
  database st !! versioned tableName = Some rel ->
  current_of st tableName id rel <> [] ->
  upsert encodeCheckpoint tableName c id create_ update_ st
  = update encodeCheckpoint tableName c id update_ st.
Proof.
  intros Hdb Hcur. unfold upsert, update.
  unfold current_of, id_condition in Hcur.
  apply bind_at, transaction_at.
  rewrite !(bind_run get_schema _ st st (this_schema st) eq_refl).
  destruct (select_rows _ rel) as [|latestRow rest] eqn:Hsel; [done|].
  rewrite (bind_run _ _ st st (Some latestRow));
    [|by rewrite (select_first_run _ _ _ _ Hdb), Hsel].
  rewrite (bind_run (executeTakeFirstOrThrow _) _ st st latestRow);
    [done|by rewrite (select_first_or_throw_run _ _ _ _ Hdb), Hsel].
Qed.

(** ** [createMany] *)

Lemma chunks_concat fuel size (rows : list Row) :
  0 < size -> length rows <= fuel ->
  concat (chunks fuel size rows) = rows
  /\ Forall (fun chunk => 0 < length chunk <= size) (chunks fuel size rows).
Proof.
  intros Hsize. revert rows. induction fuel as [|fuel IH]; intros rows Hlen.
  - destruct rows; [done|simpl in Hlen; lia].
  - destruct rows as [|r rows]; [done|].
    cbn [chunks]. set (l := r :: rows) in *.
    destruct (IH (drop size l)) as [Hc Hf].
    { rewrite length_drop. unfold l in *. simpl in *. lia. }
    split.
    + cbn [concat]. rewrite Hc. apply take_drop.
    + constructor; [|done]. rewrite length_take. unfold l. simpl. lia.
Qed.

(** X8. The slices [createMany] inserts are the rows in their order, cut
    into statements of 1000 rows at most, none of them empty. *)
Theorem createMany_slices (rows : list Row) :
  let chunkedRows := chunks (length rows) MAX_BATCH_SIZE rows in
  concat chunkedRows = rows
  /\ Forall (fun chunk => 0 < length chunk <= MAX_BATCH_SIZE) chunkedRows.
Proof.
  apply chunks_concat; [|done]. unfold MAX_BATCH_SIZE. lia.
Qed.

(** X9. [createMany] of one row is [create] of that row. *)
Theorem createMany_of_one_is_create (tableName : string) (c : Checkpoint)
    (id : Id) (data : Row) (st : Store) :
  createMany encodeCheckpoint tableName c [data ∪ {["id" := id_value id]}] st
  = match create encodeCheckpoint tableName c id data st with
    | (st', inr row) => (st', inr [row])
    | (st', inl e) => (st', inl e)
    end.
Proof.
  unfold createMany, create.
  cbn [fmap list_fmap length].
  change (chunks 1 MAX_BATCH_SIZE ?l) with [take MAX_BATCH_SIZE l].
  set (v := new_version _ _).
  change (take MAX_BATCH_SIZE [v]) with [v].
  unfold bind. rewrite insert_one_run.
  cbn [insert_chunks]. unfold insertInto, statement.
  destruct (database st !! versioned tableName) as [rel|]; [|done].
  unfold insert_rows. destruct (check_rows _ _); [done|].
  destruct (pk_unique _ _); [|done].
  cbn [ret fst fmap list_fmap app deserializeRows].
  unfold bind. rewrite !deserializeRowM_run.
  by destruct (deserializeRow _ _ _).
Qed.

(** ** Rows as they are stored and as they are returned *)

(** X10. What [deserializeRow] makes of a stored value is the value that was
    formatted, for the values a column of that kind holds. *)
Theorem deserialize_after_format (column : Column) (v : Value) :
  value_of_column column v = true ->
  deserialize_value column (formatColumnValue v) = Some v.
Proof.
  destruct v as [|b|n|s|json]; [done| | | |].
  - destruct column as [[] o []|[] ref o|type o| |]; try discriminate;
      intros _; by destruct b.
  - destruct column as [[] o []|[] ref o|type o| |]; try discriminate;
      try done.
    unfold value_of_column. rewrite negb_true_iff. intros Hne.
    unfold deserialize_value. cbn [formatColumnValue isOneColumn isManyColumn
      isEnumColumn isReferenceColumn negb andb column_type].
    rewrite bool_decide_eq_false_2; [done|].
    intros [= ->]. discriminate Hne.
  - destruct column as [[] o []|[] ref o|type o| |]; try discriminate;
      try done.
    unfold value_of_column. rewrite negb_true_iff. intros Hne.
    unfold deserialize_value. cbn [formatColumnValue isOneColumn isManyColumn
      isEnumColumn isReferenceColumn negb andb column_type].
    rewrite bool_decide_eq_false_2; [done|].
    intros [= ->]. discriminate Hne.
  - destruct column as [[] o []|[] ref o|type o| |]; try discriminate; done.
Qed.


(** ** What [create] and [delete] leave alone *)

(** X12. [create] of an id that has a current version with exactly this id
    is refused by the primary key, and the store stays as it is. *)
Theorem create_of_stored_id_is_refused (st : Store) (tableName : string)
    (t : Table) (rel : Relation) (c : Checkpoint) (id : Id) (data r : Row) :
  TableState st tableName t rel ->
  r ∈ rel_rows rel ->
  cell r "id" = id_value id ->
  cell r "effectiveToCheckpoint" = latest ->
  data !! "id" = None ->
  accepts rel (new_version (encodeCheckpoint c)
                 (formatRow (data ∪ {["id" := id_value id]}))) ->
  create encodeCheckpoint tableName c id data st
  = (st, inl (DatabaseError unique_violation)).
Proof.
  intros TS Hr Hrid Hrto Hid Hacc. unfold create.
  apply bind_throw. rewrite insert_one_run, (ts_relation _ _ _ _ TS).
  unfold insert_rows. rewrite check_rows_singleton, Hacc.
  cbn [fmap list_fmap].
  set (v := fill _ _).
  destruct (pk_unique _ _) eqn:Hu; [|done]. exfalso.
  unfold pk_unique in Hu. apply bool_decide_eq_true_1 in Hu.
  rewrite fmap_app in Hu. apply NoDup_app in Hu as (_ & Hdisj & _).
  apply (Hdisj (pk_of (rel_primary_key rel) r)).
  - apply list_elem_of_fmap. by exists r.
  - cbn [fmap list_fmap]. apply list_elem_of_singleton.
    rewrite (ts_primary_key TS). unfold pk_of. cbn [fmap list_fmap].
    unfold v. rewrite !cell_fill, cell_new_version_to.
    rewrite cell_new_version_other by done.
    unfold cell at 3. rewrite (formatRow_id _ _ Hid). simpl.
    by rewrite Hrid, Hrto.
Qed.

(** X13. [delete] touches the current version of the id and nothing else:
    whether it returns or throws, every other row of the table, the closed
    versions of the id among them, is still there as it was. *)
Theorem delete_keeps_the_other_rows (tableName : string) (c : Checkpoint)
    (id : Id) (st : Store) (rel : Relation) (r : Row) :
  database st !! versioned tableName = Some rel ->
  r ∈ rel_rows rel ->
  matches [id_condition st tableName id;
           Where "effectiveToCheckpoint" OpEq latest] r = false ->
  exists rel',
    database (delete encodeCheckpoint tableName c id st).1
      !! versioned tableName = Some rel'
    /\ r ∈ rel_rows rel'.
Proof.
  intros Hdb Hr Hnot. unfold delete. cbv zeta.
  set (same := [id_condition st tableName id;
                Where "effectiveFromCheckpoint" OpEq (VText (encodeCheckpoint c));
                Where "effectiveToCheckpoint" OpEq latest]).
  set (rel1 := with_rows rel
                 (List.filter (fun r => negb (matches same r)) (rel_rows rel))).
  set (st1 := set_relation st tableName rel1).
  assert (Hsame : matches same r = false).
  { unfold same. rewrite matches_cons. rewrite matches_cons in Hnot.
    destruct (eval_condition r (id_condition st tableName id)); [|done].
    rewrite matches_cons. cbn [andb] in *. rewrite Hnot.
    by rewrite andb_false_r. }
  assert (Hr1 : r ∈ rel_rows rel1).
  { unfold rel1. cbn [rel_rows with_rows]. apply list_elem_of_In, filter_In.
    split; [by apply list_elem_of_In|]. by rewrite Hsame. }
  match goal with
  | |- context [transaction ?b] => set (body := b)
  end.
  assert (Hbody : (exists e, body st = (st1, inl e))
                  \/ (exists b, body st = (st1, inr b))
                  \/ (exists b rel2, body st = (set_relation st1 tableName rel2, inr b)
                        /\ r ∈ rel_rows rel2)).
  { unfold body. rewrite (bind_run get_schema _ st st (this_schema st) eq_refl).
    erewrite (bind_run (executeTakeFirst _)); cycle 1.
    { unfold executeTakeFirst. erewrite bind_run; [reflexivity|].
      apply (deleteFrom_run _ _ _ _ Hdb). }
    fold (id_condition st tableName id). fold same. fold rel1. fold st1.
    destruct (head _) as [deleted|]; [right; left; by eexists|].
    unfold executeTakeFirst, updateTable.
    unfold bind.
    rewrite (statement_run _ _ st1 rel1 (set_relation_lookup st tableName rel1)).
    destruct (update_rows _ _ rel1) as [e|[rel2 updated]] eqn:Hup.
    - left. by exists e.
    - right. right. exists (bool_decide (is_Some (head updated))), rel2.
      split; [done|].
      unfold update_rows in Hup. destruct (bool_decide _); [discriminate|].
      destruct (check_rows _ _); [discriminate|].
      destruct (pk_unique _ _); [|discriminate].
      injection Hup as <- _. cbn [rel_rows with_rows].
      apply list_elem_of_fmap. exists r. split; [|done].
      change (r = if matches [id_condition st tableName id;
                              Where "effectiveToCheckpoint" OpEq latest] r
                  then {["effectiveToCheckpoint" := VText (encodeCheckpoint c)]} ∪ r
                  else r).
      by rewrite Hnot. }
  unfold transaction.
  destruct Hbody as [(e & ->)|[(b & ->)|(b & rel2 & -> & Hr2)]]; cbn [fst].
  - exists rel. split; [exact Hdb|done].
  - exists rel1. split; [apply set_relation_lookup|done].
  - exists rel2. split; [apply set_relation_lookup|done].
Qed.

(** ** [revert] *)

(** X14. After [revert] to a checkpoint no table of the schema has a version
    that starts at the checkpoint or later, and the versions that ended
    there or later are current again. *)
Theorem revert_leaves_nothing_later (c : Checkpoint) (st st' : Store)
    (tableName : string) :
  revert encodeCheckpoint c st = (st', inr tt) ->
  tableName ∈ schema_tables st ->
  exists rel,
    database st' !! versioned tableName = Some rel
    /\ forall r, r ∈ rel_rows rel ->
         (forall from, cell r "effectiveFromCheckpoint" = VText from ->
            string_lt from (encodeCheckpoint c) = true)
         /\ (forall to, cell r "effectiveToCheckpoint" = VText to ->
               to = "latest" \/ string_lt to (encodeCheckpoint c) = true).
Proof.
  intros H Hin. rewrite revert_run in H.
  destruct (revert_tables _ _ st) as [st1 [err|[]]] eqn:E; [discriminate|].
  injection H as ->.
  apply revert_tables_reverted in E as [Hrev _].
  destruct (Hrev _ Hin) as (rel & Hdb & Hfix).
  exists rel. split; [done|]. intros r Hr.
  rewrite (revert_rel_rows _ _ _ Hfix) in Hr.
  apply list_elem_of_fmap in Hr as (r0 & -> & Hr0).
  apply list_elem_of_In, filter_In in Hr0 as [_ Hfrom].
  rewrite matches_one, negb_true_iff in Hfrom.
  rewrite matches_one.
  destruct (compare_values OpGe (cell r0 "effectiveToCheckpoint") _) eqn:Hto.
  - split.
    + intros from Hc. rewrite cell_singleton_union_ne in Hc by done.
      rewrite Hc in Hfrom. simpl in Hfrom. by apply string_not_le_lt.
    + intros to Hc. rewrite cell_singleton_union_eq in Hc.
      injection Hc as <-. by left.
  - split.
    + intros from Hc. rewrite Hc in Hfrom. simpl in Hfrom.
      by apply string_not_le_lt.
    + intros to Hc. rewrite Hc in Hto. simpl in Hto. right.
      by apply string_not_le_lt.
Qed.

Lemma revert_tables_undo e names st tableName rel rel1 :
  (forall n, n ∈ names -> reverted e st n) ->
  database st !! versioned tableName = Some rel ->
  revert_rel e rel1 = inr rel ->
  tableName ∈ names ->
  revert_tables e names (set_relation st tableName rel1) = (st, inr tt).
Proof.
  intros Hall Hdb Hrev. induction names as [|n names IH]; intros Hin.
  - by apply elem_of_nil in Hin.
  - cbn [revert_tables]. destruct (decide (n = tableName)) as [->|Hne].
    + erewrite (bind_run (revert_table e tableName)); cycle 1.
      { rewrite (revert_table_run _ _ _ _ (set_relation_lookup st tableName rel1)).
        rewrite Hrev. rewrite set_relation_twice, set_relation_id by done.
        reflexivity. }
      apply revert_tables_fixed. intros m Hm. apply Hall. by right.
    + destruct (Hall n) as (reln & Hn & Hfix); [by left|].
      assert (Hn1 : database (set_relation st tableName rel1) !! versioned n
                    = Some reln).
      { unfold set_relation. simpl. rewrite lookup_insert_ne; [done|].
        intros Heq. by apply versioned_inj in Heq. }
      erewrite (bind_run (revert_table e n)); cycle 1.
      { rewrite (revert_table_run _ _ _ _ Hn1), Hfix.
        rewrite set_relation_id by done. reflexivity. }
      apply IH.
      * intros m Hm. apply Hall. by right.
      * apply elem_of_cons in Hin as [->|Hin]; [done|exact Hin].
Qed.

(** X15. [revert] to a checkpoint undoes a [create] at that checkpoint: on a
    store that holds nothing from the checkpoint on (one [revert] leaves as
    it is), [create] and then [revert] give the store back. *)
Theorem revert_undoes_create (st : Store) (tableName : string) (t : Table)
    (rel : Relation) (c : Checkpoint) (id : Id) (data : Row) :
  TableState st tableName t rel ->
  id_wf (idColumnComparator tableName (this_schema st)) id = true ->
  versions_of st tableName id rel = [] ->
  data !! "id" = None ->
  accepts rel (new_version (encodeCheckpoint c)
                 (formatRow (data ∪ {["id" := id_value id]}))) ->
  revert encodeCheckpoint c st = (st, inr tt) ->
  revert encodeCheckpoint c
    (create encodeCheckpoint tableName c id data st).1
  = (st, inr tt).
Proof.
  intros TS Hwf Hnone Hid Hacc Hfix.
  destruct (create_run encodeCheckpoint st tableName t rel c id data
              TS Hwf Hnone Hid Hacc) as (r & -> & _ & _).
  cbn [fst].
  set (v := fill _ _).
  rewrite revert_run in Hfix.
  destruct (revert_tables _ _ st) as [st1 [err|[]]] eqn:E; [discriminate|].
  injection Hfix as ->.
  apply revert_tables_reverted in E as [Hrev _].
  assert (Hin : tableName ∈ schema_tables st).
  { destruct (ts_the_schema TS) as (s & Hs & Ht). unfold schema_tables.
    rewrite Hs. simpl. apply list_elem_of_fmap. exists (tableName, t).
    split; [done|]. by apply elem_of_map_to_list. }
  destruct (Hrev _ Hin) as (rel0 & Hdb0 & Hfix0).
  rewrite (ts_relation _ _ _ _ TS) in Hdb0. injection Hdb0 as <-.
  rewrite revert_run.
  change (schema_tables (set_relation st tableName _)) with (schema_tables st).
  rewrite (revert_tables_undo (encodeCheckpoint c) (schema_tables st) st
             tableName rel
             (with_rows rel (rel_rows rel ++ [v]))); try done.
  - apply (ts_relation _ _ _ _ TS).
  - etrans; [|exact Hfix0]. unfold revert_rel, delete_rows.
    cbn [fst rel_rows with_rows]. rewrite List.filter_app.
    cbn [List.filter]. rewrite matches_one.
    unfold v. rewrite cell_fill, cell_new_version_from. simpl.
    rewrite string_le_refl. simpl. rewrite app_nil_r. done.
Qed.

Lemma reverted_table (st : Store) (tableName : string) (t : Table)
    (rel : Relation) (c : Checkpoint) :
  TableState st tableName t rel ->
  revert encodeCheckpoint c st = (st, inr tt) ->
  (forall n, n ∈ schema_tables st -> reverted (encodeCheckpoint c) st n)
  /\ tableName ∈ schema_tables st
  /\ revert_rel (encodeCheckpoint c) rel = inr rel.
Proof.
  intros TS Hfix. rewrite revert_run in Hfix.
  destruct (revert_tables _ _ st) as [st1 [err|[]]] eqn:E; [discriminate|].
  injection Hfix as ->.
  apply revert_tables_reverted in E as [Hrev _].
  assert (Hin : tableName ∈ schema_tables st).
  { destruct (ts_the_schema TS) as (s & Hs & Ht). unfold schema_tables.
    rewrite Hs. simpl. apply list_elem_of_fmap. exists (tableName, t).
    split; [done|]. by apply elem_of_map_to_list. }
  split; [done|]. split; [done|].
  destruct (Hrev _ Hin) as (rel0 & Hdb0 & Hfix0).
  rewrite (ts_relation _ _ _ _ TS) in Hdb0. by injection Hdb0 as <-.
Qed.

Lemma current_is_open st tableName id (r : Row) :
  matches [id_condition st tableName id;
           Where "effectiveToCheckpoint" OpEq latest] r = true ->
  r !! "effectiveToCheckpoint" = Some latest.
Proof.
  rewrite matches_cons. intros [_ H]%andb_true_iff.
  rewrite matches_one in H. unfold cell in H.
  destruct (r !! "effectiveToCheckpoint") as [[| | |s|]|]; try discriminate.
  simpl in H. apply String.eqb_eq in H. by subst.
Qed.

(** X16. [revert] to a checkpoint undoes a [delete] at that checkpoint: on a
    store that holds nothing from the checkpoint on, [delete] and then
    [revert] give the store back, with the version that was closed current
    again. *)
Theorem revert_undoes_delete (st : Store) (tableName : string) (t : Table)
    (rel : Relation) (c : Checkpoint) (id : Id) :
  TableState st tableName t rel ->
  (String.length (encodeCheckpoint c) <= 58)%nat ->
  encodeCheckpoint c <> "latest" ->
  revert encodeCheckpoint c st = (st, inr tt) ->
  revert encodeCheckpoint c (delete encodeCheckpoint tableName c id st).1
  = (st, inr tt).
Proof.
  intros TS Hlen Hne Hfix.
  destruct (reverted_table _ _ _ _ _ TS Hfix) as (Hall & Hin & Hrel).
  destruct (revert_rel_fixed_inv _ _ Hrel) as (Hfrom & Hto & _).
  destruct (delete_run encodeCheckpoint st tableName t rel c id TS) as [_ Hrun].
  cbn zeta in Hrun. rewrite Hrun; [| |exact Hlen|].
  - cbn [fst]. rewrite revert_run.
    change (schema_tables (set_relation st tableName _)) with (schema_tables st).
    rewrite (revert_tables_undo (encodeCheckpoint c) (schema_tables st) st
               tableName rel); try done.
    + apply (ts_relation _ _ _ _ TS).
    + rewrite <- (app_nil_r (_ <$> rel_rows rel)).
      apply (revert_rel_undo (encodeCheckpoint c) rel
               (matches [id_condition st tableName id;
                         Where "effectiveToCheckpoint" OpEq latest]) []).
      * exact Hrel.
      * intros r Hr. by apply (ts_rows_ok TS).
      * intros r _. apply current_is_open.
      * intros v Hv. by apply elem_of_nil in Hv.
  - apply filter_none. intros r Hr. rewrite !matches_cons.
    specialize (Hfrom r Hr). rewrite matches_one in Hfrom.
    destruct (eval_condition r (id_condition st tableName id)); [|done].
    cbn [andb eval_condition eval_atom].
    destruct (cell r "effectiveFromCheckpoint") as [| | |s|]; try done.
    simpl in *. destruct (String.eqb s (encodeCheckpoint c)) eqn:Heq; [|done].
    apply String.eqb_eq in Heq as ->. by rewrite string_le_refl in Hfrom.
  - apply filter_none. intros r Hr. rewrite matches_cons.
    destruct (eval_condition r (id_condition st tableName id)); [|done].
    cbn [andb]. rewrite matches_one.
    destruct (compare_values OpEq _ _) eqn:Heq; [|done]. exfalso.
    assert (Hm : matches [Where "effectiveToCheckpoint" OpGe
                            (VText (encodeCheckpoint c))] r = true).
    { rewrite matches_one.
      destruct (cell r "effectiveToCheckpoint") as [| | |s|]; try done.
      simpl in *. apply String.eqb_eq in Heq as ->. apply string_le_refl. }
    specialize (Hto r Hr Hm).
    assert (Hcell : cell r "effectiveToCheckpoint" = latest).
    { rewrite <- Hto. apply cell_singleton_union_eq. }
    rewrite Hcell in Heq. unfold latest in Heq. cbn [compare_values] in Heq.
    apply String.eqb_eq in Heq. by apply Hne.
Qed.

(** X17. [revert] to a checkpoint undoes an [update] at that checkpoint: on a
    store that holds nothing from the checkpoint on, whose table ends in
    the one version of the id, [update] and then [revert] give the store
    back. *)
Theorem revert_undoes_update (st : Store) (tableName : string) (t : Table)
    (rel : Relation) (c : Checkpoint) (id : Id) (patch : UpdateData)
    (pre : list Row) (w : Row) (e0 : string) :
  TableState st tableName t rel ->
  id_wf (idColumnComparator tableName (this_schema st)) id = true ->
  rel_rows rel = pre ++ [w] ->
  versions_of st tableName id (with_rows rel pre) = [] ->
  cell w "id" = id_value id ->
  cell w "effectiveToCheckpoint" = latest ->
  cell w "effectiveFromCheckpoint" = VText e0 ->
  encodeCheckpoint c <> "latest" ->
  (forall current, the_patch patch current !! "id" = None) ->
  (forall current,
     accepts rel
       (new_version (encodeCheckpoint c)
          (formatRow (the_patch patch current ∪ {["id" := id_value id]}) ∪ w))) ->
  revert encodeCheckpoint c st = (st, inr tt) ->
  revert encodeCheckpoint c (update encodeCheckpoint tableName c id patch st).1
  = (st, inr tt).
Proof.
  intros TS Hwf Hrows Hnone Hw_id Hw_to Hw_from Hne Hpatch Hacc Hfix.
  destruct (reverted_table _ _ _ _ _ TS Hfix) as (Hall & Hin & Hrel).
  destruct (revert_rel_fixed_inv _ _ Hrel) as (Hfrom & _ & _).
  set (e := encodeCheckpoint c) in *.
  assert (Hw : w ∈ rel_rows rel).
  { rewrite Hrows. apply elem_of_app. right. by left. }
  assert (Hlt : string_lt e0 e = true).
  { specialize (Hfrom w Hw). rewrite matches_one, Hw_from in Hfrom.
    by apply string_not_le_lt. }
  destruct (deserializeRow_total TS w) as [cur Hcur].
  pose (updateRow := formatRow (the_patch patch cur ∪ {["id" := id_value id]})).
  assert (Hup_id : updateRow !! "id" = Some (id_value id)).
  { apply formatRow_id, Hpatch. }
  destruct (write_version_branch st tableName t rel id pre w updateRow e0 e
              TS Hwf Hrows Hnone Hw_id Hw_to Hw_from Hlt Hne Hup_id (Hacc cur))
    as [Hwrite TS2].
  cbn zeta in Hwrite.
  set (v := fill (rel_columns rel) (new_version e (updateRow ∪ w))) in *.
  set (w' := {["effectiveToCheckpoint" := VText e]} ∪ w) in *.
  assert (Hupd : (update encodeCheckpoint tableName c id patch st).1
                 = set_relation st tableName (with_rows rel (pre ++ [w'; v]))).
  { unfold update. unfold bind at 1.
    erewrite transaction_run; cycle 1.
    { unfold bind at 1. unfold get_schema at 1. cbn beta iota.
      fold (id_condition st tableName id).
      unfold executeTakeFirstOrThrow at 1.
      unfold bind at 1. unfold bind at 1.
      rewrite (selectFrom_run _ _ _ _ (ts_relation _ _ _ _ TS)).
      rewrite (select_app_fresh st tableName id _ rel pre [w] Hrows Hnone).
      cbn [List.filter]. rewrite (matches_own_id st) by done.
      unfold matches, eval_condition, eval_atom. cbn [forallb].
      rewrite Hw_to. cbn.
      erewrite bind_run; [|by apply (update_row_run st tableName t rel id patch
                                       w cur TS)].
      exact Hwrite. }
    rewrite deserializeRowM_run.
    by destruct (deserializeRow (this_schema (set_relation _ _ _)) tableName v). }
  rewrite Hupd, revert_run.
  change (schema_tables (set_relation st tableName _)) with (schema_tables st).
  rewrite (revert_tables_undo e (schema_tables st) st tableName rel); try done.
  - apply (ts_relation _ _ _ _ TS).
  - set (closes := matches [id_condition st tableName id;
                            Where "effectiveToCheckpoint" OpEq latest]).
    assert (Hshape : pre ++ [w'; v]
                     = ((fun r => if closes r then close_at e r else r)
                          <$> rel_rows rel) ++ [v]).
    { rewrite Hrows, fmap_app. cbn [fmap list_fmap].
      assert (Hcw : closes w = true).
      { unfold closes. rewrite (matches_own_id st) by done.
        rewrite matches_one, Hw_to. done. }
      rewrite Hcw. rewrite fmap_id_on.
      - by rewrite <- app_assoc.
      - intros r Hr. unfold versions_of, select_rows in Hnone.
        cbn [rel_rows with_rows] in Hnone.
        rewrite filter_none in Hnone. specialize (Hnone r Hr).
        unfold closes. rewrite matches_cons.
        unfold id_condition in *. rewrite matches_one in Hnone.
        cbn [eval_condition eval_atom]. by rewrite Hnone. }
    rewrite Hshape.
    apply (revert_rel_undo e rel closes [v]).
    + exact Hrel.
    + intros r Hr. by apply (ts_rows_ok TS).
    + intros r _. apply current_is_open.
    + intros x Hx. apply list_elem_of_singleton in Hx as ->.
      unfold v. by rewrite cell_fill, cell_new_version_from.
Qed.

End StoreFacts.

(** X2. [reload] with a schema, when it returns, has set [this.schema] and
    has made a table for every table of the schema, with its columns and
    the primary key, and no rows; the tables of other names are as they
    were. *)
Theorem reload_sets_up_tables (schema : Schema) (st st' : Store) :
  reload (Some schema) st = (st', inr tt) ->
  this_schema st' = Some schema
  /\ (forall tableName t, tables schema !! tableName = Some t ->
        exists rel, TableState st' tableName t rel /\ rel_rows rel = [])
  /\ (forall k, (forall tableName, is_Some (tables schema !! tableName) ->
                   k <> versioned tableName) ->
        database st' !! k = database st !! k).
Proof.
  intros H.
  set (st1 := {| this_schema := Some schema; database := database st |}).
  assert (Hrun : transaction
            (create_tables (Some schema) (map_to_list (tables schema))) st1
          = (st', inr tt)).
  { unfold reload in H. by destruct (this_schema st). }
  clear H. unfold transaction in Hrun.
  destruct (create_tables _ _ st1) as [st2 [e|[]]] eqn:Hct; [discriminate|].
  injection Hrun as ->.
  pose proof (create_tables_schema (Some schema) (map_to_list (tables schema)) st1)
    as Hs. rewrite Hct in Hs. simpl in Hs.
  destruct (create_tables_run _ _ _ _ Hct) as [H1 H2].
  { apply NoDup_fst_map_to_list. }
  split; [done|]. split.
  - intros tableName t Ht.
    destruct (H1 tableName t) as (rel & Hb & Hdb).
    { by apply elem_of_map_to_list. }
    pose proof (build_table_inv _ _ _ Hb) as (Hpk & Hrows & _).
    exists rel. split; [|done]. split.
    + rewrite Hs. simpl. exact Ht.
    + exact Hdb.
    + by exists (Some schema), rel.
    + by rewrite Hrows.
    + by rewrite Hrows.
  - intros k Hk. rewrite H2; [done|].
    intros tableName Hin. apply Hk.
    apply list_elem_of_fmap in Hin as ([tn t] & -> & Hin).
    apply elem_of_map_to_list in Hin. by exists t.
Qed.



(** ** A write stays in its table *)

Section Frame.

Context {Checkpoint : Type}.
Variable encodeCheckpoint : Checkpoint -> string.
Variable table : string.
Variable st0 : Store.

Local Abbreviation stays := (preserves (only_touches table st0)).

Lemma stays_ret {A} (a : A) : stays (ret a).
Proof. by intros st H. Qed.

Lemma stays_throw {A} e : stays (@throw A e).
Proof. by intros st H. Qed.

Lemma stays_get_schema : stays get_schema.
Proof. by intros st H. Qed.

Lemma stays_bind {A B} (m : M A) (k : A -> M B) :
  stays m -> (forall a, stays (k a)) -> stays (bind m k).
Proof.
  intros Hm Hk st H. unfold bind. specialize (Hm st H).
  destruct (m st) as [st' [e|a]]; [done|]. by apply Hk.
Qed.

Lemma stays_transaction {A} (body : M A) : stays body -> stays (transaction body).
Proof.
  intros Hb st H. unfold transaction. specialize (Hb st H).
  destruct (body st) as [st' [e|a]]; [|done].
  destruct H as (H1 & H2 & H3), Hb as (Hb1 & _). by split.
Qed.

Lemma stays_statement {A} (f : Relation -> Error + (Relation * A)) :
  (forall rel rel' a, f rel = inr (rel', a) ->
     rel_columns rel' = rel_columns rel
     /\ rel_primary_key rel' = rel_primary_key rel) ->
  stays (statement table f).
Proof.
  intros Hf st H. pose proof H as (H1 & H2 & H3). unfold statement.
  destruct (database st !! table) as [rel|] eqn:E; [|exact H].
  destruct (f rel) as [e|[rel' a]] eqn:Ef; [exact H|].
  destruct (Hf _ _ _ Ef) as [Hc Hp].
  split; [done|]. split.
  - intros k Hk. simpl. rewrite lookup_insert_ne by done. by apply H2.
  - simpl. rewrite lookup_insert_eq.
    destruct (database st0 !! table) as [rel0|]; [|done].
    destruct H3 as [H3 H4]. split; congruence.
Qed.

Lemma stays_selectFrom conds : stays (selectFrom table conds).
Proof.
  apply stays_statement. intros rel rel' a Hf. cbn beta in Hf.
  by injection Hf as <- _.
Qed.

Lemma stays_insertInto vals : stays (insertInto table vals).
Proof.
  apply stays_statement. intros rel rel' a H.
  unfold insert_rows in H. destruct (check_rows _ _); [done|].
  destruct (pk_unique _ _); [|done]. by injection H as <- _.
Qed.

Lemma stays_updateTable values conds : stays (updateTable table values conds).
Proof.
  apply stays_statement. intros rel rel' a H.
  unfold update_rows in H. destruct (bool_decide _); [done|].
  destruct (check_rows _ _); [done|].
  destruct (pk_unique _ _); [|done]. by injection H as <- _.
Qed.

Lemma stays_deleteFrom conds : stays (deleteFrom table conds).
Proof.
  apply stays_statement. intros rel rel' a Hf. cbn beta in Hf.
  unfold delete_rows in Hf. by injection Hf as <- _.
Qed.

Lemma stays_first q : stays q -> stays (executeTakeFirst q).
Proof.
  intros H. apply stays_bind; [done|]. intros rows. apply stays_ret.
Qed.

Lemma stays_first_or_throw q : stays q -> stays (executeTakeFirstOrThrow q).
Proof.
  intros H. apply stays_bind; [done|].
  intros [|r rows]; [apply stays_throw|apply stays_ret].
Qed.

Lemma stays_deserializeRowM tableName row : stays (deserializeRowM tableName row).
Proof.
  apply stays_bind; [apply stays_get_schema|]. intros schema.
  destruct (deserializeRow _ _ _); [apply stays_ret|apply stays_throw].
Qed.

Lemma stays_deserializeRows tableName rows : stays (deserializeRows tableName rows).
Proof.
  induction rows as [|r rows IH]; [apply stays_ret|].
  apply stays_bind; [apply stays_deserializeRowM|]. intros x.
  apply stays_bind; [done|]. intros xs. apply stays_ret.
Qed.

Lemma stays_insert_chunks cs : stays (insert_chunks table cs).
Proof.
  induction cs as [|c cs IH]; [apply stays_ret|].
  intros st H. cbn [insert_chunks].
  pose proof (stays_insertInto c st H) as H1.
  destruct (insertInto table c st) as [st1 [e|rows]]; simpl in *.
  - by apply IH.
  - specialize (IH st1 H1).
    by destruct (insert_chunks table cs st1) as [st2 [e|rest]].
Qed.

Variable tableName : string.
Hypothesis the_table : table = versioned tableName.

Lemma stays_write_version e formattedId latestRow updateRow :
  stays (write_version tableName e formattedId latestRow updateRow).
Proof.
  unfold write_version. rewrite <- the_table.
  destruct (js_gt _ _); [apply stays_throw|].
  destruct (js_eq _ _).
  - apply stays_bind; [apply stays_get_schema|]. intros schema.
    apply stays_first_or_throw, stays_updateTable.
  - apply stays_bind; [apply stays_get_schema|]. intros schema.
    apply stays_bind; [apply stays_updateTable|]. intros _.
    apply stays_first_or_throw, stays_insertInto.
Qed.

Lemma stays_update_row id data latestRow :
  stays (update_row tableName id data latestRow).
Proof.
  destruct data as [d|fn]; [apply stays_ret|].
  apply stays_bind; [apply stays_deserializeRowM|]. intros cur.
  apply stays_ret.
Qed.

Lemma stays_create (c : Checkpoint) id data :
  stays (create encodeCheckpoint tableName c id data).
Proof.
  unfold create. rewrite <- the_table. apply stays_bind.
  - apply stays_first_or_throw, stays_insertInto.
  - intros row. apply stays_deserializeRowM.
Qed.

Lemma stays_createMany (c : Checkpoint) data :
  stays (createMany encodeCheckpoint tableName c data).
Proof.
  unfold createMany. rewrite <- the_table.
  apply stays_bind; [apply stays_insert_chunks|].
  intros rows. apply stays_deserializeRows.
Qed.

Lemma stays_update (c : Checkpoint) id data :
  stays (update encodeCheckpoint tableName c id data).
Proof.
  unfold update. rewrite <- the_table.
  apply stays_bind; [|intros row; apply stays_deserializeRowM].
  apply stays_transaction.
  apply stays_bind; [apply stays_get_schema|]. intros schema.
  apply stays_bind; [apply stays_first_or_throw, stays_selectFrom|].
  intros latestRow.
  apply stays_bind; [apply stays_update_row|]. intros updateRow.
  apply stays_write_version.
Qed.

Lemma stays_update_each e data latestRows :
  stays (update_each tableName e data latestRows).
Proof.
  induction latestRows as [|r rows IH]; [apply stays_ret|].
  cbn [update_each]. apply stays_bind.
  - destruct data as [d|fn]; [apply stays_ret|].
    apply stays_bind; [apply stays_deserializeRowM|]. intros cur.
    apply stays_ret.
  - intros updateRow.
    apply stays_bind; [apply stays_write_version|]. intros row.
    apply stays_bind; [done|]. intros xs. apply stays_ret.
Qed.

Lemma stays_updateMany (c : Checkpoint) where_ data :
  stays (updateMany encodeCheckpoint tableName c where_ data).
Proof.
  unfold updateMany. rewrite <- the_table.
  apply stays_bind; [|intros rows; apply stays_deserializeRows].
  apply stays_transaction.
  apply stays_bind; [apply stays_selectFrom|]. intros latestRows.
  apply stays_update_each.
Qed.

Lemma stays_upsert (c : Checkpoint) id create_ update_ :
  stays (upsert encodeCheckpoint tableName c id create_ update_).
Proof.
  unfold upsert. rewrite <- the_table.
  apply stays_bind; [|intros row; apply stays_deserializeRowM].
  apply stays_transaction.
  apply stays_bind; [apply stays_get_schema|]. intros schema.
  apply stays_bind; [apply stays_first, stays_selectFrom|].
  intros [latestRow|].
  - apply stays_bind; [apply stays_update_row|]. intros updateRow.
    apply stays_write_version.
  - apply stays_first_or_throw, stays_insertInto.
Qed.

Lemma stays_delete (c : Checkpoint) id :
  stays (delete encodeCheckpoint tableName c id).
Proof.
  unfold delete. rewrite <- the_table.
  apply stays_transaction.
  apply stays_bind; [apply stays_get_schema|]. intros schema.
  apply stays_bind; [apply stays_first, stays_deleteFrom|].
  intros [deletedRow|]; [apply stays_ret|].
  apply stays_bind; [apply stays_first, stays_updateTable|].
  intros deletedRow. apply stays_ret.
Qed.

End Frame.

Lemma only_touches_refl table st : only_touches table st st.
Proof.
  split; [done|]. split; [done|]. by destruct (database st !! table).
Qed.

(** X18. A write on a table, whether it returns or throws, leaves the schema
    and every other table as they were, and keeps the columns and the
    primary key of its own table. *)
Theorem write_stays_in_its_table {Checkpoint : Type}
    (encodeCheckpoint : Checkpoint -> string) (op : Operation Checkpoint)
    (tableName : string) (st : Store) :
  table_of op = Some tableName ->
  only_touches (versioned tableName) st (perform encodeCheckpoint op st).
Proof.
  intros Hop. pose proof (only_touches_refl (versioned tableName) st) as H.
  destruct op; try discriminate Hop; injection Hop as ->; cbn [perform].
  - by apply (stays_create encodeCheckpoint _ st tableName eq_refl).
  - by apply (stays_createMany encodeCheckpoint _ st tableName eq_refl).
  - by apply (stays_update encodeCheckpoint _ st tableName eq_refl).
  - by apply (stays_updateMany encodeCheckpoint _ st tableName eq_refl).
  - by apply (stays_upsert encodeCheckpoint _ st tableName eq_refl).
  - by apply (stays_delete encodeCheckpoint _ st tableName eq_refl).
Qed.

(** X5. After [reload] every table is empty: [findUnique] returns [null]
    for every id, at every checkpoint. *)
Theorem fresh_table_finds_nothing {Checkpoint : Type}
    (encodeCheckpoint : Checkpoint -> string) (schema : Schema)
    (st st' : Store) (tableName : string) (t : Table)
    (checkpoint : option Checkpoint) (id : Id) :
  reload (Some schema) st = (st', inr tt) ->
  tables schema !! tableName = Some t ->
  findUnique encodeCheckpoint tableName checkpoint id st' = (st', inr None).
Proof.
  intros Hreload Ht.
  destruct (reload_sets_up_tables schema st st' Hreload) as (_ & Htables & _).
  destruct (Htables tableName t Ht) as (rel & TS & Hrows).
  rewrite (findUnique_run encodeCheckpoint st' tableName t rel checkpoint id TS).
  unfold select_rows. by rewrite Hrows.
Qed.

(** ** The properties on the store of the examples *)

Lemma store0_reload :
  reload (Some Fixture.schema) {| this_schema := None; database := ∅ |}
  = (Fixture.store0, inr tt).
Proof. vm_compute. reflexivity. Qed.

Lemma store0_Token_relation :
  database Fixture.store0 !! versioned "Token"
  = Some (Fixture.relation_of Fixture.store0 "Token").
Proof. vm_compute. reflexivity. Qed.

Lemma store1_Token_relation :
  database Fixture.store1 !! versioned "Token"
  = Some (Fixture.relation_of Fixture.store1 "Token").
Proof. vm_compute. reflexivity. Qed.

Lemma store1_Token_rows :
  rel_rows (Fixture.relation_of Fixture.store1 "Token") = [Fixture.version1].
Proof. vm_compute. reflexivity. Qed.

Lemma Token_columns columnName column :
  table_columns Fixture.Token !! columnName = Some column ->
  (columnName = "id" /\ column = ScalarColumn TBytes false false)
  \/ (columnName = "supply" /\ column = ScalarColumn TBigint false false).
Proof.
  unfold table_columns, Fixture.Token. cbn [columns id_type].
  intros H. apply lookup_insert_Some in H as [[<- <-]|[_ H]]; [by left|].
  apply lookup_singleton_Some in H as [<- <-]. by right.
Qed.

Lemma fresh_table_finds_nothing_witness :
  findUnique Fixture.encode "Token" (Some 7%N) (IdText "0xab") Fixture.store0
  = (Fixture.store0, inr None).
Proof.
  assert (Ht : tables Fixture.schema !! "Token" = Some Fixture.Token)
    by (vm_compute; reflexivity).
  exact (fresh_table_finds_nothing Fixture.encode Fixture.schema _ _ "Token"
           Fixture.Token (Some 7%N) (IdText "0xab") store0_reload Ht).
Defined.


Lemma reload_sets_up_tables_witness :
  this_schema Fixture.store0 = Some Fixture.schema
  /\ exists rel, TableState Fixture.store0 "Counter" Fixture.Counter rel
                 /\ rel_rows rel = [].
Proof.
  assert (Ht : tables Fixture.schema !! "Counter" = Some Fixture.Counter)
    by (vm_compute; reflexivity).
  destruct (reload_sets_up_tables Fixture.schema _ _ store0_reload)
    as (Hs & Htables & _).
  split; [exact Hs|]. exact (Htables "Counter" Fixture.Counter Ht).
Defined.






Lemma upsert_without_current_is_create_witness :
  upsert Fixture.encode "Token" 3%N (IdText "0xab") {["supply" := VNum 1]}
    (Patch {["supply" := VNum 2]}) Fixture.store0
  = create Fixture.encode "Token" 3%N (IdText "0xab") {["supply" := VNum 1]}
      Fixture.store0.
Proof.
  assert (Hcur : current_of Fixture.store0 "Token" (IdText "0xab")
                   (Fixture.relation_of Fixture.store0 "Token") = [])
    by (vm_compute; reflexivity).
  refine (upsert_without_current_is_create Fixture.encode "Token" 3%N
            (IdText "0xab") {["supply" := VNum 1]} (Patch {["supply" := VNum 2]})
            Fixture.store0 _).
  intros rel Hrel.
  assert (E : Some rel = Some (Fixture.relation_of Fixture.store0 "Token")).
  { transitivity (database Fixture.store0 !! versioned "Token").
    symmetry; exact Hrel. exact store0_Token_relation. }
  apply (inj Some) in E. rewrite E. exact Hcur.
Defined.

Lemma upsert_with_current_is_update_witness :
  upsert Fixture.encode "Token" 3%N (IdText "0xab") {["supply" := VNum 1]}
    (Patch {["supply" := VNum 2]}) Fixture.store1
  = update Fixture.encode "Token" 3%N (IdText "0xab")
      (Patch {["supply" := VNum 2]}) Fixture.store1.
Proof.
  assert (Hcur : current_of Fixture.store1 "Token" (IdText "0xab")
                   (Fixture.relation_of Fixture.store1 "Token")
                 = [Fixture.version1]) by (vm_compute; reflexivity).
  apply (upsert_with_current_is_update Fixture.encode "Token" 3%N (IdText "0xab")
           _ _ Fixture.store1 _ store1_Token_relation).
  rewrite Hcur. intros Hnil. discriminate Hnil.
Defined.


Lemma deserialize_after_format_witness :
  deserialize_value (ScalarColumn TBoolean false false)
    (formatColumnValue (VBool true))
  = Some (VBool true).
Proof. apply deserialize_after_format. reflexivity. Defined.




Lemma create_of_stored_id_is_refused_witness :
  create Fixture.encode "Token" 5%N (IdText "0xAB") {["supply" := VNum 1]}
    Fixture.store1
  = (Fixture.store1, inl (DatabaseError unique_violation)).
Proof.
  assert (Hr : Fixture.version1 ∈ rel_rows (Fixture.relation_of Fixture.store1 "Token")).
  { rewrite store1_Token_rows. by left. }
  assert (Ha : cell Fixture.version1 "id" = id_value (IdText "0xAB"))
    by (vm_compute; reflexivity).
  assert (Hb : cell Fixture.version1 "effectiveToCheckpoint" = latest)
    by (vm_compute; reflexivity).
  assert (Hc : ({["supply" := VNum 1]} : Row) !! "id" = None)
    by (vm_compute; reflexivity).
  assert (Hd : accepts (Fixture.relation_of Fixture.store1 "Token")
                 (new_version (Fixture.encode 5)
                    (formatRow ({["supply" := VNum 1]}
                                  ∪ {["id" := id_value (IdText "0xAB")]}))))
    by (vm_compute; reflexivity).
  exact (create_of_stored_id_is_refused Fixture.encode Fixture.store1 "Token"
           Fixture.Token _ 5%N (IdText "0xAB") _ Fixture.version1
           store1_Token Hr Ha Hb Hc Hd).
Defined.


Lemma delete_keeps_the_other_rows_witness :
  exists rel',
    database (delete Fixture.encode "Token" 3%N (IdText "0xCD") Fixture.store1).1
      !! versioned "Token" = Some rel'
    /\ Fixture.version1 ∈ rel_rows rel'.
Proof.
  assert (Hr : Fixture.version1 ∈ rel_rows (Fixture.relation_of Fixture.store1 "Token")).
  { rewrite store1_Token_rows. by left. }
  assert (Hm : matches [id_condition Fixture.store1 "Token" (IdText "0xCD");
                        Where "effectiveToCheckpoint" OpEq latest]
                 Fixture.version1 = false) by (vm_compute; reflexivity).
  exact (delete_keeps_the_other_rows Fixture.encode "Token" 3%N (IdText "0xCD")
           Fixture.store1 _ Fixture.version1 store1_Token_relation Hr Hm).
Defined.


Lemma store0_reverted :
  revert Fixture.encode 2%N Fixture.store0 = (Fixture.store0, inr tt).
Proof. vm_compute. reflexivity. Qed.

Lemma store1_reverted :
  revert Fixture.encode 3%N Fixture.store1 = (Fixture.store1, inr tt).
Proof. vm_compute. reflexivity. Qed.

Lemma revert_leaves_nothing_later_witness :
  exists rel,
    database (revert Fixture.encode 2%N Fixture.store1).1 !! versioned "Token"
    = Some rel
    /\ forall r, r ∈ rel_rows rel ->
         (forall from, cell r "effectiveFromCheckpoint" = VText from ->
            string_lt from (Fixture.encode 2) = true)
         /\ (forall to, cell r "effectiveToCheckpoint" = VText to ->
               to = "latest" \/ string_lt to (Fixture.encode 2) = true).
Proof.
  assert (H : revert Fixture.encode 2%N Fixture.store1
              = ((revert Fixture.encode 2%N Fixture.store1).1, inr tt))
    by (vm_compute; reflexivity).
  assert (Hin : "Token" ∈ schema_tables Fixture.store1).
  { assert (E : schema_tables Fixture.store1 = ["Counter"; "Token"])
      by (vm_compute; reflexivity).
    rewrite E. right. by left. }
  exact (revert_leaves_nothing_later Fixture.encode 2%N Fixture.store1 _
           "Token" H Hin).
Defined.

Lemma revert_undoes_create_witness :
  revert Fixture.encode 2%N
    (create Fixture.encode "Token" 2%N (IdText "0xAB") {["supply" := VNum 0]}
       Fixture.store0).1
  = (Fixture.store0, inr tt).
Proof.
  assert (Ha : id_wf (idColumnComparator "Token" (this_schema Fixture.store0))
                 (IdText "0xAB") = true) by (vm_compute; reflexivity).
  assert (Hb : versions_of Fixture.store0 "Token" (IdText "0xAB")
                 (Fixture.relation_of Fixture.store0 "Token") = [])
    by (vm_compute; reflexivity).
  assert (Hc : ({["supply" := VNum 0]} : Row) !! "id" = None)
    by (vm_compute; reflexivity).
  assert (Hd : accepts (Fixture.relation_of Fixture.store0 "Token")
                 (new_version (Fixture.encode 2)
                    (formatRow ({["supply" := VNum 0]}
                                  ∪ {["id" := id_value (IdText "0xAB")]}))))
    by (vm_compute; reflexivity).
  exact (revert_undoes_create Fixture.encode Fixture.store0 "Token" Fixture.Token
           _ 2%N (IdText "0xAB") {["supply" := VNum 0]}
           store0_Token Ha Hb Hc Hd store0_reverted).
Defined.

Lemma revert_undoes_delete_witness :
  revert Fixture.encode 3%N
    (delete Fixture.encode "Token" 3%N (IdText "0xab") Fixture.store1).1
  = (Fixture.store1, inr tt).
Proof.
  assert (Ha : (String.length (Fixture.encode 3) <= 58)%nat)
    by (vm_compute; lia).
  assert (Hb : Fixture.encode 3 <> "latest").
  { assert (E : Fixture.encode 3
                = "0000000000000000000000000000000000000000000000000000000003")
      by (vm_compute; reflexivity).
    rewrite E. intros Heq. discriminate Heq. }
  exact (revert_undoes_delete Fixture.encode Fixture.store1 "Token" Fixture.Token
           _ 3%N (IdText "0xab") store1_Token Ha Hb store1_reverted).
Defined.

Lemma revert_undoes_update_witness :
  revert Fixture.encode 3%N
    (update Fixture.encode "Token" 3%N (IdText "0xAB")
       (Patch {["supply" := VNum 9]}) Fixture.store1).1
  = (Fixture.store1, inr tt).
Proof.
  assert (Ha : id_wf (idColumnComparator "Token" (this_schema Fixture.store1))
                 (IdText "0xAB") = true) by (vm_compute; reflexivity).
  assert (Hb : versions_of Fixture.store1 "Token" (IdText "0xAB")
                 (with_rows (Fixture.relation_of Fixture.store1 "Token") []) = [])
    by (vm_compute; reflexivity).
  assert (Hc : cell Fixture.version1 "id" = id_value (IdText "0xAB"))
    by (vm_compute; reflexivity).
  assert (Hd : cell Fixture.version1 "effectiveToCheckpoint" = latest)
    by (vm_compute; reflexivity).
  assert (He : cell Fixture.version1 "effectiveFromCheckpoint"
               = VText (Fixture.encode 2)) by (vm_compute; reflexivity).
  assert (Hf : Fixture.encode 3 <> "latest").
  { assert (E : Fixture.encode 3
                = "0000000000000000000000000000000000000000000000000000000003")
      by (vm_compute; reflexivity).
    rewrite E. intros Heq. discriminate Heq. }
  assert (Hg : forall current : Row,
             the_patch (Patch {["supply" := VNum 9]}) current !! "id" = None).
  { intros current. vm_compute. reflexivity. }
  assert (Hh : forall current : Row,
             accepts (Fixture.relation_of Fixture.store1 "Token")
               (new_version (Fixture.encode 3)
                  (formatRow (the_patch (Patch {["supply" := VNum 9]}) current
                                ∪ {["id" := id_value (IdText "0xAB")]})
                     ∪ Fixture.version1))).
  { intros current. vm_compute. reflexivity. }
  exact (revert_undoes_update Fixture.encode Fixture.store1 "Token" Fixture.Token
           _ 3%N (IdText "0xAB") (Patch {["supply" := VNum 9]}) []
           Fixture.version1 (Fixture.encode 2)
           store1_Token Ha store1_Token_rows Hb Hc Hd He Hf Hg Hh store1_reverted).
Defined.


Lemma write_stays_in_its_table_witness :
  only_touches (versioned "Token") Fixture.store0
    (perform Fixture.encode
       (DoUpsert "Token" 2%N (IdText "0xAB") {["supply" := VNum 0]}
          (Patch {["supply" := VNum 1]}))
       Fixture.store0).
Proof.
  apply (write_stays_in_its_table Fixture.encode). reflexivity.
Defined.

(** * More properties of the request queue *)

Module QueueInvariantFacts.

Import RequestQueue QueueInvariants.

Local Open Scope list_scope.

(** ** The rate *)

(** X19. For a positive rate the interval is at least 50 ms, a batch has at
    least one request, and the requests of one batch per interval are at
    most [maxRequestsPerSecond] a second. *)
Theorem rate_never_exceeded (R : Q) :
  (0 < R)%Q ->
  (50 <= interval R)%Q
  /\ (1 <= requestBatchSize R)%Z
  /\ (inject_Z (requestBatchSize R) * 1000 <= R * interval R)%Q.
Proof.
  intros HR. unfold interval, requestBatchSize.
  assert (HR0 : ~ (R == 0)%Q).
  { intros H0. rewrite H0 in HR. by apply Qlt_irrefl in HR. }
  destruct (Qgt_bool (1000 / R) 50) eqn:E.
  - apply RequestQueueFacts.Qgt_bool_true in E.
    split; [by apply Qlt_le_weak|]. split; [lia|].
    assert (Heq : (R * (1000 / R) == 1000)%Q) by (field; exact HR0).
    rewrite Heq. by compute.
  - apply RequestQueueFacts.Qgt_bool_false in E.
    assert (H20 : (20 <= R)%Q).
    { assert (Hm : (1000 == (1000 / R) * R)%Q) by (field; exact HR0).
      assert (Hle : ((1000 / R) * R <= 50 * R)%Q).
      { apply Qmult_le_compat_r; [exact E|by apply Qlt_le_weak]. }
      lra. }
    assert (Hdiv : (R / 20 == R * (1 # 20))%Q) by (field).
    split; [apply Qle_refl|]. split.
    + change 1%Z with (Qfloor 1). apply Qfloor_resp_le. rewrite Hdiv. lra.
    + assert (Hf : (inject_Z (Qfloor (R / 20)) <= R * (1 # 20))%Q)
        by (rewrite <- Hdiv; apply Qfloor_le).
      generalize dependent (inject_Z (Qfloor (R / 20))). intros f Hf. lra.
Qed.

Lemma rate_never_exceeded_witness :
  (50 <= interval 130)%Q
  /\ (1 <= requestBatchSize 130)%Z
  /\ (inject_Z (requestBatchSize 130) * 1000 <= 130 * interval 130)%Q.
Proof.
  assert (H : (0 < 130)%Q) by reflexivity.
  exact (rate_never_exceeded 130 H).
Defined.

(** ** One batch *)

Lemma interval_at_least_50 R : (50 <= interval R)%Q.
Proof.
  unfold interval. destruct (Qgt_bool (1000 / R) 50) eqn:E.
  - apply RequestQueueFacts.Qgt_bool_true in E. by apply Qlt_le_weak.
  - apply Qle_refl.
Qed.

Lemma dispatch_empty n s : queue s = [] -> dispatch n s = s.
Proof. intros Hq. destruct n; simpl; [done|]. by rewrite Hq. Qed.

Lemma dispatch_cons n s task rest :
  queue s = task :: rest ->
  dispatch (S n) s = dispatch n (dispatch_one task rest s).
Proof.
  intros Hq. simpl. rewrite Hq. destruct rest as [|t rest']; [|done].
  by rewrite dispatch_empty.
Qed.

(** X20. The loop of [processQueue] takes the first tasks of the queue, [n]
    at most, in their order, and hands them to the transport; all of them
    capture the same [_id], so that [pendingRequests] remembers the last
    one only. *)
Theorem dispatch_batch (n : nat) (s : State) :
  let s' := dispatch n s in
  queue s' = drop n (queue s)
  /\ inflight s' = inflight s ++ ((fun task => (id s, task)) <$> batch n s)
  /\ pending s' = (pending s + Z.of_nat (length (batch n s)))%Z
  /\ pendingRequests s' =
       match last (batch n s) with
       | Some task => <[id s := promise task]> (pendingRequests s)
       | None => pendingRequests s
       end
  /\ id s' = id s /\ promises s' = promises s
  /\ timers s' = timers s /\ timing s' = timing s /\ on s' = on s
  /\ lastRequestTime s' = lastRequestTime s.
Proof.
  revert s. induction n as [|n IH]; intros s; cbn zeta.
  - unfold batch. rewrite drop_0, take_0. simpl.
    rewrite app_nil_r, Z.add_0_r. done.
  - destruct (queue s) as [|task rest] eqn:Hq.
    + rewrite dispatch_empty by done. unfold batch. rewrite Hq. simpl.
      rewrite app_nil_r, Z.add_0_r. done.
    + rewrite (dispatch_cons n s task rest Hq).
      specialize (IH (dispatch_one task rest s)). cbn zeta in IH.
      destruct IH as (H1 & H2 & H3 & H4 & H5 & H6 & H7 & H8 & H9 & H10).
      unfold batch in *. rewrite Hq. cbn [dispatch_one queue inflight pending
        pendingRequests id promises timers timing on lastRequestTime] in *.
      rewrite H1, H2, H3, H4, H5, H6, H7, H8, H9, H10.
      rewrite firstn_cons, skipn_cons. cbn [fmap list_fmap length].
      split; [done|]. split; [by rewrite <- app_assoc|].
      split; [lia|]. split; [|done].
      rewrite last_cons. destruct (last (take n rest)); [|done].
      by rewrite insert_insert_eq.
Qed.

Lemma processQueue_cases R now s :
  processQueue R now s = s
  \/ (exists d, (0 < d)%Q /\ processQueue R now s = arm_timer d s)
  \/ (exists d, (0 < d)%Q /\ processQueue R now s =
        arm_timer d (dispatch (Z.to_nat (requestBatchSize R))
                       (set_lastRequestTime now s))).
Proof.
  unfold processQueue. destruct (negb (on s)); [by left|].
  destruct (queue s) as [|t q]; [by left|].
  destruct (Qle_bool _ _) eqn:E; right.
  - right. eexists. split; [|done].
    pose proof (interval_at_least_50 R). lra.
  - left. eexists. split; [|done].
    assert (Hlt : (inject_Z (now - lastRequestTime s) < interval R)%Q).
    { apply Qnot_le_lt. intros Hle. apply Qle_bool_iff in Hle. congruence. }
    lra.
Qed.

(** What [processQueue] does to the queue and to the transport: it sends a
    prefix of the queue. *)
Lemma processQueue_sends R now s :
  let s' := processQueue R now s in
  exists n,
    queue s' = drop n (queue s)
    /\ inflight s' = inflight s ++ ((fun task => (id s, task)) <$> take n (queue s))
    /\ pending s' = (pending s + Z.of_nat (length (take n (queue s))))%Z
    /\ id s' = id s /\ promises s' = promises s /\ on s' = on s.
Proof.
  cbn zeta.
  assert (Hnone : exists n,
    queue s = drop n (queue s)
    /\ inflight s = inflight s ++ ((fun task => (id s, task)) <$> take n (queue s))
    /\ pending s = (pending s + Z.of_nat (length (take n (queue s))))%Z
    /\ id s = id s /\ promises s = promises s /\ on s = on s).
  { exists 0. rewrite drop_0, take_0. simpl. by rewrite app_nil_r, Z.add_0_r. }
  assert (Harm : forall d s0, queue (arm_timer d s0) = queue s0
    /\ inflight (arm_timer d s0) = inflight s0
    /\ pending (arm_timer d s0) = pending s0
    /\ id (arm_timer d s0) = id s0 /\ promises (arm_timer d s0) = promises s0
    /\ on (arm_timer d s0) = on s0).
  { intros d s0. unfold arm_timer. by destruct (timing s0). }
  destruct (processQueue_cases R now s) as [->|[(d & _ & ->)|(d & _ & ->)]].
  - exact Hnone.
  - destruct (Harm d s) as (A1 & A2 & A3 & A4 & A5 & A6).
    rewrite A1, A2, A3, A4, A5, A6. exact Hnone.
  - destruct (Harm d
      (dispatch (Z.to_nat (requestBatchSize R)) (set_lastRequestTime now s)))
      as (A1 & A2 & A3 & A4 & A5 & A6).
    destruct (dispatch_batch (Z.to_nat (requestBatchSize R))
      (set_lastRequestTime now s))
      as (H1 & H2 & H3 & _ & H5 & H6 & _ & _ & H9 & _).
    exists (Z.to_nat (requestBatchSize R)).
    rewrite A1, A2, A3, A4, A5, A6, H1, H2, H3, H5, H6, H9. done.
Qed.

Lemma processQueue_paused R now s : on s = false -> processQueue R now s = s.
Proof. intros Hon. unfold processQueue. by rewrite Hon. Qed.

(** ** The counter of pending requests *)

Lemma Counted_step R s ev : Counted s -> Counted (step R s ev).
Proof.
  unfold Counted. intros H.
  assert (Hp : forall now s0,
    pending s0 = Z.of_nat (length (inflight s0)) ->
    pending (processQueue R now s0)
    = Z.of_nat (length (inflight (processQueue R now s0)))).
  { intros now s0 H0.
    destruct (processQueue_sends R now s0) as (n & _ & H2 & H3 & _).
    rewrite H2, H3, H0, length_app, length_fmap. lia. }
  destruct ev as [p now|now| | |now|k result]; simpl.
  - by apply Hp.
  - by apply Hp.
  - exact H.
  - exact H.
  - unfold fire. destruct (timers s); [exact H|]. by apply Hp.
  - unfold respond. destruct (inflight s !! k) as [[i task]|] eqn:Hk; [|exact H].
    cbn [pending inflight]. rewrite H.
    rewrite <- (take_drop_middle (inflight s) k (i, task) Hk) at 1.
    rewrite !length_app. simpl. lia.
Qed.

(** X21. [pending()] is the number of calls of the transport that have not
    settled, whatever happened to the queue. *)
Theorem pending_counts_open_calls (R : Q) (evs : list Event) :
  pending (run R init evs) = Z.of_nat (length (inflight (run R init evs))).
Proof.
  change (Counted (run R init evs)).
  assert (H : Counted init) by reflexivity.
  revert H. generalize init. induction evs as [|ev evs IH]; intros s H; [done|].
  simpl. by apply IH, Counted_step.
Qed.

(** ** The timer *)

Lemma OneTimer_arm d s :
  (0 < d)%Q -> OneTimer s -> OneTimer (arm_timer d s).
Proof.
  intros Hd [[Ht Hl]|[Ht Hl]]; unfold arm_timer; rewrite Ht.
  - right. split; [done|]. exists d. cbn [timers]. by rewrite Hl.
  - by right.
Qed.

Lemma OneTimer_frame s s' :
  timing s' = timing s -> timers s' = timers s -> OneTimer s -> OneTimer s'.
Proof. unfold OneTimer. by intros -> ->. Qed.

Lemma OneTimer_processQueue R now s :
  OneTimer s -> OneTimer (processQueue R now s).
Proof.
  intros H.
  destruct (processQueue_cases R now s) as [->|[(d & Hd & ->)|(d & Hd & ->)]].
  - exact H.
  - by apply OneTimer_arm.
  - apply OneTimer_arm; [done|].
    destruct (dispatch_batch (Z.to_nat (requestBatchSize R))
      (set_lastRequestTime now s))
      as (_ & _ & _ & _ & _ & _ & H7 & H8 & _).
    eapply OneTimer_frame; [exact H8|exact H7|exact H].
Qed.

Lemma OneTimer_step R s ev : OneTimer s -> OneTimer (step R s ev).
Proof.
  intros H. destruct ev as [p now|now| | |now|k result]; simpl.
  - apply OneTimer_processQueue. by eapply OneTimer_frame; [| |exact H].
  - apply OneTimer_processQueue. by eapply OneTimer_frame; [| |exact H].
  - by eapply OneTimer_frame; [| |exact H].
  - by eapply OneTimer_frame; [| |exact H].
  - unfold fire. destruct (timers s) as [|d rest] eqn:Ht; [exact H|].
    apply OneTimer_processQueue.
    destruct H as [[_ Hl]|[_ (d' & Hl & _)]]; [congruence|].
    left. cbn [timing timers]. split; [done|]. congruence.
  - unfold respond. destruct (inflight s !! k) as [[i task]|]; [|exact H].
    by eapply OneTimer_frame; [| |exact H].
Qed.

(** X22. At most one timeout is armed at a time, [timing] says whether one
    is, and its delay is positive. *)
Theorem one_timer_at_a_time (R : Q) (evs : list Event) :
  OneTimer (run R init evs).
Proof.
  assert (H : OneTimer init) by (by left).
  revert H. generalize init. induction evs as [|ev evs IH]; intros s H; [done|].
  simpl. by apply IH, OneTimer_step.
Qed.

(** ** The order of the requests *)

Lemma sorted_app_inv (l1 l2 : list nat) :
  StronglySorted lt (l1 ++ l2) ->
  StronglySorted lt l1 /\ StronglySorted lt l2
  /\ forall p q, p ∈ l1 -> q ∈ l2 -> p < q.
Proof.
  induction l1 as [|x l1 IH]; simpl; intros H.
  - split; [constructor|]. split; [done|].
    intros p q Hp. by apply elem_of_nil in Hp.
  - apply StronglySorted_inv in H as [Hs Hall].
    destruct (IH Hs) as (H1 & H2 & H3).
    apply Forall_app in Hall as [Ha Hb].
    split; [by constructor|]. split; [done|].
    intros p q Hp Hq. apply elem_of_cons in Hp as [->|Hp]; [|by apply H3].
    by apply (proj1 (Forall_forall _ _) Hb).
Qed.

Lemma sorted_snoc (l : list nat) (x : nat) :
  StronglySorted lt l -> (forall q, q ∈ l -> q < x) ->
  StronglySorted lt (l ++ [x]).
Proof.
  induction l as [|y l IH]; simpl; intros Hs Hlt.
  - constructor; [constructor|by constructor].
  - apply StronglySorted_inv in Hs as [Hs Hall]. constructor.
    + apply IH; [done|]. intros q Hq. apply Hlt. by right.
    + apply Forall_app. split; [done|].
      constructor; [|by constructor]. apply Hlt. by left.
Qed.

Lemma Fifo_frame s s' :
  queue s' = queue s -> inflight s' = inflight s ->
  length (promises s') = length (promises s) ->
  Fifo s -> Fifo s'.
Proof. unfold Fifo. cbn zeta. by intros -> -> ->. Qed.

Lemma Fifo_processQueue R now s : Fifo s -> Fifo (processQueue R now s).
Proof.
  intros (Hs & Hq & Hp & Hlt).
  destruct (processQueue_sends R now s) as (n & H1 & H2 & _ & _ & H5 & _).
  unfold Fifo. cbn zeta. rewrite H1, H2, H5.
  rewrite fmap_drop, fmap_app, fmap_app, <- !list_fmap_compose.
  change ((promise ∘ snd) ∘ (fun task : Task => (id s, task)))
    with (promise : Task -> nat).
  rewrite fmap_take. rewrite list_fmap_compose.
  set (waiting := promise <$> queue s) in *.
  set (sent := promise <$> (inflight s).*2) in *.
  assert (Hsplit : StronglySorted lt (take n waiting ++ drop n waiting))
    by (by rewrite take_drop).
  apply sorted_app_inv in Hsplit as (_ & Hd & Hcross).
  split; [exact Hd|]. split; [|split].
  - intros q Hin. apply Hq. eapply list_elem_of_lookup in Hin as [i Hi].
    rewrite lookup_drop in Hi. by eapply list_elem_of_lookup_2.
  - intros p Hin. apply elem_of_app in Hin as [Hin|Hin]; [by apply Hp|].
    apply Hq. eapply list_elem_of_lookup in Hin as [i Hi].
    apply lookup_take_Some in Hi as [Hi _]. by eapply list_elem_of_lookup_2.
  - intros p q Hin Hqin. apply elem_of_app in Hin as [Hin|Hin].
    + apply Hlt; [done|]. eapply list_elem_of_lookup in Hqin as [i Hi].
      rewrite lookup_drop in Hi. by eapply list_elem_of_lookup_2.
    + by apply Hcross.
Qed.

Lemma settle_length p result ps : length (settle p result ps) = length ps.
Proof.
  unfold settle. destruct (ps !! p) as [[| |]|]; try done.
  by rewrite length_insert.
Qed.

Lemma Fifo_step R s ev : Fifo s -> Fifo (step R s ev).
Proof.
  intros H. destruct ev as [p now|now| | |now|k result]; simpl.
  - apply Fifo_processQueue. destruct H as (Hs & Hq & Hp & Hlt).
    unfold Fifo. cbn zeta. cbn [enqueue queue inflight promises].
    rewrite fmap_app, length_app. cbn [fmap list_fmap length promise].
    split; [by apply sorted_snoc|]. split; [|split].
    + intros q Hin. apply elem_of_app in Hin as [Hin|Hin].
      * specialize (Hq q Hin). lia.
      * apply list_elem_of_singleton in Hin as ->. lia.
    + intros q Hin. specialize (Hp q Hin). lia.
    + intros q1 q2 H1 Hin. apply elem_of_app in Hin as [Hin|Hin].
      * by apply Hlt.
      * apply list_elem_of_singleton in Hin as ->. by apply Hp.
  - apply Fifo_processQueue. by eapply Fifo_frame; [| | |exact H].
  - by eapply Fifo_frame; [| | |exact H].
  - destruct H as (Hs & Hq & Hp & Hlt). unfold Fifo. cbn zeta.
    cbn [clear queue inflight promises fmap list_fmap].
    split; [constructor|]. split; [|split; [exact Hp|]].
    + intros q Hin. by apply elem_of_nil in Hin.
    + intros p q _ Hin. by apply elem_of_nil in Hin.
  - unfold fire. destruct (timers s); [exact H|].
    apply Fifo_processQueue. by eapply Fifo_frame; [| | |exact H].
  - unfold respond. destruct (inflight s !! k) as [[i task]|] eqn:Hk; [|exact H].
    destruct H as (Hs & Hq & Hp & Hlt). unfold Fifo. cbn zeta.
    cbn [queue inflight promises]. rewrite settle_length.
    assert (Hsub : forall p,
      p ∈ promise <$> (take k (inflight s) ++ drop (S k) (inflight s)).*2 ->
      p ∈ promise <$> (inflight s).*2).
    { intros p Hin.
      rewrite <- (take_drop_middle (inflight s) k (i, task) Hk).
      rewrite !fmap_app in Hin. rewrite !fmap_app, !fmap_cons.
      apply elem_of_app in Hin as [Hin|Hin]; apply elem_of_app;
        [by left|right; by right]. }
    split; [exact Hs|]. split; [exact Hq|]. split.
    + intros p Hin. by apply Hp, Hsub.
    + intros p q Hin Hqin. apply Hlt; [by apply Hsub|done].
Qed.

(** X23. Requests are sent in the order they were made: the tasks wait in the
    order of their calls of [request], and every task that was sent was
    requested before every task that still waits. *)
Theorem requests_sent_in_order (R : Q) (evs : list Event) :
  Fifo (run R init evs).
Proof.
  assert (H : Fifo init).
  { unfold Fifo. simpl. split; [constructor|].
    split; [|split]; intros p; intros; by apply elem_of_nil in H. }
  revert H. generalize init. induction evs as [|ev evs IH]; intros s H; [done|].
  simpl. by apply IH, Fifo_step.
Qed.

(** ** A paused queue *)

Lemma sublist_without {A} (l : list A) k :
  sublist (take k l ++ drop (S k) l) l.
Proof.
  rewrite <- (take_drop k l) at 3. apply sublist_app; [done|].
  replace (S k) with (k + 1) by lia.
  rewrite <- (drop_drop l 1 k). apply sublist_drop.
Qed.

(** X24. After [pause()] nothing is sent until [start()] is called: requests
    and timeouts leave the calls of the transport as they are, and answers
    only take calls away. *)
Theorem paused_queue_sends_nothing (R : Q) (s : State) (evs : list Event) :
  forallb (fun ev => negb (is_start ev)) evs = true ->
  let s' := run R (step R s Pause) evs in
  on s' = false /\ sublist (inflight s') (inflight s).
Proof.
  intros Hev. cbn zeta.
  assert (H : on (step R s Pause) = false
              /\ sublist (inflight (step R s Pause)) (inflight s)) by done.
  revert H. generalize (step R s Pause).
  induction evs as [|ev evs IH]; intros s0 H; [done|].
  simpl in Hev. apply andb_true_iff in Hev as [Hne Hev].
  simpl. apply IH; [done|]. destruct H as [Hon Hsub].
  destruct ev as [p now|now| | |now|k result]; simpl; try done.
  - by rewrite processQueue_paused.
  - unfold fire. destruct (timers s0); [done|].
    by rewrite processQueue_paused.
  - unfold respond. destruct (inflight s0 !! k) as [[i task]|]; [|done].
    cbn [on inflight]. split; [done|].
    etrans; [apply sublist_without|done].
Qed.

Lemma paused_queue_sends_nothing_witness :
  let s' := run 1 (step 1 init Pause)
              [Request "eth_chainId" 1000; Timeout 2000;
               Request "eth_chainId" 3000] in
  on s' = false /\ sublist (inflight s') (inflight init).
Proof.
  apply (paused_queue_sends_nothing 1 init). reflexivity.
Defined.

(** ** The answer of the transport *)

(** X25. When the transport settles a call, the promise [request] returned
    for it settles the same way: fulfilled with its value, or rejected with
    its error. *)
Theorem answer_settles_the_promise (R : Q) (evs : list Event) (k : nat)
    (_id : Z) (task : Task) (result : string + string) :
  let s := run R init evs in
  inflight s !! k = Some (_id, task) ->
  promises (step R s (Respond k result)) !! promise task
  = Some (outcome result).
Proof.
  cbn zeta. intros Hk.
  destruct (RequestQueueFacts.Inv_run R evs init RequestQueueFacts.Inv_init)
    as [_ Hpend].
  assert (Hin : promise task ∈ live (run R init evs)).
  { unfold live. apply list_elem_of_fmap. exists task. split; [done|].
    apply elem_of_app. right. apply list_elem_of_fmap. exists (_id, task).
    split; [done|]. by eapply list_elem_of_lookup_2. }
  specialize (Hpend _ Hin).
  simpl. unfold respond. rewrite Hk. cbn [promises].
  unfold settle. rewrite Hpend.
  apply list_lookup_insert_eq. by eapply lookup_lt_Some.
Qed.

Lemma answer_settles_the_promise_witness :
  promises (step 1 (run 1 init [Request "eth_chainId" 1000])
              (Respond 0 (inl "RpcRequestError")))
    !! 0
  = Some (Rejected "RpcRequestError").
Proof.
  apply (answer_settles_the_promise 1 [Request "eth_chainId" 1000] 0 0
           {| params := "eth_chainId"; promise := 0 |}
           (inl "RpcRequestError")).
  reflexivity.
Defined.

End QueueInvariantFacts.

(** * Properties of the cached transport *)

Module TransportFacts.

Import Transport.

Local Open Scope list_scope.

Section Facts.

Variable hexToBigInt : string -> option Z.
Variable network : nat -> Body -> string + string.

Lemma cache_key_cached chainId body key :
  cache_key hexToBigInt chainId body = Some key ->
  bool_decide (method body ∈ cachedMethods) = true.
Proof.
  unfold cache_key. by destruct body.
Qed.

(** X26. Two requests with the same cache key make one round trip: the first
    one, which finds nothing, asks the network and stores the response; the
    second is answered with that response and the network is not asked. *)
Theorem second_request_is_cached (chainId : Z) (body body' : Body)
    (key : Z * Z * string) (s : CacheState) (response : string) :
  cache_key hexToBigInt chainId body = Some key ->
  cache_key hexToBigInt chainId body' = Some key ->
  getRpcRequestResult key s = None ->
  network (length (sent s)) body = inr response ->
  response <> "" ->
  let s1 := (request hexToBigInt network chainId body s).1 in
  request hexToBigInt network chainId body s = (s1, inr response)
  /\ request hexToBigInt network chainId body' s1 = (s1, inr response)
  /\ sent s1 = sent s ++ [body].
Proof.
  intros Hk Hk' Hmiss Hnet Hne. cbn zeta. unfold request.
  rewrite (cache_key_cached _ _ _ Hk), (cache_key_cached _ _ _ Hk'), Hk, Hk'.
  rewrite Hmiss. unfold network_request. rewrite Hnet. cbn [fst].
  split; [done|]. split; [|done].
  unfold getRpcRequestResult, insertRpcRequestResult. cbn [rpcRequestResults].
  rewrite lookup_insert_eq. by destruct response.
Qed.

(** X27. The network is left alone exactly when the store has a result for
    the key, and that result is not the empty string. *)
Theorem round_trip_saved_iff (chainId : Z) (body : Body)
    (key : Z * Z * string) (s : CacheState) :
  cache_key hexToBigInt chainId body = Some key ->
  sent (request hexToBigInt network chainId body s).1 = sent s
  <-> exists result, getRpcRequestResult key s = Some result /\ result <> "".
Proof.
  intros Hk. unfold request.
  rewrite (cache_key_cached _ _ _ Hk), Hk.
  assert (Hgrow : forall s', sent s' = sent s ++ [body] -> sent s' <> sent s).
  { intros s' -> Heq. apply (f_equal length) in Heq.
    rewrite length_app in Heq. simpl in Heq. lia. }
  destruct (getRpcRequestResult key s) as [[|c r]|] eqn:Hget.
  - split.
    + intros Hs. exfalso. revert Hs. unfold network_request.
      destruct (network _ _); by apply Hgrow.
    + by intros (result & [= <-] & Hne).
  - split; [|done]. intros _. by exists (String c r).
  - split.
    + intros Hs. exfalso. revert Hs. unfold network_request.
      destruct (network _ _); by apply Hgrow.
    + by intros (result & [=] & _).
Qed.

(** X28. A request that fails stores nothing. *)
Theorem failed_request_stores_nothing (chainId : Z) (body : Body)
    (s s' : CacheState) (e : RequestError) :
  request hexToBigInt network chainId body s = (s', inl e) ->
  rpcRequestResults s' = rpcRequestResults s.
Proof.
  unfold request, network_request.
  destruct (bool_decide _).
  - destruct (cache_key _ _ _) as [key|]; [|by intros [= <- _]].
    destruct (getRpcRequestResult key s) as [[|c r]|];
      try (by intros [=]);
      destruct (network _ _); by intros [= <- _].
  - by intros [= <- _].
Qed.

(** X29. The keys of two different methods are never the same, whatever the
    parameters: a result stored for one method is not served for
    another. *)
Theorem keys_of_methods_differ (chainId : Z) (body body' : Body)
    (key : Z * Z * string) :
  cache_key hexToBigInt chainId body = Some key ->
  cache_key hexToBigInt chainId body' = Some key ->
  method body = method body'.
Proof.
  unfold cache_key.
  destruct body as [d t b|a b|a b|a sl b|m ps], body' as [d' t' b'|a' b'|a' b'|a' sl' b'|m' ps'];
    cbn [request_of method]; try done;
    destruct (blockNumberBigInt _ b), (blockNumberBigInt _ b'); try done;
    intros [= <-]; intros [= _ H]; exfalso; simpl in H; discriminate H.
Qed.

End Facts.

Lemma second_request_is_cached_witness :
  let network := fun (_ : nat) (_ : Body) => inr "0x0de0b6b3a7640000" in
  let first := eth_getBalance "0xAbC0000000000000000000000000000000000001" (Hex "0xA") in
  let second := eth_getBalance "0xabc0000000000000000000000000000000000001" (Hex "0xa") in
  let s1 := (request hex_number network 1 first empty).1 in
  request hex_number network 1 first empty = (s1, inr "0x0de0b6b3a7640000")
  /\ request hex_number network 1 second s1 = (s1, inr "0x0de0b6b3a7640000")
  /\ sent s1 = [first].
Proof.
  cbn zeta.
  apply (second_request_is_cached hex_number _ 1 _ _
           (1%Z, 10%Z, "eth_getBalance_0xabc0000000000000000000000000000000000001")
           empty "0x0de0b6b3a7640000");
    [reflexivity|reflexivity|reflexivity|reflexivity|discriminate].
Defined.

Lemma round_trip_saved_iff_witness :
  let network := fun (_ : nat) (_ : Body) => inr "0x" in
  let body := eth_getCode "0xABC" Latest in
  let s := {| rpcRequestResults := {[ (1%Z, maxUint256, "eth_getCode_0xabc") := "" ]};
              sent := [] |} in
  sent (request hex_number network 1 body s).1 = sent s
  <-> exists result,
        getRpcRequestResult (1%Z, maxUint256, "eth_getCode_0xabc") s = Some result
        /\ result <> "".
Proof.
  cbn zeta. apply (round_trip_saved_iff hex_number). reflexivity.
Defined.

Lemma failed_request_stores_nothing_witness :
  let network := fun (_ : nat) (_ : Body) => inl "RpcRequestError" in
  let body := eth_call "0x70a08231" "0xABC" (Hex "0x10") in
  rpcRequestResults (request hex_number network 1 body empty).1
  = rpcRequestResults empty.
Proof.
  cbn zeta.
  apply (failed_request_stores_nothing hex_number
           (fun _ _ => inl "RpcRequestError") 1
           (eth_call "0x70a08231" "0xABC" (Hex "0x10")) empty _
           (RpcError "RpcRequestError")).
  reflexivity.
Defined.

Lemma keys_of_methods_differ_witness :
  method (eth_getStorageAt "0xABC" "0x0" Latest)
  = method (eth_getStorageAt "0xabc" "0x0" Latest).
Proof.
  apply (keys_of_methods_differ hex_number 1 _ _
           (1%Z, maxUint256, "eth_getStorageAt_0xabc_0x0"));
    reflexivity.
Defined.

End TransportFacts.
